(** * NIQE calculator: a shallow embedding of [niqe_calculator.py]

    The Python class [NIQECalculator] is embedded function by function.
    NumPy and Python floating-point values are modelled as extended reals
    ([Fin r], [PInf], [NInf], [NaN]) with the IEEE-754 rules for the special
    values; arithmetic on finite values is exact (rounding, overflow and
    signed zeros are outside this model), so the casts to 32-bit floats
    ([np.float32], [astype(np.float32)]) are the identity.  Fallible code runs
    in the [outcome] monad, which separates a returned value, a raised
    exception and a process exit.

    Three error paths lie outside the exact model of values and are given
    apart, further down: the range check of [math.pow] and the in-place
    flattening of [aggd_features] (module [Checked]), and the key lookups in
    the parameter file (module [Keyed]). *)

From Stdlib Require Import String.
From Stdlib Require Import Reals ZArith List Lia Lra Bool Sorted.
From Stdlib Require Import Setoid Morphisms.
Import ListNotations.

Open Scope Z_scope.

(** ** Outcomes of a call *)

Inductive exn : Type :=
| AssertionError
| ValueError
| IndexError
| ZeroDivisionError
| FloatingPointError
| OtherError (msg : string).

Inductive outcome (A : Type) : Type :=
| Ok (a : A)
| Raise (e : exn)
| Exit (code : Z).

Arguments Ok {A} a.
Arguments Raise {A} e.
Arguments Exit {A} code.

Definition bind {A B : Type} (m : outcome A) (k : A -> outcome B) : outcome B :=
  match m with
  | Ok a => k a
  | Raise e => Raise e
  | Exit c => Exit c
  end.

Notation "x <- m ;; k" := (bind m (fun x => k))
  (at level 61, m at next level, right associativity).
Notation "' p <- m ;; k" := (bind m (fun p => k))
  (at level 61, p pattern, m at next level, right associativity).

Fixpoint mapM {A B : Type} (f : A -> outcome B) (l : list A) : outcome (list B) :=
  match l with
  | [] => Ok []
  | a :: t => b <- f a ;; r <- mapM f t ;; Ok (b :: r)
  end.

(** What a call into an external library (OpenCV, SciPy) can do: return or
    raise. *)
Inductive lib_result (A : Type) : Type :=
| Returns (a : A)
| Throws (e : exn).

Arguments Returns {A} a.
Arguments Throws {A} e.

Definition lift {A : Type} (r : lib_result A) : outcome A :=
  match r with
  | Returns a => Ok a
  | Throws e => Raise e
  end.

Definition is_ok {A : Type} (m : outcome A) : Prop := exists a, m = Ok a.
Definition is_raise {A : Type} (m : outcome A) : Prop := exists e, m = Raise e.

(** ** Floating-point values *)

Inductive float : Type :=
| Fin (r : R)
| PInf
| NInf
| NaN.

Definition F0 : float := Fin 0%R.
Definition F1 : float := Fin 1%R.
Definition of_Z (z : Z) : float := Fin (IZR z).

Definition is_nan (x : float) : bool :=
  match x with NaN => true | _ => false end.

Definition is_finite (x : float) : Prop := exists r, x = Fin r.

(** [r * (+inf)] when [pos] is true, [r * (-inf)] otherwise. *)
Definition scale_inf (r : R) (pos : bool) : float :=
  match total_order_T 0%R r with
  | inleft (left _) => if pos then PInf else NInf
  | inleft (right _) => NaN
  | inright _ => if pos then NInf else PInf
  end.

Definition fneg (x : float) : float :=
  match x with
  | Fin r => Fin (- r)%R
  | PInf => NInf
  | NInf => PInf
  | NaN => NaN
  end.

Definition fadd (x y : float) : float :=
  match x, y with
  | NaN, _ | _, NaN => NaN
  | Fin a, Fin b => Fin (a + b)%R
  | PInf, NInf | NInf, PInf => NaN
  | PInf, _ | _, PInf => PInf
  | NInf, _ | _, NInf => NInf
  end.

Definition fsub (x y : float) : float := fadd x (fneg y).

Definition fmul (x y : float) : float :=
  match x, y with
  | NaN, _ | _, NaN => NaN
  | Fin a, Fin b => Fin (a * b)%R
  | Fin a, PInf | PInf, Fin a => scale_inf a true
  | Fin a, NInf | NInf, Fin a => scale_inf a false
  | PInf, PInf | NInf, NInf => PInf
  | PInf, NInf | NInf, PInf => NInf
  end.

(** IEEE division; a zero divisor gives an infinity or NaN. *)
Definition fdiv (x y : float) : float :=
  match x, y with
  | NaN, _ | _, NaN => NaN
  | Fin a, Fin b =>
      if Req_dec_T b 0%R then scale_inf a true else Fin (a / b)%R
  | Fin _, PInf | Fin _, NInf => Fin 0%R
  | PInf, Fin b => if Rlt_dec b 0%R then NInf else PInf
  | NInf, Fin b => if Rlt_dec b 0%R then PInf else NInf
  | PInf, PInf | PInf, NInf | NInf, PInf | NInf, NInf => NaN
  end.

Definition fabs (x : float) : float :=
  match x with
  | Fin r => Fin (Rabs r)
  | PInf | NInf => PInf
  | NaN => NaN
  end.

Definition fsqrt (x : float) : float :=
  match x with
  | Fin r => if Rlt_dec r 0%R then NaN else Fin (sqrt r)
  | PInf => PInf
  | NInf | NaN => NaN
  end.

Definition fexp (x : float) : float :=
  match x with
  | Fin r => Fin (exp r)
  | PInf => PInf
  | NInf => Fin 0%R
  | NaN => NaN
  end.

(** Comparisons; every comparison with NaN is false, except [!=]. *)
Definition flt (x y : float) : bool :=
  match x, y with
  | NaN, _ | _, NaN => false
  | Fin a, Fin b => if Rlt_dec a b then true else false
  | NInf, NInf | PInf, _ | Fin _, NInf => false
  | NInf, _ | Fin _, PInf => true
  end.

Definition fge (x y : float) : bool :=
  match x, y with
  | NaN, _ | _, NaN => false
  | Fin a, Fin b => if Rle_dec b a then true else false
  | PInf, _ | Fin _, NInf | NInf, NInf => true
  | NInf, _ | Fin _, PInf => false
  end.

Definition feq (x y : float) : bool :=
  match x, y with
  | Fin a, Fin b => if Req_dec_T a b then true else false
  | PInf, PInf | NInf, NInf => true
  | _, _ => false
  end.

Definition fne (x y : float) : bool := negb (feq x y).

(** [math.pow(x, n)] for a natural exponent, computed exactly: a finite
    operand gives a finite result, however large ([Checked.math_pow] has the
    range check of Python). *)
Fixpoint math_pow (x : float) (n : nat) : float :=
  match n with
  | O => F1
  | S O => x
  | S m => fmul x (math_pow x m)
  end.

(** ** Division and the NumPy error state

    Python's own [float] division raises [ZeroDivisionError] on a zero
    divisor.  A NumPy division by zero returns the IEEE value and reports
    through the error state: with [np.seterr(divide='raise')] ([strict]) it
    raises [FloatingPointError], otherwise (the default) it only warns. *)

Definition py_div (x y : float) : outcome float :=
  if feq y F0 then Raise ZeroDivisionError else Ok (fdiv x y).

Definition np_div (strict : bool) (x y : float) : outcome float :=
  if feq y F0 && strict then Raise FloatingPointError else Ok (fdiv x y).

(** ** Python lists and ranges *)

(** [l[i]] and [l[i] = v] with Python's index rules. *)
Definition norm_index {A : Type} (l : list A) (i : Z) : option nat :=
  let n := Z.of_nat (length l) in
  if (0 <=? i) && (i <? n) then Some (Z.to_nat i)
  else if (- n <=? i) && (i <? 0) then Some (Z.to_nat (i + n))
  else None.

Fixpoint set_nth {A : Type} (l : list A) (k : nat) (v : A) : list A :=
  match l, k with
  | [], _ => []
  | _ :: t, O => v :: t
  | a :: t, S k' => a :: set_nth t k' v
  end.

Definition py_getitem {A : Type} (d : A) (l : list A) (i : Z) : outcome A :=
  match norm_index l i with
  | Some k => Ok (nth k l d)
  | None => Raise IndexError
  end.

Definition py_setitem {A : Type} (l : list A) (i : Z) (v : A) : outcome (list A) :=
  match norm_index l i with
  | Some k => Ok (set_nth l k v)
  | None => Raise IndexError
  end.

(** [[v] * n]: a non-positive count gives the empty list. *)
Definition py_repeat {A : Type} (v : A) (n : Z) : list A := repeat v (Z.to_nat n).

(** [range(start, stop, step)]; a zero step raises [ValueError]. *)
Definition range_len (start stop step : Z) : Z :=
  if 0 <? step then
    (if start <? stop then (stop - start + step - 1) / step else 0)
  else
    (if stop <? start then (start - stop - step - 1) / (- step) else 0).

Definition py_range3 (start stop step : Z) : outcome (list Z) :=
  if step =? 0 then Raise ValueError
  else Ok (map (fun k => start + Z.of_nat k * step)
               (seq 0 (Z.to_nat (range_len start stop step)))).

Definition py_range2 (start stop : Z) : list Z :=
  map (fun k => start + Z.of_nat k) (seq 0 (Z.to_nat (stop - start))).

Definition py_range (stop : Z) : list Z := py_range2 0 stop.

Fixpoint for_each {A S : Type} (l : list A) (body : S -> A -> outcome S) (s : S)
  : outcome S :=
  match l with
  | [] => Ok s
  | a :: t => s' <- body s a ;; for_each t body s'
  end.

(** [l[a:b]] with Python's slice rules (negative bounds count from the end,
    bounds are clamped). *)
Definition clamp_index (n i : Z) : Z :=
  if i <? 0 then Z.max (i + n) 0 else Z.min i n.

Definition py_slice {A : Type} (l : list A) (a b : Z) : list A :=
  let n := Z.of_nat (length l) in
  let a' := clamp_index n a in
  let b' := clamp_index n b in
  firstn (Z.to_nat (b' - a')) (skipn (Z.to_nat a') l).

Fixpoint map2 {A B C : Type} (f : A -> B -> C) (l : list A) (l' : list B) : list C :=
  match l, l' with
  | a :: t, b :: t' => f a b :: map2 f t t'
  | _, _ => []
  end.

(** ** NumPy arrays

    A 2-D array is the list of its rows. *)

Definition matrix : Type := list (list float).

Definition shape (m : matrix) : Z * Z :=
  (Z.of_nat (length m), Z.of_nat (length (hd [] m))).

Definition rect (m : matrix) : Prop :=
  forall row, In row m -> length row = length (hd [] m).

Definition build (h w : nat) (f : nat -> nat -> float) : matrix :=
  map (fun i => map (fun j => f i j) (seq 0 w)) (seq 0 h).

(** Entry [(i, j)], or 0 outside the array (constant extension). *)
Definition at0 (m : matrix) (i j : Z) : float :=
  if (0 <=? i) && (0 <=? j) then nth (Z.to_nat j) (nth (Z.to_nat i) m []) F0 else F0.

Definition fsum (l : list float) : float := fold_left fadd l F0.

(** [np.mean] / [np.average] of a 1-D array; NaN on an empty array. *)
Definition np_mean (l : list float) : float :=
  fdiv (fsum l) (of_Z (Z.of_nat (length l))).

(** [a[mask]] for a boolean mask of the same length. *)
Fixpoint np_select (mask : list bool) (a : list float) : list float :=
  match mask, a with
  | b :: mt, x :: t => if b then x :: np_select mt t else np_select mt t
  | _, _ => []
  end.

(** [np.argmin]: the first NaN if there is one, else the first minimum. *)
Fixpoint argmin_loop (l : list float) (i : nat) (mp : float) (min_ind : nat) : nat :=
  match l with
  | [] => min_ind
  | x :: t =>
      if negb (fge x mp)
      then (if is_nan x then i else argmin_loop t (S i) x i)
      else argmin_loop t (S i) mp min_ind
  end.

Definition np_argmin (l : list float) : outcome nat :=
  match l with
  | [] => Raise ValueError
  | x :: t => if is_nan x then Ok O else Ok (argmin_loop t 1 x 0)
  end.

(** [np.roll(l, shift)] along one axis. *)
Definition np_roll {A : Type} (shift : Z) (l : list A) : list A :=
  match l with
  | [] => []
  | _ =>
      let k := Z.to_nat ((- shift) mod Z.of_nat (length l)) in
      skipn k l ++ firstn k l
  end.

Definition roll_axis0 (shift : Z) (m : matrix) : matrix := np_roll shift m.
Definition roll_axis1 (shift : Z) (m : matrix) : matrix := map (np_roll shift) m.

Definition mat_map (f : float -> float) (m : matrix) : matrix := map (map f) m.
Definition mat_map2 (f : float -> float -> float) (a b : matrix) : matrix :=
  map2 (map2 f) a b.

(** [np.hstack] of two feature matrices: the row counts must agree. *)
Definition np_hstack (a b : matrix) : outcome matrix :=
  if Nat.eqb (length a) (length b) then Ok (map2 (@app float) a b)
  else Raise ValueError.

(** [np.mean(feats, axis=0)]. *)
Definition column (m : matrix) (j : nat) : list float := map (fun row => nth j row F0) m.

Definition mean_axis0 (m : matrix) : list float :=
  map (fun j => np_mean (column m j)) (seq 0 (length (hd [] m))).

(** [np.cov(feats.T)]: columns are variables, rows are observations, with the
    normalisation [1 / (n - 1)].  With one observation NumPy divides by 0;
    [niqe] never gets there, its size assertions leave four patches or more. *)
Definition np_cov_T (m : matrix) : matrix :=
  let d := length (hd [] m) in
  let mu := mean_axis0 m in
  let fact := of_Z (Z.max (Z.of_nat (length m) - 1) 0) in
  build d d (fun i j =>
    fmul (fsum (map (fun row =>
                  fmul (fsub (nth i row F0) (nth i mu F0))
                       (fsub (nth j row F0) (nth j mu F0))) m))
         (fdiv F1 fact)).

(** Broadcasting of one axis: equal lengths, or one of them 1. *)
Definition bcast_len (n m : nat) : option nat :=
  if Nat.eqb n m then Some n
  else if Nat.eqb n 1 then Some m
  else if Nat.eqb m 1 then Some n
  else None.

Definition bcast_nth {A : Type} (d : A) (l : list A) (i : nat) : A :=
  if Nat.eqb (length l) 1 then hd d l else nth i l d.

Definition vec_map2 (f : float -> float -> float) (a b : list float)
  : outcome (list float) :=
  match bcast_len (length a) (length b) with
  | Some n => Ok (map (fun i => f (bcast_nth F0 a i) (bcast_nth F0 b i)) (seq 0 n))
  | None => Raise ValueError
  end.

Definition mat_bcast2 (f : float -> float -> float) (a b : matrix) : outcome matrix :=
  match bcast_len (length a) (length b),
        bcast_len (length (hd [] a)) (length (hd [] b)) with
  | Some h, Some w =>
      Ok (build h w (fun i j =>
            f (bcast_nth F0 (bcast_nth [] a i) j) (bcast_nth F0 (bcast_nth [] b i) j)))
  | _, _ => Raise ValueError
  end.

(** [np.dot] of a vector with a matrix, and of two vectors. *)
Definition dot_vec_mat (x : list float) (m : matrix) : outcome (list float) :=
  if Nat.eqb (length x) (length m)
  then Ok (map (fun j => fsum (map2 fmul x (column m j))) (seq 0 (length (hd [] m))))
  else Raise ValueError.

Definition dot_vec_vec (x y : list float) : outcome float :=
  if Nat.eqb (length x) (length y) then Ok (fsum (map2 fmul x y))
  else Raise ValueError.

(** [scipy.ndimage.correlate1d(input, weights, axis, mode='constant')]:
    no kernel flip, zero outside the array, origin at [len(weights) // 2]. *)
Definition correlate1d (input : matrix) (weights : list float) (axis : nat)
  : outcome matrix :=
  match weights with
  | [] => Raise (OtherError "RuntimeError")
  | _ =>
      let n := length weights in
      let s := Z.of_nat (Nat.div n 2) in
      Ok (build (length input) (length (hd [] input)) (fun i c =>
            fsum (map (fun j =>
                    let o := Z.of_nat j - s in
                    fmul (nth j weights F0)
                         (match axis with
                          | O => at0 input (Z.of_nat i + o) (Z.of_nat c)
                          | _ => at0 input (Z.of_nat i) (Z.of_nat c + o)
                          end))
                    (seq 0 n))))
  end.

(** ** The class [NIQECalculator] *)

Inductive patch_cfg : Type :=
| Auto
| Fixed (p : Z).

Record mat_params : Type := {
  mat_pop_mu : matrix;
  mat_pop_cov : matrix
}.

Record scorer : Type := {
  patch_size : patch_cfg;
  params_path : string;
  params : option mat_params;
  pop_mu : option (list float);
  pop_cov : option matrix
}.

(** [NIQECalculator(patch_size, params_path)] *)
Definition init (ps : patch_cfg) (path : string) : scorer :=
  {| patch_size := ps; params_path := path;
     params := None; pop_mu := None; pop_cov := None |}.

(** An image as [niqe] receives it: 2-D, or 3-D with a channel axis. *)
Inductive image : Type :=
| Gray (m : matrix)
| Color (m : list (list (list float))).

Definition aggd_params : Type := (float * float * float * float * float * float)%type.

(** [np.arange(0.2, 10, 0.001)]: [ceil((10 - 0.2) / 0.001) = 9800] entries
    [0.2 + i * 0.001]. *)
Definition gamma_range_len : nat := Z.to_nat 9800.

Definition gamma_range : list float :=
  map (fun i => Fin (2 / 10 + INR i * (1 / 1000))%R) (seq 0 gamma_range_len).

Section NIQECalculator.

(** NumPy's division error state (see [np_div]). *)
Variable strict : bool.
(** [scipy.special.gamma] *)
Variable Gamma : float -> float.
(** [cv2.resize(img, (0, 0), fx=0.5, fy=0.5, interpolation=cv2.INTER_CUBIC)] *)
Variable resize_half : matrix -> lib_result matrix.
(** [cv2.cvtColor(img, cv2.COLOR_BGR2GRAY)], pixel by pixel *)
Variable bgr2gray : list float -> lib_result float.
(** [scipy.io.loadmat] *)
Variable loadmat : string -> lib_result mat_params.
(** [scipy.linalg.pinv] *)
Variable pinv : matrix -> lib_result matrix.

(** [self.prec_gammas] of [__init__] *)
Definition prec_gammas : outcome (list float) :=
  mapM (fun g =>
          a <- np_div strict (Fin 2) g ;;
          let a := Gamma a in
          let a := fmul a a in
          b <- np_div strict (Fin 1) g ;;
          let b := Gamma b in
          c <- np_div strict (Fin 3) g ;;
          let c := Gamma c in
          np_div strict a (fmul b c))
       gamma_range.

(** The steps of [aggd_features], in the order of the source. *)

(** [left_mean_sqrt] and [right_mean_sqrt] of the flattened field. *)
Definition aggd_scales (patch : list float) : float * float :=
  let imdata2 := map2 fmul patch patch in
  let left_data := np_select (map (fun x => flt x F0) patch) imdata2 in
  let right_data := np_select (map (fun x => fge x F0) patch) imdata2 in
  let left_mean_sqrt :=
    if (0 <? Z.of_nat (length left_data)) then fsqrt (np_mean left_data) else F0 in
  let right_mean_sqrt :=
    if (0 <? Z.of_nat (length right_data)) then fsqrt (np_mean right_data) else F0 in
  (left_mean_sqrt, right_mean_sqrt).

Definition aggd_gamma_hat (left_mean_sqrt right_mean_sqrt : float) : outcome float :=
  if fne right_mean_sqrt F0
  then np_div strict left_mean_sqrt right_mean_sqrt
  else Ok PInf.

Definition aggd_r_hat (patch : list float) : outcome float :=
  let imdata2 := map2 fmul patch patch in
  let imdata2_mean := np_mean imdata2 in
  if fne imdata2_mean F0
  then np_div strict (math_pow (np_mean (map fabs patch)) 2) (np_mean imdata2)
  else Ok PInf.

Definition aggd_rhat_norm (gamma_hat r_hat : float) : outcome float :=
  ratio <- py_div (fmul (fadd (math_pow gamma_hat 3) F1) (fadd gamma_hat F1))
                  (math_pow (fadd (math_pow gamma_hat 2) F1) 2) ;;
  Ok (fmul r_hat ratio).

(** The grid search: the shape whose precomputed ratio is nearest. *)
Definition aggd_alpha (rhat_norm : float) : outcome float :=
  precs <- prec_gammas ;;
  pos <- np_argmin (map (fun g => math_pow (fsub g rhat_norm) 2) precs) ;;
  py_getitem F0 gamma_range (Z.of_nat pos).

Definition aggd_features (patch : matrix) : outcome aggd_params :=
  let patch := concat patch in
  let '(left_mean_sqrt, right_mean_sqrt) := aggd_scales patch in
  gamma_hat <- aggd_gamma_hat left_mean_sqrt right_mean_sqrt ;;
  r_hat <- aggd_r_hat patch ;;
  rhat_norm <- aggd_rhat_norm gamma_hat r_hat ;;
  alpha <- aggd_alpha rhat_norm ;;
  a1 <- np_div strict (Fin 1) alpha ;;
  let gam1 := Gamma a1 in
  a2 <- np_div strict (Fin 2) alpha ;;
  let gam2 := Gamma a2 in
  a3 <- np_div strict (Fin 3) alpha ;;
  let gam3 := Gamma a3 in
  aggdratio <- np_div strict (fsqrt gam1) (fsqrt gam3) ;;
  let bl := fmul aggdratio left_mean_sqrt in
  let br := fmul aggdratio right_mean_sqrt in
  g21 <- np_div strict gam2 gam1 ;;
  let N := fmul (fsub br bl) g21 in
  Ok (alpha, N, bl, br, left_mean_sqrt, right_mean_sqrt).

Definition paired_product (new_im : matrix) : matrix * matrix * matrix * matrix :=
  let shift1 := roll_axis1 1 new_im in
  let shift2 := roll_axis0 1 new_im in
  let shift3 := roll_axis1 1 (roll_axis0 1 new_im) in
  let shift4 := roll_axis1 (-1) (roll_axis0 1 new_im) in
  let H_img := mat_map2 fmul shift1 new_im in
  let V_img := mat_map2 fmul shift2 new_im in
  let D1_img := mat_map2 fmul shift3 new_im in
  let D2_img := mat_map2 fmul shift4 new_im in
  (H_img, V_img, D1_img, D2_img).

(** [sd = np.float32(sigma)] and [np.float32(ii * ii)]: the casts are the
    identity here. *)
Definition gen_gauss_window (lw : Z) (sigma : float) : outcome (list float) :=
  let sd := sigma in
  let weights := py_repeat F0 (2 * lw + 1) in
  weights <- py_setitem weights lw F1 ;;
  let sum := F1 in
  let sd := fmul sd sd in
  '(weights, sum) <-
    for_each (py_range2 1 (lw + 1))
      (fun '(weights, sum) ii =>
         e <- np_div strict (fmul (Fin (-0.5)) (of_Z (ii * ii))) sd ;;
         let tmp := fexp e in
         weights <- py_setitem weights (lw + ii) tmp ;;
         weights <- py_setitem weights (lw - ii) tmp ;;
         Ok (weights, fadd sum (fmul (Fin 2) tmp)))
      (weights, sum) ;;
  for_each (py_range (2 * lw + 1))
    (fun weights ii =>
       w <- py_getitem F0 weights ii ;;
       w <- np_div strict w sum ;;
       py_setitem weights ii w)
    weights.

Definition compute_image_mscn_transform (img : matrix) (C : float)
    (avg_window : option (list float)) : outcome (matrix * matrix * matrix) :=
  avg_window <- match avg_window with
                | None => gen_gauss_window 3 (Fin (7 / 6))
                | Some w => Ok w
                end ;;
  mu_image <- correlate1d img avg_window 0 ;;
  mu_image <- correlate1d mu_image avg_window 1 ;;
  var_image <- correlate1d (mat_map (fun x => math_pow x 2) img) avg_window 0 ;;
  var_image <- correlate1d var_image avg_window 1 ;;
  let var_image :=
    mat_map (fun x => fsqrt (fabs x))
            (mat_map2 fsub var_image (mat_map (fun x => math_pow x 2) mu_image)) in
  mscn <- mapM (fun '(nrow, drow) =>
                  mapM (fun '(n, d) => np_div strict n d) (combine nrow drow))
               (combine (mat_map2 fsub img mu_image)
                        (mat_map (fun v => fadd v C) var_image)) ;;
  Ok (mscn, var_image, mu_image).

Definition _niqe_extract_subband_feats (mscncoefs : matrix) : outcome (list float) :=
  '(alpha_m, N, bl, br, lsq, rsq) <- aggd_features mscncoefs ;;
  let '(pps1, pps2, pps3, pps4) := paired_product mscncoefs in
  '(alpha1, N1, bl1, br1, lsq1, rsq1) <- aggd_features pps1 ;;
  '(alpha2, N2, bl2, br2, lsq2, rsq2) <- aggd_features pps2 ;;
  '(alpha3, N3, bl3, br3, lsq3, rsq3) <- aggd_features pps3 ;;
  '(alpha4, N4, bl4, br4, lsq4, rsq4) <- aggd_features pps4 ;;
  Ok [alpha_m; fdiv (fadd bl br) (Fin 2);
      alpha1; N1; bl1; br1;
      alpha2; N2; bl2; br2;
      alpha3; N3; bl3; bl3;
      alpha4; N4; bl4; bl4].

(** The tiles [img[j:j+patch_size, i:i+patch_size]] of the two nested loops. *)
Definition patch_at (img : matrix) (patch_size j i : Z) : matrix :=
  map (fun row => py_slice row i (i + patch_size)) (py_slice img j (j + patch_size)).

Definition collect_patches (img : matrix) (patch_size : Z) : outcome (list matrix) :=
  let '(h, w) := shape img in
  js <- py_range3 0 (h - patch_size + 1) patch_size ;;
  for_each js
    (fun patches j =>
       ks <- py_range3 0 (w - patch_size + 1) patch_size ;;
       for_each ks
         (fun patches i => Ok (patches ++ [patch_at img patch_size j i]))
         patches)
    [].

Definition extract_on_patches (img : matrix) (patch_size : Z) : outcome matrix :=
  patches <- collect_patches img patch_size ;;
  mapM _niqe_extract_subband_feats patches.

(** [h % patch_size]; Python raises [ZeroDivisionError] for a zero modulus. *)
Definition py_mod (a b : Z) : outcome Z :=
  if b =? 0 then Raise ZeroDivisionError else Ok (a mod b).

(** The crop of [_get_patches_generic], which makes the patch size divide
    both dimensions. *)
Definition crop_to_multiple (img : matrix) (patch_size : Z) : outcome matrix :=
  let '(h, w) := shape img in
  hoffset <- py_mod h patch_size ;;
  woffset <- py_mod w patch_size ;;
  let img := if 0 <? hoffset then py_slice img 0 (- hoffset) else img in
  let img := if 0 <? woffset then map (fun row => py_slice row 0 (- woffset)) img
             else img in
  Ok img.

(** The two feature matrices of [_get_patches_generic], before [np.hstack]. *)
Definition feats_two_scales (img : matrix) (patch_size : Z) : outcome (matrix * matrix) :=
  let '(h, w) := shape img in
  if (h <? patch_size) || (w <? patch_size) then Exit 0
  else
    img <- crop_to_multiple img patch_size ;;
    img2 <- lift (resize_half img) ;;
    '(mscn1, var, mu) <- compute_image_mscn_transform img F1 None ;;
    '(mscn2, _, _) <- compute_image_mscn_transform img2 F1 None ;;
    feats_lvl1 <- extract_on_patches mscn1 patch_size ;;
    feats_lvl2 <- extract_on_patches mscn2 (Z.quot patch_size 2) ;;
    Ok (feats_lvl1, feats_lvl2).

Definition _get_patches_generic (img : matrix) (patch_size : Z) (is_train : Z)
    (stride : Z) : outcome matrix :=
  '(feats_lvl1, feats_lvl2) <- feats_two_scales img patch_size ;;
  np_hstack feats_lvl1 feats_lvl2.

Definition get_patches_train_features (img : matrix) (patch_size : Z) : outcome matrix :=
  _get_patches_generic img patch_size 1 8.

Definition get_patches_test_features (img : matrix) (patch_size : Z) : outcome matrix :=
  _get_patches_generic img patch_size 0 8.

Definition patch_sizes : list Z := [96; 64; 48; 32; 16; 8].

Fixpoint first_fitting (candidates : list Z) (img_w img_h : Z) : Z :=
  match candidates with
  | [] => -1
  | patch_size :: rest =>
      if (patch_size * 2 + 1 <? img_w) && (patch_size * 2 + 1 <? img_h)
      then patch_size
      else first_fitting rest img_w img_h
  end.

Definition get_auto_patch_size (img_w img_h : Z) : outcome Z :=
  if (18 <=? img_w) && (18 <=? img_h)
  then Ok (first_fitting patch_sizes img_w img_h)
  else Raise AssertionError.

(** The lazy load at the head of [niqe], for a parameter file that holds
    both arrays ([Keyed.load_params] takes the file key by key). *)
Definition load_params (self : scorer) : outcome scorer :=
  match params self with
  | None =>
      p <- lift (loadmat (params_path self)) ;;
      Ok {| patch_size := patch_size self;
            params_path := params_path self;
            params := Some p;
            pop_mu := Some (concat (mat_pop_mu p));
            pop_cov := Some (mat_pop_cov p) |}
  | Some _ => Ok self
  end.

Definition to_gray (img : image) : outcome matrix :=
  match img with
  | Gray m => Ok m
  | Color m => mapM (mapM (fun px => lift (bgr2gray px))) m
  end.

Definition py_assert (b : bool) : outcome unit :=
  if b then Ok tt else Raise AssertionError.

Definition resolve_patch_size (self : scorer) (M N : Z) : outcome Z :=
  match patch_size self with
  | Auto => get_auto_patch_size N M
  | Fixed p => Ok p
  end.

(** The tail of [niqe]: the distance between the statistics of the feature
    matrix and the population statistics. *)
Definition niqe_distance (self : scorer) (feats : matrix) : outcome float :=
  let sample_mu := mean_axis0 feats in
  let sample_cov := np_cov_T feats in
  match pop_mu self, pop_cov self with
  | Some mu, Some cov =>
      X <- vec_map2 fsub sample_mu mu ;;
      s <- mat_bcast2 fadd cov sample_cov ;;
      let covmat := mat_map (fun x => fdiv x (Fin 2)) s in
      pinvmat <- lift (pinv covmat) ;;
      y <- dot_vec_mat X pinvmat ;;
      niqe_score <- dot_vec_vec y X ;;
      Ok (fsqrt niqe_score)
  | _, _ => Raise (OtherError "TypeError")
  end.

(** The body of [niqe] after the parameters are loaded. *)
Definition niqe_score (self : scorer) (img : image) : outcome float :=
  img <- to_gray img ;;
  let '(M, N) := shape img in
  patch_size <- resolve_patch_size self M N ;;
  _ <- py_assert (patch_size * 2 + 1 <? M) ;;
  _ <- py_assert (patch_size * 2 + 1 <? N) ;;
  feats <- get_patches_test_features img patch_size ;;
  niqe_distance self feats.

(** [niqe(img)]: the result of the call and the scorer it leaves behind. *)
Definition niqe (self : scorer) (img : image) : outcome float * scorer :=
  match load_params self with
  | Ok self' => (niqe_score self' img, self')
  | Raise e => (Raise e, self)
  | Exit c => (Exit c, self)
  end.

End NIQECalculator.

(** ** What is assumed of the external libraries *)

(** The gamma function is finite and positive on the positive reals. *)
Definition gamma_positive (Gamma : float -> float) : Prop :=
  forall r, (0 < r)%R -> exists g, Gamma (Fin r) = Fin g /\ (0 < g)%R.

(** OpenCV's [cvRound(n * 0.5)]: round to nearest, ties to even. *)
Definition cv_round_half (n : Z) : Z :=
  let q := n / 2 in
  if Z.even n then q else if Z.even q then q else q + 1.

(** [cv2.resize] with [fx = fy = 0.5] returns an image of
    [cvRound(h * 0.5)] rows and [cvRound(w * 0.5)] columns. *)
Definition resize_halves_shape (resize_half : matrix -> lib_result matrix) : Prop :=
  forall m h w,
    rect m -> shape m = (h, w) ->
    0 < cv_round_half h -> 0 < cv_round_half w ->
    exists m2, resize_half m = Returns m2 /\ rect m2 /\
               shape m2 = (cv_round_half h, cv_round_half w).

(** A candidate patch size fits an image when both dimensions exceed
    [2 * candidate + 1]. *)
Definition fits (c img_w img_h : Z) : Prop := c * 2 + 1 < img_w /\ c * 2 + 1 < img_h.

Definition no_exit {A : Type} (m : outcome A) : Prop := forall c, m <> Exit c.

(** ** Stand-ins for the external libraries, used to run the model on
    concrete inputs *)

Module Fixture.

Definition gamma (x : float) : float := F1.

Definition resize_half (m : matrix) : lib_result matrix :=
  let '(h, w) := shape m in
  Returns (build (Z.to_nat (cv_round_half h)) (Z.to_nat (cv_round_half w))
                 (fun i j => at0 m (2 * Z.of_nat i) (2 * Z.of_nat j))).

Definition bgr2gray (px : list float) : lib_result float := Returns (np_mean px).

Definition loadmat (path : string) : lib_result mat_params :=
  Returns {| mat_pop_mu := [repeat F0 36];
             mat_pop_cov := build 36 36 (fun i j => if Nat.eqb i j then F1 else F0) |}.

(** Returns the identity matrix of the size of its argument. *)
Definition pinv (m : matrix) : lib_result matrix :=
  Returns (build (length m) (length m) (fun i j => if Nat.eqb i j then F1 else F0)).

(** An all-zero [h x w] image. *)
Definition zeros (h w : nat) : matrix := build h w (fun _ _ => F0).

End Fixture.

Lemma no_exit_ok {A} (a : A) : no_exit (Ok a).
Proof. intros c; discriminate. Qed.

Lemma no_exit_raise {A} e : no_exit (@Raise A e).
Proof. intros c; discriminate. Qed.

Lemma no_exit_bind {A B} (m : outcome A) (k : A -> outcome B) :
  no_exit m -> (forall a, m = Ok a -> no_exit (k a)) -> no_exit (bind m k).
Proof.
  intros Hm Hk c. destruct m as [a|e|c0]; simpl.
  - now apply Hk.
  - discriminate.
  - now destruct (Hm c0).
Qed.

Lemma no_exit_lift {A} (r : lib_result A) : no_exit (lift r).
Proof. destruct r; intros c; discriminate. Qed.

Lemma no_exit_mapM {A B} (f : A -> outcome B) l :
  (forall a, In a l -> no_exit (f a)) -> no_exit (mapM f l).
Proof.
  induction l as [|a l IH]; simpl; intros H; [apply no_exit_ok|].
  apply no_exit_bind; [apply H; now left|]. intros b _.
  apply no_exit_bind; [apply IH; intros; apply H; now right|].
  intros; apply no_exit_ok.
Qed.

Lemma no_exit_for_each {A S} (l : list A) (body : S -> A -> outcome S) s :
  (forall s a, In a l -> no_exit (body s a)) -> no_exit (for_each l body s).
Proof.
  revert s; induction l as [|a l IH]; simpl; intros s H; [apply no_exit_ok|].
  apply no_exit_bind; [apply H; now left|]. intros s' _.
  apply IH. intros; apply H; now right.
Qed.

Lemma no_exit_np_div strict x y : no_exit (np_div strict x y).
Proof. unfold np_div. destruct (feq y F0 && strict); intros c; discriminate. Qed.

Lemma no_exit_py_div x y : no_exit (py_div x y).
Proof. unfold py_div. destruct (feq y F0); intros c; discriminate. Qed.

Lemma no_exit_getitem {A} (d : A) l i : no_exit (py_getitem d l i).
Proof. unfold py_getitem. destruct (norm_index l i); intros c; discriminate. Qed.

Lemma no_exit_setitem {A} (l : list A) i v : no_exit (py_setitem l i v).
Proof. unfold py_setitem. destruct (norm_index l i); intros c; discriminate. Qed.

Ltac no_exit_step :=
  match goal with
  | |- no_exit (Ok _) => apply no_exit_ok
  | |- no_exit (Raise _) => apply no_exit_raise
  | |- no_exit (lift _) => apply no_exit_lift
  | |- no_exit (np_div _ _ _) => apply no_exit_np_div
  | |- no_exit (py_div _ _) => apply no_exit_py_div
  | |- no_exit (py_getitem _ _ _) => apply no_exit_getitem
  | |- no_exit (py_setitem _ _ _) => apply no_exit_setitem
  | |- no_exit (bind _ _) => apply no_exit_bind; [|intros ? _]
  | |- no_exit (mapM _ _) => apply no_exit_mapM; intros ? _
  | |- no_exit (for_each _ _ _) => apply no_exit_for_each; intros ? ? _
  | |- no_exit (if ?b then _ else _) => destruct b
  | |- no_exit (match ?x with _ => _ end) => destruct x
  | |- no_exit (let '(_, _) := ?x in _) => destruct x
  | |- no_exit ((match ?x with _ => _ end) _) => destruct x; cbv beta
  end.

Ltac no_exit_tac := repeat no_exit_step.

Lemma no_exit_prec_gammas strict Gamma : no_exit (prec_gammas strict Gamma).
Proof. unfold prec_gammas. no_exit_tac. Qed.

Lemma no_exit_argmin l : no_exit (np_argmin l).
Proof. unfold np_argmin. no_exit_tac. Qed.

Lemma no_exit_aggd strict Gamma patch : no_exit (aggd_features strict Gamma patch).
Proof.
  unfold aggd_features, aggd_gamma_hat, aggd_r_hat, aggd_rhat_norm, aggd_alpha.
  cbv zeta. destruct (aggd_scales (concat patch)) as [l r].
  repeat first [apply no_exit_prec_gammas | apply no_exit_argmin | no_exit_step].
Qed.

Lemma no_exit_subband strict Gamma m : no_exit (_niqe_extract_subband_feats strict Gamma m).
Proof.
  unfold _niqe_extract_subband_feats.
  destruct (paired_product m) as [[[p1 p2] p3] p4].
  repeat (apply no_exit_bind; [apply no_exit_aggd|intros [[[[[? ?] ?] ?] ?] ?] _]).
  apply no_exit_ok.
Qed.

Lemma no_exit_range3 a b c : no_exit (py_range3 a b c).
Proof. unfold py_range3. no_exit_tac. Qed.

Lemma no_exit_collect img p : no_exit (collect_patches img p).
Proof.
  unfold collect_patches. destruct (shape img) as [h w].
  repeat first [apply no_exit_range3 | no_exit_step].
Qed.

Lemma no_exit_extract strict Gamma img p : no_exit (extract_on_patches strict Gamma img p).
Proof.
  unfold extract_on_patches.
  repeat first [apply no_exit_collect | apply no_exit_subband | no_exit_step].
Qed.

Lemma no_exit_gauss strict lw sigma : no_exit (gen_gauss_window strict lw sigma).
Proof. unfold gen_gauss_window. no_exit_tac. Qed.

Lemma no_exit_correlate input w axis : no_exit (correlate1d input w axis).
Proof. unfold correlate1d. no_exit_tac. Qed.

Lemma no_exit_mscn strict img C w : no_exit (compute_image_mscn_transform strict img C w).
Proof.
  unfold compute_image_mscn_transform.
  repeat first [apply no_exit_gauss | apply no_exit_correlate | no_exit_step].
Qed.

Lemma no_exit_py_mod a b : no_exit (py_mod a b).
Proof. unfold py_mod. no_exit_tac. Qed.

Lemma no_exit_crop img p : no_exit (crop_to_multiple img p).
Proof.
  unfold crop_to_multiple. destruct (shape img).
  repeat first [apply no_exit_py_mod | no_exit_step].
Qed.

Lemma no_exit_hstack a b : no_exit (np_hstack a b).
Proof. unfold np_hstack. no_exit_tac. Qed.

Lemma no_exit_assert b : no_exit (py_assert b).
Proof. unfold py_assert. no_exit_tac. Qed.

Lemma no_exit_auto w h : no_exit (get_auto_patch_size w h).
Proof. unfold get_auto_patch_size. no_exit_tac. Qed.

Lemma no_exit_to_gray bgr2gray img : no_exit (to_gray bgr2gray img).
Proof. unfold to_gray. no_exit_tac. Qed.

Lemma no_exit_load loadmat self : no_exit (load_params loadmat self).
Proof. unfold load_params. no_exit_tac. Qed.

(** * Monadic code that returns *)

Lemma bind_ok {A B} (m : outcome A) (k : A -> outcome B) a :
  m = Ok a -> bind m k = k a.
Proof. intros ->. reflexivity. Qed.

Lemma bind_ok_inv {A B} (m : outcome A) (k : A -> outcome B) b :
  bind m k = Ok b -> exists a, m = Ok a /\ k a = Ok b.
Proof. destruct m as [a|e|c]; simpl; intros H; [now exists a|discriminate..]. Qed.

Lemma mapM_ok {A B} (f : A -> outcome B) l :
  (forall a, In a l -> is_ok (f a)) ->
  exists r, mapM f l = Ok r /\ Forall2 (fun a b => f a = Ok b) l r.
Proof.
  induction l as [|a l IH]; simpl; intros H.
  - exists []. split; [reflexivity|constructor].
  - destruct (H a (or_introl eq_refl)) as [b Hb].
    destruct IH as [r [Hr Hall]]; [intros; apply H; now right|].
    exists (b :: r). rewrite Hb, Hr. simpl. split; [reflexivity|now constructor].
Qed.

Lemma mapM_ok_inv {A B} (f : A -> outcome B) l r :
  mapM f l = Ok r -> Forall2 (fun a b => f a = Ok b) l r.
Proof.
  revert r; induction l as [|a l IH]; simpl; intros r H.
  - inversion H. constructor.
  - apply bind_ok_inv in H as [b [Hb H]].
    apply bind_ok_inv in H as [r' [Hr' H]]. inversion H; subst.
    constructor; [assumption|now apply IH].
Qed.

Lemma Forall2_length_eq {A B} (P : A -> B -> Prop) l r :
  Forall2 P l r -> length r = length l.
Proof. induction 1; simpl; congruence. Qed.

Lemma mapM_length {A B} (f : A -> outcome B) l r :
  mapM f l = Ok r -> length r = length l.
Proof. intros H. apply mapM_ok_inv in H. eapply Forall2_length_eq; eassumption. Qed.

(** * Arithmetic on floating-point values *)

Lemma feq_fin_false r : r <> 0%R -> feq (Fin r) F0 = false.
Proof. intros H. unfold feq, F0. destruct (Req_dec_T r 0); [contradiction|reflexivity]. Qed.

Lemma feq_fin_zero : feq F0 F0 = true.
Proof. unfold feq, F0. destruct (Req_dec_T 0 0); [reflexivity|contradiction]. Qed.

Lemma feq_F0_true x : feq x F0 = true -> x = F0.
Proof.
  destruct x; simpl; try discriminate.
  unfold F0. destruct (Req_dec_T r 0); [now subst|discriminate].
Qed.

Lemma np_div_ok strict x y : feq y F0 = false -> np_div strict x y = Ok (fdiv x y).
Proof. intros H. unfold np_div. now rewrite H. Qed.

Lemma py_div_ok x y : feq y F0 = false -> py_div x y = Ok (fdiv x y).
Proof. intros H. unfold py_div. now rewrite H. Qed.

Lemma fdiv_fin a b : b <> 0%R -> fdiv (Fin a) (Fin b) = Fin (a / b).
Proof. intros H. simpl. destruct (Req_dec_T b 0); [contradiction|reflexivity]. Qed.

Lemma np_div_fin strict a b :
  b <> 0%R -> np_div strict (Fin a) (Fin b) = Ok (Fin (a / b)).
Proof. intros H. rewrite np_div_ok by now apply feq_fin_false. now rewrite fdiv_fin. Qed.

Lemma fsqrt_fin_pos r : (0 < r)%R -> fsqrt (Fin r) = Fin (sqrt r) /\ (0 < sqrt r)%R.
Proof.
  intros H. simpl. destruct (Rlt_dec r 0); [lra|]. split; [reflexivity|now apply sqrt_lt_R0].
Qed.

(** The denominator of the normalisation, [(gamma_hat^2 + 1)^2], is never zero. *)
Lemma rhat_denominator_nonzero g :
  feq (math_pow (fadd (math_pow g 2) F1) 2) F0 = false.
Proof.
  destruct g as [a| | |]; simpl; try reflexivity.
  apply feq_fin_false. nra.
Qed.

(** * The shape grid *)

Lemma gamma_range_len_val : INR gamma_range_len = 9800%R.
Proof. unfold gamma_range_len. rewrite INR_IZR_INZ, Z2Nat.id by lia. reflexivity. Qed.

Lemma gamma_range_length : length gamma_range = gamma_range_len.
Proof. unfold gamma_range. now rewrite length_map, length_seq. Qed.

Lemma gamma_range_nth i :
  (i < gamma_range_len)%nat ->
  nth i gamma_range F0 = Fin (2 / 10 + INR i * (1 / 1000)).
Proof.
  intros H. unfold gamma_range.
  rewrite (nth_indep _ F0 (Fin (2 / 10 + INR 0 * (1 / 1000)))) by
    now rewrite length_map, length_seq.
  rewrite (map_nth (fun i => Fin (2 / 10 + INR i * (1 / 1000)))).
  now rewrite seq_nth.
Qed.

Lemma gamma_range_In g :
  In g gamma_range -> exists r, g = Fin r /\ (2 / 10 <= r < 10)%R.
Proof.
  unfold gamma_range. rewrite in_map_iff. intros [i [<- Hi]].
  apply in_seq in Hi. eexists; split; [reflexivity|].
  assert (0 <= INR i)%R by apply pos_INR.
  assert (INR i <= 9799)%R.
  { assert (Z.of_nat i <= 9799) as Hle by (unfold gamma_range_len in Hi; lia).
    rewrite INR_IZR_INZ. now apply IZR_le. }
  lra.
Qed.

(** * The AGGD fitter *)

Lemma argmin_loop_bound l i mp mi :
  (mi < i)%nat -> (argmin_loop l i mp mi < i + length l)%nat.
Proof.
  revert i mp mi; induction l as [|x l IH]; simpl; intros i mp mi H; [lia|].
  destruct (negb (fge x mp)).
  - destruct (is_nan x); [lia|].
    specialize (IH (S i) x i). lia.
  - specialize (IH (S i) mp mi). lia.
Qed.

Lemma np_argmin_ok l :
  l <> [] -> exists pos, np_argmin l = Ok pos /\ (pos < length l)%nat.
Proof.
  destruct l as [|x t]; [congruence|]. intros _. simpl.
  destruct (is_nan x).
  - exists O. split; [reflexivity|lia].
  - eexists; split; [reflexivity|].
    pose proof (argmin_loop_bound t 1 x 0). lia.
Qed.

Lemma np_argmin_nan t : np_argmin (NaN :: t) = Ok O.
Proof. reflexivity. Qed.

Lemma py_getitem_nat {A} (d : A) l k :
  (k < length l)%nat -> py_getitem d l (Z.of_nat k) = Ok (nth k l d).
Proof.
  intros H. unfold py_getitem, norm_index.
  replace ((0 <=? Z.of_nat k) && (Z.of_nat k <? Z.of_nat (length l))) with true
    by (symmetry; apply andb_true_intro; split; lia).
  now rewrite Nat2Z.id.
Qed.

Lemma fsub_nan x : fsub x NaN = NaN.
Proof. now destruct x. Qed.

Lemma fmul_nan_r x : fmul x NaN = NaN.
Proof. now destruct x. Qed.

Section Fitter.

Variable strict : bool.
Variable Gamma : float -> float.
Hypothesis Gamma_pos : gamma_positive Gamma.

Lemma gamma_at a k :
  (0 < a)%R -> (0 < k)%R ->
  exists g, np_div strict (Fin k) (Fin a) = Ok (Fin (k / a)) /\
            Gamma (Fin (k / a)) = Fin g /\ (0 < g)%R.
Proof.
  intros Ha Hk.
  assert (0 < k / a)%R by now apply Rdiv_lt_0_compat.
  destruct (Gamma_pos _ H) as [g [Hg Hpos]].
  exists g. split; [apply np_div_fin; lra|]. now split.
Qed.

Lemma prec_gammas_ok :
  exists precs, prec_gammas strict Gamma = Ok precs /\ length precs = gamma_range_len.
Proof.
  unfold prec_gammas.
  match goal with |- context [mapM ?f _] =>
    destruct (mapM_ok f gamma_range) as [r [Hr Hall]] end.
  - intros g Hin. apply gamma_range_In in Hin as [a [-> Ha]].
    destruct (gamma_at a 2) as [g2 [E2 [G2 P2]]]; [lra..|].
    destruct (gamma_at a 1) as [g1 [E1 [G1 P1]]]; [lra..|].
    destruct (gamma_at a 3) as [g3 [E3 [G3 P3]]]; [lra..|].
    rewrite E2, E1, E3. cbn [bind]. rewrite G2, G1, G3. cbn [fmul].
    rewrite np_div_fin by nra. eexists; reflexivity.
  - exists r. split; [assumption|].
    rewrite (Forall2_length_eq _ _ _ Hall). apply gamma_range_length.
Qed.

Lemma gamma_range_len_pos : (0 < gamma_range_len)%nat.
Proof. unfold gamma_range_len. lia. Qed.

(** The grid search returns a grid entry, whatever ratio it is given. *)
Lemma aggd_alpha_ok rhat_norm :
  exists a, aggd_alpha strict Gamma rhat_norm = Ok (Fin a) /\
            In (Fin a) gamma_range /\ (2 / 10 <= a < 10)%R.
Proof.
  unfold aggd_alpha. destruct prec_gammas_ok as [precs [-> Hlen]]. cbn [bind].
  pose proof gamma_range_len_pos as Hpos.
  destruct (np_argmin_ok (map (fun g => math_pow (fsub g rhat_norm) 2) precs))
    as [pos [-> Hlt]].
  { destruct precs; [|discriminate]. cbn [length] in Hlen. rewrite <- Hlen in Hpos. lia. }
  cbn [bind]. rewrite length_map, Hlen in Hlt.
  rewrite py_getitem_nat by now rewrite gamma_range_length.
  assert (Hin : In (nth pos gamma_range F0) gamma_range).
  { apply nth_In. now rewrite gamma_range_length. }
  destruct (gamma_range_In _ Hin) as [a [Ea Ha]].
  exists a. rewrite Ea in Hin |- *. split; [reflexivity|]. split; assumption.
Qed.

(** On a NaN ratio the search stops at the first grid entry. *)
Lemma aggd_alpha_nan : aggd_alpha strict Gamma NaN = Ok (Fin (2 / 10)).
Proof.
  unfold aggd_alpha. destruct prec_gammas_ok as [precs [-> Hlen]]. cbn [bind].
  pose proof gamma_range_len_pos as Hpos.
  destruct precs as [|g precs]; [cbn [length] in Hlen; rewrite <- Hlen in Hpos; lia|].
  cbn [map]. rewrite fsub_nan. cbn [math_pow fmul bind np_argmin is_nan].
  rewrite (py_getitem_nat F0 gamma_range 0) by now rewrite gamma_range_length.
  rewrite gamma_range_nth by assumption.
  simpl INR. f_equal. f_equal. lra.
Qed.

Lemma aggd_gamma_hat_ok l r : is_ok (aggd_gamma_hat strict l r).
Proof.
  unfold aggd_gamma_hat, fne. destruct (feq r F0) eqn:E; simpl.
  - now exists PInf.
  - rewrite np_div_ok by assumption. eexists; reflexivity.
Qed.

Lemma aggd_r_hat_ok patch : is_ok (aggd_r_hat strict patch).
Proof.
  unfold aggd_r_hat, fne. cbv zeta.
  destruct (feq (np_mean (map2 fmul patch patch)) F0) eqn:E; simpl.
  - now exists PInf.
  - rewrite np_div_ok by assumption. eexists; reflexivity.
Qed.

Lemma aggd_rhat_norm_ok g r :
  aggd_rhat_norm g r =
  Ok (fmul r (fdiv (fmul (fadd (math_pow g 3) F1) (fadd g F1))
                   (math_pow (fadd (math_pow g 2) F1) 2))).
Proof.
  unfold aggd_rhat_norm. now rewrite py_div_ok by apply rhat_denominator_nonzero.
Qed.

(** The fit returns, in either error state, with a shape from the grid. *)
Lemma aggd_features_ok patch :
  exists a N bl br,
    aggd_features strict Gamma patch =
      Ok (Fin a, N, bl, br, fst (aggd_scales (concat patch)),
          snd (aggd_scales (concat patch))) /\
    In (Fin a) gamma_range /\ (2 / 10 <= a < 10)%R.
Proof.
  unfold aggd_features. cbv zeta.
  destruct (aggd_scales (concat patch)) as [lms rms]. cbn [fst snd].
  destruct (aggd_gamma_hat_ok lms rms) as [gh ->].
  destruct (aggd_r_hat_ok (concat patch)) as [rh ->]. cbn [bind].
  rewrite aggd_rhat_norm_ok. cbn [bind].
  match goal with |- context [aggd_alpha _ _ ?x] =>
    destruct (aggd_alpha_ok x) as [a [-> [Hin Ha]]] end.
  cbn [bind].
  destruct (gamma_at a 1) as [g1 [E1 [G1 P1]]]; [lra..|].
  destruct (gamma_at a 2) as [g2 [E2 [G2 P2]]]; [lra..|].
  destruct (gamma_at a 3) as [g3 [E3 [G3 P3]]]; [lra..|].
  rewrite E1, E2, E3. cbn [bind]. rewrite G1, G2, G3.
  destruct (fsqrt_fin_pos g1 P1) as [S1 Q1].
  destruct (fsqrt_fin_pos g3 P3) as [S3 Q3].
  rewrite S1, S3. rewrite np_div_fin by lra. cbn [bind].
  rewrite np_div_fin by lra. cbn [bind].
  do 4 eexists. split; [reflexivity|]. split; assumption.
Qed.

End Fitter.

Lemma gamma_positive_fixture : gamma_positive Fixture.gamma.
Proof. intros r _. exists 1%R. split; [reflexivity|lra]. Qed.


(** * The fitter with its range and layout checks *)

(** [aggd_features] computes in exact arithmetic on the entries of a list.
    Two error paths of the source lie outside that: [math.pow] raises
    [OverflowError] when finite operands give a result beyond the largest
    double, and the in-place flattening [patch.shape = (len(patch.flat),)]
    raises [AttributeError] on an array that NumPy cannot flatten without a
    copy (a transposed or strided view; a fresh array or a [copy()] can always
    be flattened).  The module [Checked] is the fitter with both checks. *)

Module Checked.

(** The largest finite double, (2^53 - 1) * 2^971. *)
Definition DBL_MAX : R := IZR ((2 ^ 53 - 1) * 2 ^ 971).

(** [math.pow(x, n)]: a finite result out of range is an [OverflowError];
    infinities and NaN pass through. *)
Definition math_pow (x : float) (n : nat) : outcome float :=
  match math_pow x n with
  | Fin r =>
      if Rlt_dec DBL_MAX (Rabs r) then Raise (OtherError "OverflowError")
      else Ok (Fin r)
  | v => Ok v
  end.

(** Line 51, the three calls of [math.pow] in the order Python makes them. *)
Definition aggd_rhat_norm (gamma_hat r_hat : float) : outcome float :=
  p3 <- math_pow gamma_hat 3 ;;
  p2 <- math_pow gamma_hat 2 ;;
  d <- math_pow (fadd p2 F1) 2 ;;
  ratio <- py_div (fmul (fadd p3 F1) (fadd gamma_hat F1)) d ;;
  Ok (fmul r_hat ratio).

Section Fitter.

Variable strict : bool.
Variable Gamma : float -> float.

(** [flattens] says whether NumPy can flatten the array in place. *)
Definition aggd_features (flattens : bool) (patch : matrix) : outcome aggd_params :=
  if flattens then
    let patch := concat patch in
    let '(left_mean_sqrt, right_mean_sqrt) := aggd_scales patch in
    gamma_hat <- aggd_gamma_hat strict left_mean_sqrt right_mean_sqrt ;;
    r_hat <- aggd_r_hat strict patch ;;
    rhat_norm <- aggd_rhat_norm gamma_hat r_hat ;;
    alpha <- aggd_alpha strict Gamma rhat_norm ;;
    a1 <- np_div strict (Fin 1) alpha ;;
    let gam1 := Gamma a1 in
    a2 <- np_div strict (Fin 2) alpha ;;
    let gam2 := Gamma a2 in
    a3 <- np_div strict (Fin 3) alpha ;;
    let gam3 := Gamma a3 in
    aggdratio <- np_div strict (fsqrt gam1) (fsqrt gam3) ;;
    let bl := fmul aggdratio left_mean_sqrt in
    let br := fmul aggdratio right_mean_sqrt in
    g21 <- np_div strict gam2 gam1 ;;
    let N := fmul (fsub br bl) g21 in
    Ok (alpha, N, bl, br, left_mean_sqrt, right_mean_sqrt)
  else Raise (OtherError "AttributeError").

End Fitter.

End Checked.

(** A scale ratio for which no call of [math.pow] in line 51 leaves the range
    of the doubles: infinite, NaN, or at most 10^76 in absolute value (the
    fourth power of a larger ratio does not fit). *)
Definition in_pow_range (gamma_hat : float) : Prop :=
  match gamma_hat with
  | Fin g => (Rabs g <= IZR (10 ^ 76))%R
  | _ => True
  end.

Lemma checked_pow_inv x n v : Checked.math_pow x n = Ok v -> v = math_pow x n.
Proof.
  unfold Checked.math_pow. destruct (math_pow x n) as [r| | |].
  - destruct (Rlt_dec Checked.DBL_MAX (Rabs r)); congruence.
  - congruence.
  - congruence.
  - congruence.
Qed.

Lemma checked_pow_raises x n e :
  Checked.math_pow x n = Raise e -> e = OtherError "OverflowError".
Proof.
  unfold Checked.math_pow. destruct (math_pow x n) as [r| | |].
  - destruct (Rlt_dec Checked.DBL_MAX (Rabs r)); congruence.
  - congruence.
  - congruence.
  - congruence.
Qed.

Lemma checked_pow_no_exit x n c : Checked.math_pow x n <> Exit c.
Proof.
  unfold Checked.math_pow. destruct (math_pow x n) as [r| | |].
  - destruct (Rlt_dec Checked.DBL_MAX (Rabs r)); congruence.
  - congruence.
  - congruence.
  - congruence.
Qed.

Lemma checked_pow_fin x n r :
  math_pow x n = Fin r -> (Rabs r <= Checked.DBL_MAX)%R ->
  Checked.math_pow x n = Ok (Fin r).
Proof.
  intros E H. unfold Checked.math_pow. rewrite E.
  destruct (Rlt_dec Checked.DBL_MAX (Rabs r)); [lra|reflexivity].
Qed.

Lemma checked_pow_overflow x n r :
  math_pow x n = Fin r -> (Checked.DBL_MAX < Rabs r)%R ->
  Checked.math_pow x n = Raise (OtherError "OverflowError").
Proof.
  intros E H. unfold Checked.math_pow. rewrite E.
  destruct (Rlt_dec Checked.DBL_MAX (Rabs r)); [reflexivity|lra].
Qed.

Lemma cube_in_range : (IZR (10 ^ 76) * (IZR (10 ^ 76) * IZR (10 ^ 76)) <= Checked.DBL_MAX)%R.
Proof.
  unfold Checked.DBL_MAX. rewrite <- !mult_IZR. apply IZR_le.
  apply Z.leb_le. vm_compute. reflexivity.
Qed.

Lemma fourth_in_range :
  ((IZR (10 ^ 76) * IZR (10 ^ 76) + 1) * (IZR (10 ^ 76) * IZR (10 ^ 76) + 1)
     <= Checked.DBL_MAX)%R.
Proof.
  unfold Checked.DBL_MAX. rewrite <- !mult_IZR, <- plus_IZR, <- mult_IZR.
  apply IZR_le. apply Z.leb_le. vm_compute. reflexivity.
Qed.

(** Within the range the checked ratio is the exact one. *)
Lemma checked_rhat_norm_agrees g r :
  in_pow_range g -> Checked.aggd_rhat_norm g r = aggd_rhat_norm g r.
Proof.
  intros Hg. unfold Checked.aggd_rhat_norm, aggd_rhat_norm.
  destruct g as [x| | |]; try reflexivity.
  cbn [in_pow_range] in Hg.
  set (B := IZR (10 ^ 76)) in *.
  assert (HB : (0 <= B)%R) by (pose proof (Rabs_pos x); lra).
  assert (H2 : (Rabs x * Rabs x <= B * B)%R)
    by (apply Rmult_le_compat; try apply Rabs_pos; assumption).
  assert (H3 : (Rabs x * (Rabs x * Rabs x) <= B * (B * B))%R).
  { apply Rmult_le_compat; try apply Rabs_pos; try assumption.
    apply Rmult_le_pos; apply Rabs_pos. }
  pose proof cube_in_range as C3. pose proof fourth_in_range as C4. fold B in C3, C4.
  rewrite (checked_pow_fin (Fin x) 3 (x * (x * x))); [|reflexivity|].
  2:{ rewrite !Rabs_mult. lra. }
  cbn [bind].
  rewrite (checked_pow_fin (Fin x) 2 (x * x)); [|reflexivity|].
  2:{ rewrite Rabs_mult. pose proof (Rabs_pos x).
      assert (B * B <= B * (B * B) \/ B * (B * B) <= B * B)%R by lra.
      assert (0 <= B * B)%R by (apply Rmult_le_pos; assumption). nra. }
  cbn [bind].
  rewrite (checked_pow_fin (fadd (Fin (x * x)) F1) 2 ((x * x + 1) * (x * x + 1)));
    [reflexivity|reflexivity|].
  assert (E : (x * x = Rabs x * Rabs x)%R).
  { unfold Rabs. destruct (Rcase_abs x); ring. }
  rewrite E. rewrite Rabs_mult.
  assert (0 <= Rabs x * Rabs x)%R by (apply Rmult_le_pos; apply Rabs_pos).
  rewrite (Rabs_pos_eq (Rabs x * Rabs x + 1)) by lra.
  eapply Rle_trans; [|exact C4].
  apply Rmult_le_compat; lra.
Qed.

(** What the checked ratio returns is the value of the formula of line 51;
    what it raises is the range error, never a division by zero. *)
Lemma checked_rhat_norm_value g r x :
  Checked.aggd_rhat_norm g r = Ok x ->
  x = fmul r (fdiv (fmul (fadd (math_pow g 3) F1) (fadd g F1))
                   (math_pow (fadd (math_pow g 2) F1) 2)).
Proof.
  unfold Checked.aggd_rhat_norm. intros E.
  destruct (Checked.math_pow g 3) as [p3|e|c] eqn:E3; [|discriminate..].
  apply checked_pow_inv in E3. cbn [bind] in E.
  destruct (Checked.math_pow g 2) as [p2|e|c] eqn:E2; [|discriminate..].
  apply checked_pow_inv in E2. cbn [bind] in E.
  destruct (Checked.math_pow (fadd p2 F1) 2) as [d|e|c] eqn:Ed; [|discriminate..].
  apply checked_pow_inv in Ed. cbn [bind] in E. subst p3 p2 d.
  rewrite py_div_ok in E by apply rhat_denominator_nonzero.
  cbn [bind] in E. congruence.
Qed.

Lemma checked_rhat_norm_raises g r e :
  Checked.aggd_rhat_norm g r = Raise e -> e = OtherError "OverflowError".
Proof.
  unfold Checked.aggd_rhat_norm. intros E.
  destruct (Checked.math_pow g 3) as [p3|e3|c] eqn:E3; cbn [bind] in E;
    [|inversion E; subst; eapply checked_pow_raises; eassumption|discriminate].
  apply checked_pow_inv in E3.
  destruct (Checked.math_pow g 2) as [p2|e2|c] eqn:E2; cbn [bind] in E;
    [|inversion E; subst; eapply checked_pow_raises; eassumption|discriminate].
  apply checked_pow_inv in E2.
  destruct (Checked.math_pow (fadd p2 F1) 2) as [d|e2|c] eqn:Ed; cbn [bind] in E;
    [|inversion E; subst; eapply checked_pow_raises; eassumption|discriminate].
  apply checked_pow_inv in Ed. subst p3 p2 d.
  rewrite py_div_ok in E by apply rhat_denominator_nonzero.
  discriminate.
Qed.

Lemma checked_rhat_norm_inf r : Checked.aggd_rhat_norm PInf r = Ok NaN.
Proof.
  destruct r; reflexivity.
Qed.

(** On a field that NumPy flattens in place and whose scale ratio is in
    range, the checked fitter is the exact one. *)
Lemma checked_features_agree strict Gamma patch :
  (forall g, aggd_gamma_hat strict (fst (aggd_scales (concat patch)))
                                   (snd (aggd_scales (concat patch))) = Ok g ->
             in_pow_range g) ->
  Checked.aggd_features strict Gamma true patch = aggd_features strict Gamma patch.
Proof.
  intros Hg. unfold Checked.aggd_features, aggd_features. cbv zeta.
  destruct (aggd_scales (concat patch)) as [l r]. cbn [fst snd] in Hg.
  destruct (aggd_gamma_hat strict l r) as [g|e|c]; [|reflexivity..].
  cbn [bind]. destruct (aggd_r_hat strict (concat patch)) as [rh|e|c]; [|reflexivity..].
  cbn [bind]. now rewrite checked_rhat_norm_agrees by now apply Hg.
Qed.

(** * The Gaussian window *)

(** Sum of a list of reals, the exact value of [fsum] on finite entries. *)
Definition rsum (l : list R) : R := fold_right Rplus 0%R l.

Lemma fsum_fin_from l a : fold_left fadd (map Fin l) (Fin a) = Fin (a + rsum l).
Proof.
  revert a; induction l as [|x l IH]; intros a; simpl.
  - f_equal. lra.
  - rewrite IH. f_equal. lra.
Qed.

Lemma fsum_fin l : fsum (map Fin l) = Fin (rsum l).
Proof. unfold fsum, F0. rewrite fsum_fin_from. f_equal. lra. Qed.

Lemma rsum_app l l' : rsum (l ++ l') = (rsum l + rsum l')%R.
Proof. induction l as [|x l IH]; simpl; [lra|rewrite IH; lra]. Qed.

Lemma rsum_rev l : rsum (rev l) = rsum l.
Proof. induction l as [|x l IH]; simpl; [reflexivity|]. rewrite rsum_app, IH. simpl. lra. Qed.

Lemma rsum_scale (c : R) l : rsum (map (fun x => x / c)%R l) = (rsum l / c)%R.
Proof. induction l as [|x l IH]; simpl; [|rewrite IH]; unfold Rdiv; ring. Qed.

Lemma rsum_nonneg l : (forall x, In x l -> 0 < x)%R -> (0 <= rsum l)%R.
Proof.
  induction l as [|x l IH]; simpl; intros H; [lra|].
  assert (0 < x)%R by (apply H; now left).
  assert (0 <= rsum l)%R by (apply IH; intros; apply H; now right). lra.
Qed.

(** Updates of Python lists at natural indices. *)
Lemma py_setitem_nat {A} (l : list A) k v :
  (k < length l)%nat -> py_setitem l (Z.of_nat k) v = Ok (set_nth l k v).
Proof.
  intros H. unfold py_setitem, norm_index.
  replace ((0 <=? Z.of_nat k) && (Z.of_nat k <? Z.of_nat (length l))) with true
    by (symmetry; apply andb_true_intro; split; lia).
  now rewrite Nat2Z.id.
Qed.

Lemma py_getitem_nat' {A} (d : A) l k :
  (k < length l)%nat -> py_getitem d l (Z.of_nat k) = Ok (nth k l d).
Proof.
  intros H. unfold py_getitem, norm_index.
  replace ((0 <=? Z.of_nat k) && (Z.of_nat k <? Z.of_nat (length l))) with true
    by (symmetry; apply andb_true_intro; split; lia).
  now rewrite Nat2Z.id.
Qed.

Lemma set_nth_app {A} (l1 l2 : list A) x v :
  set_nth (l1 ++ x :: l2) (length l1) v = l1 ++ v :: l2.
Proof. induction l1 as [|a l1 IH]; simpl; [reflexivity|now rewrite IH]. Qed.

Lemma set_nth_length {A} (l : list A) k v : length (set_nth l k v) = length l.
Proof. revert k; induction l as [|a l IH]; intros [|k]; simpl; auto. Qed.

Lemma set_nth_app_l {A} (l1 l2 : list A) k v :
  (k < length l1)%nat -> set_nth (l1 ++ l2) k v = set_nth l1 k v ++ l2.
Proof.
  revert k; induction l1 as [|a l1 IH]; intros [|k] H; simpl in *; try lia;
    try reflexivity.
  rewrite IH by lia. reflexivity.
Qed.

Lemma set_nth_app_r {A} (l1 l2 : list A) k v :
  set_nth (l1 ++ l2) (length l1 + k) v = l1 ++ set_nth l2 k v.
Proof. induction l1 as [|a l1 IH]; simpl; [reflexivity|now rewrite IH]. Qed.

Lemma set_nth_map_fin l k v : set_nth (map Fin l) k (Fin v) = map Fin (set_nth l k v).
Proof.
  revert k; induction l as [|a l IH]; intros [|k]; simpl; try reflexivity.
  now rewrite IH.
Qed.

Lemma repeat_snoc {A} (x : A) n : repeat x (S n) = repeat x n ++ [x].
Proof. induction n as [|n IH]; simpl; [reflexivity|]. simpl in IH. now rewrite <- IH. Qed.

(** A loop that rewrites every entry of a list in place maps over it. *)
Lemma inplace_map_from {A} (d : A) (f : A -> outcome A) (g : A -> A) todo :
  (forall x, In x todo -> f x = Ok (g x)) ->
  forall done,
  for_each (map (fun k => 0 + Z.of_nat k) (seq (length done) (length todo)))
    (fun weights ii =>
       w <- py_getitem d weights ii ;; w <- f w ;; py_setitem weights ii w)
    (done ++ todo)
  = Ok (done ++ map g todo).
Proof.
  induction todo as [|x todo IH]; intros Hf done; simpl.
  - reflexivity.
  - rewrite py_getitem_nat' by (rewrite length_app; simpl; lia).
    rewrite app_nth2, Nat.sub_diag by lia. cbn [nth bind].
    rewrite Hf by now left. cbn [bind].
    rewrite py_setitem_nat by (rewrite length_app; simpl; lia).
    rewrite set_nth_app. cbn [bind].
    specialize (IH (fun y Hy => Hf y (or_intror Hy)) (done ++ [g x])).
    rewrite length_app in IH. simpl in IH.
    replace (length done + 1)%nat with (S (length done)) in IH by lia.
    rewrite <- !app_assoc in IH. simpl in IH. exact IH.
Qed.

Section GaussWindow.

Variable strict : bool.
Variable sigma : R.
Hypothesis sigma_pos : (0 < sigma)%R.

(** The unnormalised weight at distance [j] from the centre. *)
Definition gauss_tap (j : nat) : R :=
  exp (-0.5 * IZR (Z.of_nat j * Z.of_nat j) / (sigma * sigma)).

Definition gauss_taps (m : nat) : list R := map (fun k => gauss_tap (S k)) (seq 0 m).

(** The window after [m] rounds of the first loop, for half-width [n]. *)
Definition window_after (n m : nat) : list R :=
  repeat 0%R (n - m) ++ (rev (gauss_taps m) ++ 1%R :: gauss_taps m) ++ repeat 0%R (n - m).

Definition sum_after (m : nat) : R := (1 + 2 * rsum (gauss_taps m))%R.

Lemma gauss_taps_S m : gauss_taps (S m) = gauss_taps m ++ [gauss_tap (S m)].
Proof. unfold gauss_taps. now rewrite seq_S, map_app. Qed.

Lemma gauss_taps_length m : length (gauss_taps m) = m.
Proof. unfold gauss_taps. now rewrite length_map, length_seq. Qed.

Lemma gauss_taps_pos m x : In x (gauss_taps m) -> (0 < x)%R.
Proof.
  unfold gauss_taps. rewrite in_map_iff. intros [k [<- _]]. apply exp_pos.
Qed.

Lemma sum_after_pos m : (1 <= sum_after m)%R.
Proof.
  unfold sum_after. pose proof (rsum_nonneg (gauss_taps m) (gauss_taps_pos m)). lra.
Qed.

Lemma window_after_length n m : (m <= n)%nat -> length (window_after n m) = (2 * n + 1)%nat.
Proof.
  intros H. unfold window_after.
  rewrite !length_app, length_rev. cbn [length].
  rewrite !repeat_length, !gauss_taps_length. lia.
Qed.

(** One round of the first loop, for half-width [n]. *)
Definition gauss_round (n : nat) : list float * float -> Z -> outcome (list float * float) :=
  fun '(weights, sum) ii =>
    e <- np_div strict (fmul (Fin (-0.5)) (of_Z (ii * ii))) (fmul (Fin sigma) (Fin sigma)) ;;
    let tmp := fexp e in
    weights <- py_setitem weights (Z.of_nat n + ii) tmp ;;
    weights <- py_setitem weights (Z.of_nat n - ii) tmp ;;
    Ok (weights, fadd sum (fmul (Fin 2) tmp)).

Lemma window_step n m :
  (m < n)%nat ->
  gauss_round n (map Fin (window_after n m), Fin (sum_after m)) (1 + Z.of_nat m)
  = Ok (map Fin (window_after n (S m)), Fin (sum_after (S m))).
Proof.
  intros Hm. unfold gauss_round. cbn [fmul of_Z].
  rewrite np_div_fin by nra. cbn [bind fexp].
  replace (1 + Z.of_nat m) with (Z.of_nat (S m)) by lia.
  fold (gauss_tap (S m)). set (v := gauss_tap (S m)).
  replace (Z.of_nat n + Z.of_nat (S m)) with (Z.of_nat (n + S m)) by lia.
  replace (Z.of_nat n - Z.of_nat (S m)) with (Z.of_nat (n - S m)) by lia.
  rewrite py_setitem_nat by (rewrite length_map, window_after_length; lia).
  cbn [bind]. rewrite set_nth_map_fin.
  rewrite py_setitem_nat
    by (rewrite length_map, set_nth_length, window_after_length; lia).
  cbn [bind]. rewrite set_nth_map_fin. cbn [fmul fadd].
  f_equal. f_equal.
  - f_equal. unfold window_after.
    replace (n - m)%nat with (S (n - S m)) by lia.
    set (z := repeat 0%R (n - S m)).
    set (M := rev (gauss_taps m) ++ 1%R :: gauss_taps m).
    assert (Lz : length z = (n - S m)%nat) by apply repeat_length.
    assert (LM : length M = (2 * m + 1)%nat).
    { unfold M. rewrite length_app, length_rev. simpl. rewrite gauss_taps_length. lia. }
    rewrite repeat_snoc at 1. fold z. cbn [repeat]. fold z.
    (* the write at [n + (m + 1)], then the write at [n - (m + 1)] *)
    replace (n + S m)%nat with (length (z ++ [0%R]) + (length M + 0))%nat
      by (rewrite length_app; simpl; lia).
    rewrite !set_nth_app_r. cbn [set_nth].
    rewrite set_nth_app_l by (rewrite length_app; simpl; lia).
    replace (n - S m)%nat with (length z + 0)%nat by lia.
    rewrite set_nth_app_r. cbn [set_nth].
    rewrite gauss_taps_S, rev_app_distr. unfold M.
    repeat (rewrite <- ?app_assoc; cbn [app rev]). reflexivity.
  - unfold sum_after. rewrite gauss_taps_S, rsum_app. simpl. fold v. f_equal. lra.
Qed.

Lemma first_loop n m b :
  (m + b = n)%nat ->
  for_each (map (fun k => 1 + Z.of_nat k) (seq m b)) (gauss_round n)
    (map Fin (window_after n m), Fin (sum_after m))
  = Ok (map Fin (window_after n n), Fin (sum_after n)).
Proof.
  revert m; induction b as [|b IH]; intros m H; cbn [seq map for_each].
  - replace m with n by lia. reflexivity.
  - rewrite (window_step n m) by lia. cbn [bind]. apply IH. lia.
Qed.

(** The window the function returns, for half-width [n]. *)
Definition gauss_window (n : nat) : list R :=
  map (fun x => x / sum_after n)%R (rev (gauss_taps n) ++ 1%R :: gauss_taps n).

Lemma gen_gauss_window_eq n :
  gen_gauss_window strict (Z.of_nat n) (Fin sigma) = Ok (map Fin (gauss_window n)).
Proof.
  unfold gen_gauss_window. cbv zeta.
  assert (E0 : py_setitem (py_repeat F0 (2 * Z.of_nat n + 1)) (Z.of_nat n) F1
               = Ok (map Fin (window_after n 0))).
  { unfold py_repeat. replace (Z.to_nat (2 * Z.of_nat n + 1)) with (n + S n)%nat by lia.
    rewrite py_setitem_nat by (rewrite repeat_length; lia).
    f_equal. rewrite repeat_app. cbn [repeat].
    replace n with (length (repeat F0 n) + 0)%nat at 3 by (rewrite repeat_length; lia).
    rewrite set_nth_app_r. cbn [set_nth].
    unfold window_after. rewrite Nat.sub_0_r. cbn [gauss_taps seq map rev app].
    rewrite map_app. cbn [map]. unfold F0, F1.
    rewrite !map_repeat. reflexivity. }
  rewrite E0. cbn [bind].
  change (for_each (py_range2 1 (Z.of_nat n + 1)) _ (map Fin (window_after n 0), F1))
    with (for_each (py_range2 1 (Z.of_nat n + 1)) (gauss_round n)
            (map Fin (window_after n 0), F1)).
  unfold py_range2. replace (Z.to_nat (Z.of_nat n + 1 - 1)) with n by lia.
  replace F1 with (Fin (sum_after 0)) by (unfold sum_after, F1; simpl; f_equal; lra).
  rewrite (first_loop n 0 n) by lia. cbn [bind].
  unfold py_range, py_range2.
  replace (Z.to_nat (2 * Z.of_nat n + 1 - 0)) with (length (map Fin (window_after n n)))
    by (rewrite length_map, window_after_length; lia).
  pose proof (inplace_map_from F0 (fun w => np_div strict w (Fin (sum_after n)))
                (fun w => fdiv w (Fin (sum_after n))) (map Fin (window_after n n))) as Hloop.
  assert (Hs : sum_after n <> 0%R) by (pose proof (sum_after_pos n); lra).
  specialize (Hloop (fun x _ => np_div_ok strict x _ (feq_fin_false _ Hs)) []).
  cbn [length app] in Hloop. rewrite Hloop.
  f_equal. unfold gauss_window, window_after.
  rewrite Nat.sub_diag. cbn [repeat app]. rewrite app_nil_r.
  rewrite !map_map. apply map_ext. intros x. now apply fdiv_fin.
Qed.

End GaussWindow.

(** * Shapes of arrays *)

(** [m] has [h] rows, each of [w] entries. *)
Definition has_shape (m : matrix) (h w : nat) : Prop :=
  length m = h /\ forall row, In row m -> length row = w.

Lemma rect_has_shape m H W :
  rect m -> shape m = (H, W) -> has_shape m (Z.to_nat H) (Z.to_nat W).
Proof.
  unfold rect, shape, has_shape. intros Hr Hs. inversion Hs; subst. split; [lia|].
  intros row Hin. rewrite (Hr row Hin). lia.
Qed.

Lemma has_shape_rect m h w :
  has_shape m h w -> (0 < h)%nat ->
  rect m /\ shape m = (Z.of_nat h, Z.of_nat w).
Proof.
  unfold rect, shape, has_shape. intros [Hl Hrows] Hh.
  destruct m as [|r0 m]; [simpl in Hl; lia|]. cbn [hd].
  assert (length r0 = w) by (apply Hrows; now left).
  split.
  - intros row Hin. rewrite (Hrows row Hin). congruence.
  - now rewrite Hl, H.
Qed.

Lemma has_shape_build h w f : has_shape (build h w f) h w.
Proof.
  unfold has_shape, build. split; [now rewrite length_map, length_seq|].
  intros row Hin. apply in_map_iff in Hin as [i [<- _]].
  now rewrite length_map, length_seq.
Qed.

Lemma has_shape_hd m h w :
  has_shape m h w -> (0 < h)%nat -> length (hd [] m) = w.
Proof.
  intros [Hl Hrows] Hh. destruct m as [|r0 m]; [simpl in Hl; lia|].
  apply Hrows. now left.
Qed.

Lemma map2_length {A B C} (f : A -> B -> C) l l' :
  length (map2 f l l') = Nat.min (length l) (length l').
Proof.
  revert l'; induction l as [|a l IH]; intros [|b l']; simpl; auto.
Qed.

Lemma map2_In {A B C} (f : A -> B -> C) l l' c :
  In c (map2 f l l') -> exists a b, In a l /\ In b l' /\ c = f a b.
Proof.
  revert l'; induction l as [|a l IH]; intros [|b l']; simpl; try contradiction.
  intros [<-|H].
  - exists a, b. auto.
  - destruct (IH _ H) as (a' & b' & Ha & Hb & ->). exists a', b'. auto.
Qed.

Lemma has_shape_map m h w f : has_shape m h w -> has_shape (mat_map f m) h w.
Proof.
  unfold has_shape, mat_map. intros [Hl Hrows]. split; [now rewrite length_map|].
  intros row Hin. apply in_map_iff in Hin as [r [<- Hr]].
  rewrite length_map. now apply Hrows.
Qed.

Lemma has_shape_map2 a b h w f :
  has_shape a h w -> has_shape b h w -> has_shape (mat_map2 f a b) h w.
Proof.
  unfold has_shape, mat_map2. intros [Hl Hrows] [Hl' Hrows']. split.
  - rewrite map2_length. lia.
  - intros row Hin. apply map2_In in Hin as (ra & rb & Ha & Hb & ->).
    rewrite map2_length, (Hrows _ Ha), (Hrows' _ Hb). lia.
Qed.

(** * Slices and ranges *)

Lemma py_slice_inner {A} (l : list A) a b :
  0 <= a <= b -> b <= Z.of_nat (length l) ->
  py_slice l a b = firstn (Z.to_nat (b - a)) (skipn (Z.to_nat a) l).
Proof.
  intros H1 H2. unfold py_slice, clamp_index. cbv zeta.
  replace (a <? 0) with false by (symmetry; apply Z.ltb_ge; lia).
  replace (b <? 0) with false by (symmetry; apply Z.ltb_ge; lia).
  now rewrite !Z.min_l by lia.
Qed.

Lemma py_slice_drop_last {A} (l : list A) k :
  0 < k <= Z.of_nat (length l) ->
  py_slice l 0 (- k) = firstn (length l - Z.to_nat k) l.
Proof.
  intros H. unfold py_slice, clamp_index. cbv zeta.
  replace (0 <? 0) with false by reflexivity.
  replace (- k <? 0) with true by (symmetry; apply Z.ltb_lt; lia).
  rewrite Z.min_l, Z.max_l by lia. cbn [Z.to_nat skipn].
  f_equal. lia.
Qed.

Lemma py_slice_length {A} (l : list A) a b :
  0 <= a <= b -> b <= Z.of_nat (length l) ->
  length (py_slice l a b) = Z.to_nat (b - a).
Proof.
  intros H1 H2. rewrite py_slice_inner by assumption.
  rewrite length_firstn, length_skipn. lia.
Qed.

Lemma firstn_In {A} n (l : list A) x : In x (firstn n l) -> In x l.
Proof.
  revert l; induction n as [|n IH]; intros [|a l]; simpl; try contradiction.
  intros [->|H]; [now left|right; now apply IH].
Qed.

Lemma skipn_In {A} n (l : list A) x : In x (skipn n l) -> In x l.
Proof.
  revert l; induction n as [|n IH]; intros [|a l]; simpl; try contradiction; auto.
Qed.

Lemma py_slice_In {A} (l : list A) a b x : In x (py_slice l a b) -> In x l.
Proof.
  unfold py_slice. cbv zeta. intros H.
  apply firstn_In in H. now apply skipn_In in H.
Qed.

Lemma py_range3_tiles h p :
  0 < p -> 0 <= h ->
  py_range3 0 (h - p + 1) p
  = Ok (map (fun k => Z.of_nat k * p) (seq 0 (Z.to_nat (h / p)))).
Proof.
  intros Hp Hh. unfold py_range3, range_len.
  replace (p =? 0) with false by (symmetry; apply Z.eqb_neq; lia).
  replace (0 <? p) with true by (symmetry; apply Z.ltb_lt; lia).
  f_equal.
  assert (E : (if 0 <? h - p + 1 then (h - p + 1 - 0 + p - 1) / p else 0) = h / p).
  { destruct (0 <? h - p + 1) eqn:E.
    - f_equal. lia.
    - apply Z.ltb_ge in E. symmetry. apply Z.div_small. lia. }
  rewrite E. apply map_ext. intros k. lia.
Qed.

(** * Loops that collect *)

Lemma for_each_ext {A S} (l : list A) (body body' : S -> A -> outcome S) s :
  (forall s a, In a l -> body s a = body' s a) ->
  for_each l body s = for_each l body' s.
Proof.
  revert s; induction l as [|a l IH]; intros s H; simpl; [reflexivity|].
  rewrite H by now left. destruct (body' s a); simpl; try reflexivity.
  apply IH. intros; apply H; now right.
Qed.

Lemma for_each_append {A B} (f : A -> B) l acc :
  for_each l (fun acc x => Ok (acc ++ [f x])) acc = Ok (acc ++ map f l).
Proof.
  revert acc; induction l as [|a l IH]; intros acc; simpl.
  - now rewrite app_nil_r.
  - rewrite IH, <- app_assoc. reflexivity.
Qed.

Lemma for_each_append_nested {A B C} (f : A -> B -> C) (inner : list B) l acc :
  for_each l
    (fun acc j => for_each inner (fun acc i => Ok (acc ++ [f j i])) acc) acc
  = Ok (acc ++ flat_map (fun j => map (f j) inner) l).
Proof.
  revert acc; induction l as [|a l IH]; intros acc; simpl.
  - now rewrite app_nil_r.
  - rewrite for_each_append. cbn [bind]. rewrite IH, <- app_assoc. reflexivity.
Qed.

Lemma flat_map_length_uniform {A B} (f : A -> list B) l n :
  (forall a, In a l -> length (f a) = n) ->
  length (flat_map f l) = (length l * n)%nat.
Proof.
  induction l as [|a l IH]; simpl; intros H; [reflexivity|].
  rewrite length_app, IH, H by auto. reflexivity.
Qed.

Lemma flat_map_nth_uniform {A B} (f : A -> list B) l n a b da db :
  (forall x, length (f x) = n) ->
  (a < length l)%nat -> (b < n)%nat ->
  nth (a * n + b) (flat_map f l) db = nth b (f (nth a l da)) db.
Proof.
  intros Hn. revert a; induction l as [|x l IH]; intros a Ha Hb; simpl in *; [lia|].
  destruct a as [|a].
  - simpl. rewrite app_nth1 by (rewrite Hn; lia). reflexivity.
  - rewrite app_nth2 by (rewrite Hn; simpl; lia).
    rewrite Hn. replace (S a * n + b - n)%nat with (a * n + b)%nat by (simpl; lia).
    apply IH; lia.
Qed.

(** * The tiles of [extract_on_patches] *)

(** The tiles in the order the two loops visit them: row of tiles by row of
    tiles, left to right within a row. *)
Definition tiles (img : matrix) (p : Z) (nh nw : nat) : list matrix :=
  flat_map (fun a => map (fun b => patch_at img p (Z.of_nat a * p) (Z.of_nat b * p))
                         (seq 0 nw))
           (seq 0 nh).

Lemma collect_patches_tiles img p h w :
  0 < p -> has_shape img h w -> (0 < h)%nat ->
  collect_patches img p
  = Ok (tiles img p (Z.to_nat (Z.of_nat h / p)) (Z.to_nat (Z.of_nat w / p))).
Proof.
  intros Hp Hs Hh. unfold collect_patches.
  destruct (has_shape_rect _ _ _ Hs Hh) as [_ ->].
  rewrite py_range3_tiles by lia. cbn [bind].
  erewrite for_each_ext.
  2:{ intros s a _. rewrite py_range3_tiles by lia. cbn [bind]. reflexivity. }
  rewrite (for_each_append_nested (fun j i => patch_at img p j i)). cbn [app].
  unfold tiles. rewrite flat_map_concat_map, map_map, <- flat_map_concat_map.
  f_equal. apply flat_map_ext. intros a. now rewrite map_map.
Qed.

Lemma tiles_length img p nh nw : length (tiles img p nh nw) = (nh * nw)%nat.
Proof.
  unfold tiles. rewrite (flat_map_length_uniform _ _ nw).
  - now rewrite length_seq.
  - intros a _. now rewrite length_map, length_seq.
Qed.

Lemma tiles_nth img p nh nw a b :
  (a < nh)%nat -> (b < nw)%nat ->
  nth (a * nw + b) (tiles img p nh nw) []
  = patch_at img p (Z.of_nat a * p) (Z.of_nat b * p).
Proof.
  intros Ha Hb. unfold tiles.
  rewrite (flat_map_nth_uniform (B := matrix) _ _ nw a b O [])
    by (try (intros; rewrite length_map, length_seq); try rewrite length_seq; auto).
  rewrite seq_nth by assumption. cbn [Nat.add].
  rewrite (nth_indep _ [] (patch_at img p (Z.of_nat a * p) (Z.of_nat 0 * p)))
    by now rewrite length_map, length_seq.
  rewrite (map_nth (fun b => patch_at img p (Z.of_nat a * p) (Z.of_nat b * p))).
  now rewrite seq_nth.
Qed.

Lemma patch_at_shape img p j i h w :
  has_shape img h w -> 0 < p -> 0 <= j -> j + p <= Z.of_nat h ->
  0 <= i -> i + p <= Z.of_nat w ->
  has_shape (patch_at img p j i) (Z.to_nat p) (Z.to_nat p).
Proof.
  intros [Hl Hrows] Hp Hj Hjp Hi Hip. unfold has_shape, patch_at. split.
  - rewrite length_map, py_slice_length by lia. f_equal. lia.
  - intros row Hin. apply in_map_iff in Hin as [r [<- Hr]].
    apply py_slice_In in Hr. rewrite py_slice_length by (rewrite ?(Hrows r Hr); lia).
    f_equal. lia.
Qed.

(** Every entry of a tile is the image entry at the tile's origin plus the
    offset: tiles are cut out of the image, nothing is padded. *)
Lemma patch_at_entry img p j i h w r c :
  has_shape img h w -> 0 < p -> 0 <= j -> j + p <= Z.of_nat h ->
  0 <= i -> i + p <= Z.of_nat w ->
  0 <= r < p -> 0 <= c < p ->
  at0 (patch_at img p j i) r c = at0 img (j + r) (i + c).
Proof.
  intros [Hl Hrows] Hp Hj Hjp Hi Hip Hr Hc. unfold at0, patch_at.
  replace ((0 <=? r) && (0 <=? c)) with true
    by (symmetry; apply andb_true_intro; split; lia).
  replace ((0 <=? j + r) && (0 <=? i + c)) with true
    by (symmetry; apply andb_true_intro; split; lia).
  rewrite (py_slice_inner img) by lia.
  assert (Hrl : (Z.to_nat r < length (firstn (Z.to_nat (j + p - j))
                                        (skipn (Z.to_nat j) img)))%nat)
    by (rewrite length_firstn, length_skipn; lia).
  rewrite (nth_indep _ [] (py_slice [] i (i + p))) by now rewrite length_map.
  rewrite (map_nth (fun row => py_slice row i (i + p))).
  rewrite nth_firstn.
  replace (Z.to_nat r <? Z.to_nat (j + p - j))%nat with true
    by (symmetry; apply Nat.ltb_lt; lia).
  rewrite nth_skipn.
  replace (Z.to_nat j + Z.to_nat r)%nat with (Z.to_nat (j + r)) by lia.
  set (row := nth (Z.to_nat (j + r)) img []).
  assert (Hrow : length row = w).
  { apply Hrows. apply nth_In. lia. }
  rewrite py_slice_inner by lia.
  rewrite nth_firstn.
  replace (Z.to_nat c <? Z.to_nat (i + p - i))%nat with true
    by (symmetry; apply Nat.ltb_lt; lia).
  rewrite nth_skipn. f_equal. lia.
Qed.

(** * Real matrices

    The exact values of the statistics of [niqe] are sums over index ranges;
    matrices are functions of two indices, compared on [0 .. d-1]. *)

Open Scope R_scope.

Definition sumn (d : nat) (f : nat -> R) : R := rsum (map f (seq 0 d)).

Lemma sumn_S d f : sumn (S d) f = sumn d f + f d.
Proof. unfold sumn. rewrite seq_S, map_app, rsum_app. simpl. lra. Qed.

Lemma sumn_ext d f g : (forall i, (i < d)%nat -> f i = g i) -> sumn d f = sumn d g.
Proof.
  induction d as [|d IH]; intros H; [reflexivity|].
  rewrite !sumn_S, IH, H by auto with arith. reflexivity.
Qed.

Lemma sumn_zero d : sumn d (fun _ => 0) = 0.
Proof. induction d as [|d IH]; [reflexivity|]. rewrite sumn_S, IH. lra. Qed.

Lemma sumn_plus d f g : sumn d (fun i => f i + g i) = sumn d f + sumn d g.
Proof. induction d as [|d IH]; [unfold sumn; simpl; lra|]. rewrite !sumn_S, IH. lra. Qed.

Lemma sumn_scal_l d c f : sumn d (fun i => c * f i) = c * sumn d f.
Proof. induction d as [|d IH]; [unfold sumn; simpl; lra|]. rewrite !sumn_S, IH. lra. Qed.

Lemma sumn_scal_r d c f : sumn d (fun i => f i * c) = sumn d f * c.
Proof. induction d as [|d IH]; [unfold sumn; simpl; lra|]. rewrite !sumn_S, IH. lra. Qed.

Lemma sumn_swap d e (f : nat -> nat -> R) :
  sumn d (fun i => sumn e (fun j => f i j)) = sumn e (fun j => sumn d (fun i => f i j)).
Proof.
  induction d as [|d IH].
  - transitivity (sumn e (fun _ => 0)); [now rewrite sumn_zero|reflexivity].
  - rewrite sumn_S, IH, <- sumn_plus. apply sumn_ext. intros j _. now rewrite sumn_S.
Qed.

Lemma sumn_nonneg d f : (forall i, (i < d)%nat -> 0 <= f i) -> 0 <= sumn d f.
Proof.
  induction d as [|d IH]; intros H; [unfold sumn; simpl; lra|].
  rewrite sumn_S. specialize (IH (fun i Hi => H i (Nat.lt_lt_succ_r _ _ Hi))).
  specialize (H d (Nat.lt_succ_diag_r d)). lra.
Qed.

Definition rmat : Type := nat -> nat -> R.
Definition rvec : Type := nat -> R.

Definition meq (d : nat) (A B : rmat) : Prop :=
  forall i j, (i < d)%nat -> (j < d)%nat -> A i j = B i j.

Definition mmul (d : nat) (A B : rmat) : rmat :=
  fun i j => sumn d (fun k => A i k * B k j).

Definition mT (A : rmat) : rmat := fun i j => A j i.

Definition mvec (d : nat) (A : rmat) (x : rvec) : rvec :=
  fun i => sumn d (fun j => A i j * x j).

Definition dotv (d : nat) (x y : rvec) : R := sumn d (fun i => x i * y i).

(** The quadratic form [x^T A x]. *)
Definition quad (d : nat) (A : rmat) (x : rvec) : R := dotv d x (mvec d A x).

Definition symmetric (d : nat) (A : rmat) : Prop := meq d (mT A) A.

Definition psd (d : nat) (A : rmat) : Prop := forall x, 0 <= quad d A x.

(** The four Penrose equations: [P] is the pseudo-inverse of [A]. *)
Definition moore_penrose (d : nat) (A P : rmat) : Prop :=
  meq d (mmul d (mmul d A P) A) A /\
  meq d (mmul d (mmul d P A) P) P /\
  symmetric d (mmul d A P) /\
  symmetric d (mmul d P A).

#[global] Instance meq_equivalence d : Equivalence (meq d).
Proof.
  split.
  - intros A i j _ _. reflexivity.
  - intros A B H i j Hi Hj. symmetry. now apply H.
  - intros A B C H1 H2 i j Hi Hj. rewrite H1, H2 by assumption. reflexivity.
Qed.

#[global] Instance mmul_proper d : Proper (meq d ==> meq d ==> meq d) (mmul d).
Proof.
  intros A A' HA B B' HB i j Hi Hj. unfold mmul.
  apply sumn_ext. intros k Hk. now rewrite HA, HB.
Qed.

#[global] Instance mT_proper d : Proper (meq d ==> meq d) mT.
Proof. intros A A' HA i j Hi Hj. unfold mT. now apply HA. Qed.

Lemma mmul_assoc d A B C : meq d (mmul d (mmul d A B) C) (mmul d A (mmul d B C)).
Proof.
  intros i j _ _. unfold mmul.
  rewrite (sumn_ext d _ (fun k => sumn d (fun l => A i l * B l k * C k j)))
    by (intros k _; now rewrite <- sumn_scal_r).
  rewrite sumn_swap. apply sumn_ext. intros l _.
  rewrite <- sumn_scal_l. apply sumn_ext. intros k _. ring.
Qed.

Lemma mT_mmul d A B : meq d (mT (mmul d A B)) (mmul d (mT B) (mT A)).
Proof. intros i j _ _. unfold mT, mmul. apply sumn_ext. intros k _. ring. Qed.

Lemma mT_involutive d A : meq d (mT (mT A)) A.
Proof. intros i j _ _. reflexivity. Qed.

(** The pseudo-inverse is unique. *)
Lemma moore_penrose_unique d A B C :
  moore_penrose d A B -> moore_penrose d A C -> meq d B C.
Proof.
  intros (B1 & B2 & B3 & B4) (C1 & C2 & C3 & C4). unfold symmetric in *.
  assert (AB : meq d (mmul d A C) (mmul d A B)).
  { (* AC = (AC)(AB) = (ACA)B = AB *)
    assert (E1 : meq d (mmul d A C) (mmul d (mmul d A B) (mmul d A C))).
    { rewrite <- mmul_assoc. now rewrite B1. }
    assert (E2 : meq d (mmul d A C) (mmul d (mmul d A C) (mmul d A B))).
    { rewrite <- C3 at 1. rewrite E1 at 1. rewrite mT_mmul. now rewrite C3, B3. }
    rewrite E2. rewrite <- mmul_assoc. now rewrite C1. }
  assert (BA : meq d (mmul d C A) (mmul d B A)).
  { assert (E1 : meq d (mmul d C A) (mmul d (mmul d C A) (mmul d B A))).
    { rewrite mmul_assoc. rewrite <- (mmul_assoc d A B A). now rewrite B1. }
    assert (E2 : meq d (mmul d C A) (mmul d (mmul d B A) (mmul d C A))).
    { rewrite <- C4 at 1. rewrite E1 at 1. rewrite mT_mmul. now rewrite C4, B4. }
    rewrite E2. rewrite mmul_assoc. rewrite <- (mmul_assoc d A C A). now rewrite C1. }
  rewrite <- B2. rewrite mmul_assoc. rewrite <- AB. rewrite <- mmul_assoc.
  rewrite <- BA. exact C2.
Qed.

Lemma moore_penrose_transpose d A P :
  symmetric d A -> moore_penrose d A P -> moore_penrose d A (mT P).
Proof.
  intros HA (P1 & P2 & P3 & P4). unfold symmetric in *.
  assert (E1 : meq d (mmul d A (mT P)) (mmul d P A)).
  { rewrite <- P4. rewrite mT_mmul. now rewrite HA. }
  assert (E2 : meq d (mmul d (mT P) A) (mmul d A P)).
  { rewrite <- P3. rewrite mT_mmul. now rewrite HA. }
  repeat split; unfold symmetric.
  - rewrite E1. transitivity (mT (mmul d A (mmul d P A))).
    + rewrite mT_mmul. now rewrite P4, HA.
    + rewrite <- mmul_assoc. now rewrite P1.
  - transitivity (mT (mmul d (mmul d P A) P)); [|now rewrite P2].
    rewrite mT_mmul. rewrite P4. rewrite <- E1. now rewrite mmul_assoc.
  - rewrite E1. exact P4.
  - rewrite E2. exact P3.
Qed.

(** The pseudo-inverse of a symmetric matrix is symmetric. *)
Lemma moore_penrose_symmetric d A P :
  symmetric d A -> moore_penrose d A P -> symmetric d P.
Proof.
  intros HA HP. unfold symmetric.
  apply (moore_penrose_unique d A); [|assumption].
  now apply moore_penrose_transpose.
Qed.

Lemma mvec_ext d A A' x :
  meq d A A' -> forall i, (i < d)%nat -> mvec d A x i = mvec d A' x i.
Proof. intros H i Hi. unfold mvec. apply sumn_ext. intros j Hj. now rewrite H. Qed.

Lemma dotv_ext d x y y' :
  (forall i, (i < d)%nat -> y i = y' i) -> dotv d x y = dotv d x y'.
Proof. intros H. unfold dotv. apply sumn_ext. intros i Hi. now rewrite H. Qed.

Lemma quad_ext d A A' x : meq d A A' -> quad d A x = quad d A' x.
Proof. intros H. unfold quad. apply dotv_ext. now apply mvec_ext. Qed.

Lemma mvec_mmul d A B x i : mvec d (mmul d A B) x i = mvec d A (mvec d B x) i.
Proof.
  unfold mvec, mmul.
  rewrite (sumn_ext d _ (fun j => sumn d (fun k => A i k * B k j * x j)))
    by (intros j _; now rewrite <- sumn_scal_r).
  rewrite sumn_swap. apply sumn_ext. intros k _.
  rewrite <- sumn_scal_l. apply sumn_ext. intros j _. ring.
Qed.

Lemma dotv_mvec_transpose d A x y :
  dotv d x (mvec d A y) = dotv d (mvec d (mT A) x) y.
Proof.
  unfold dotv, mvec, mT.
  rewrite (sumn_ext d _ (fun i => sumn d (fun j => x i * A i j * y j)))
    by (intros i _; rewrite <- sumn_scal_l; apply sumn_ext; intros; ring).
  rewrite sumn_swap. apply sumn_ext. intros j _.
  rewrite <- sumn_scal_r. apply sumn_ext. intros i _. ring.
Qed.

(** The pseudo-inverse of a symmetric positive-semidefinite matrix is
    positive-semidefinite. *)
Lemma moore_penrose_psd d A P :
  symmetric d A -> psd d A -> moore_penrose d A P -> psd d P.
Proof.
  intros HA Hpsd HP x.
  pose proof (moore_penrose_symmetric d A P HA HP) as HPs.
  destruct HP as (_ & P2 & _ & _).
  rewrite <- (quad_ext d _ _ x P2). unfold quad.
  rewrite (dotv_ext d x _ (mvec d P (mvec d A (mvec d P x)))).
  - rewrite dotv_mvec_transpose. unfold dotv.
    rewrite (sumn_ext d _ (fun i => mvec d P x i * mvec d A (mvec d P x) i)).
    + apply (Hpsd (mvec d P x)).
    + intros i Hi. f_equal. now apply mvec_ext.
  - intros i Hi. now rewrite !mvec_mmul.
Qed.

Close Scope R_scope.

(** * The statistics of [niqe] on finite feature matrices *)

Open Scope R_scope.

(** A real matrix as a list of rows, and its float image. *)
Definition lift_vec (v : list R) : list float := map Fin v.
Definition lift_mat (m : list (list R)) : matrix := map lift_vec m.

Definition rshape (m : list (list R)) (n d : nat) : Prop :=
  length m = n /\ forall row, In row m -> length row = d.

Definition rentry (m : list (list R)) : rmat := fun i j => nth j (nth i m []) 0.

(** Column mean, and sample covariance with the [1 / (n - 1)] normalisation. *)
Definition mean_r (fr : list (list R)) (j : nat) : R :=
  rsum (map (fun row => nth j row 0) fr) / IZR (Z.of_nat (length fr)).

Definition cov_r (fr : list (list R)) : rmat :=
  fun i j =>
    rsum (map (fun row => (nth i row 0 - mean_r fr i) * (nth j row 0 - mean_r fr j)) fr)
    * (1 / IZR (Z.of_nat (length fr) - 1)).

(** [(pop_cov + sample_cov) / 2] *)
Definition avg_cov_r (pcr fr : list (list R)) : rmat :=
  fun i j => (rentry pcr i j + cov_r fr i j) / 2.

(** [sample_mu - pop_mu] *)
Definition diff_r (fr : list (list R)) (mur : list R) : rvec :=
  fun i => mean_r fr i - nth i mur 0.

Lemma lift_shape m n d : rshape m n d -> has_shape (lift_mat m) n d.
Proof.
  intros [Hl Hr]. split; [unfold lift_mat; now rewrite length_map|].
  intros row Hin. apply in_map_iff in Hin as [r [<- Hin]].
  unfold lift_vec. rewrite length_map. now apply Hr.
Qed.

Lemma nth_lift_vec v i : nth i (lift_vec v) F0 = Fin (nth i v 0).
Proof. unfold lift_vec, F0. apply (map_nth Fin). Qed.

Lemma nth_lift_mat m i : nth i (lift_mat m) [] = lift_vec (nth i m []).
Proof. unfold lift_mat. apply (map_nth lift_vec m [] i). Qed.

Lemma build_ext h w f g :
  (forall i j, (i < h)%nat -> (j < w)%nat -> f i j = g i j) -> build h w f = build h w g.
Proof.
  intros H. unfold build. apply map_ext_in. intros i Hi. apply in_seq in Hi.
  apply map_ext_in. intros j Hj. apply in_seq in Hj. apply H; lia.
Qed.

Lemma mat_map_build f h w g :
  mat_map f (build h w g) = build h w (fun i j => f (g i j)).
Proof. unfold mat_map, build. rewrite map_map. apply map_ext. intros i. now rewrite map_map. Qed.

Lemma nth_build h w f i j d0 :
  (i < h)%nat -> (j < w)%nat -> nth j (nth i (build h w f) []) d0 = f i j.
Proof.
  intros Hi Hj. unfold build.
  rewrite (nth_indep _ [] (map (fun j => f 0%nat j) (seq 0 w)))
    by now rewrite length_map, length_seq.
  rewrite (map_nth (fun i => map (fun j => f i j) (seq 0 w))).
  rewrite seq_nth by assumption. cbn [Nat.add].
  rewrite (nth_indep _ d0 (f i 0%nat)) by now rewrite length_map, length_seq.
  rewrite (map_nth (fun j => f i j)). now rewrite seq_nth.
Qed.

Lemma map2_fmul_fin a b :
  map2 fmul (map Fin a) (map Fin b) = map Fin (map2 Rmult a b).
Proof.
  revert b; induction a as [|x a IH]; intros [|y b]; simpl; try reflexivity.
  now rewrite IH.
Qed.

Lemma rsum_map_sumn {A} (g : A -> R) (l : list A) (d0 : A) :
  rsum (map g l) = sumn (length l) (fun k => g (nth k l d0)).
Proof.
  induction l as [|a l IH] using rev_ind; [reflexivity|].
  rewrite map_app, rsum_app, length_app. simpl.
  replace (length l + 1)%nat with (S (length l)) by lia.
  rewrite sumn_S, IH. rewrite app_nth2, Nat.sub_diag by lia. simpl.
  rewrite (sumn_ext (length l) (fun k => g (nth k (l ++ [a]) d0))
             (fun k => g (nth k l d0))); [lra|].
  intros k Hk. now rewrite app_nth1.
Qed.

Lemma map2_snoc {A B C} (f : A -> B -> C) a b x y :
  length a = length b -> map2 f (a ++ [x]) (b ++ [y]) = map2 f a b ++ [f x y].
Proof.
  revert b; induction a as [|u a IH]; intros [|v b] H; simpl in *;
    try discriminate; try reflexivity.
  rewrite IH by lia. reflexivity.
Qed.

Lemma rsum_map2_sumn a b d :
  length a = d -> length b = d ->
  rsum (map2 Rmult a b) = sumn d (fun i => nth i a 0 * nth i b 0).
Proof.
  revert b d; induction a as [|x a IH] using rev_ind; intros b d Ha Hb.
  - simpl in Ha. subst d. reflexivity.
  - rewrite length_app in Ha. simpl in Ha.
    destruct (exists_last (l := b)) as [b' [y ->]].
    { intros ->. simpl in Hb. lia. }
    rewrite length_app in Hb. simpl in Hb.
    assert (Hd : d = S (length a)) by lia. subst d.
    assert (Hb' : length b' = length a) by lia.
    assert (E : map2 Rmult (a ++ [x]) (b' ++ [y]) = map2 Rmult a b' ++ [x * y])
      by (apply map2_snoc; lia).
    replace (length a + 1)%nat with (S (length a)) by lia.
    rewrite E, rsum_app, sumn_S. simpl.
    rewrite (IH b' (length a) eq_refl Hb').
    rewrite !app_nth2, Hb', Nat.sub_diag by lia. simpl.
    rewrite (sumn_ext (length a) (fun i => nth i (a ++ [x]) 0 * nth i (b' ++ [y]) 0)
               (fun i => nth i a 0 * nth i b' 0)); [lra|].
    intros i Hi. now rewrite !app_nth1 by lia.
Qed.

Lemma np_mean_fin l :
  l <> [] -> np_mean (map Fin l) = Fin (rsum l / IZR (Z.of_nat (length l))).
Proof.
  intros H. unfold np_mean. rewrite fsum_fin, length_map. unfold of_Z.
  apply fdiv_fin. apply not_0_IZR. destruct l; [congruence|simpl; lia].
Qed.

Lemma column_lift fr j :
  column (lift_mat fr) j = map Fin (map (fun row => nth j row 0) fr).
Proof.
  unfold column, lift_mat. rewrite !map_map. apply map_ext. intros row.
  apply nth_lift_vec.
Qed.

Lemma bcast_nth_nth {A} (d0 : A) l i :
  (i < length l)%nat -> bcast_nth d0 l i = nth i l d0.
Proof.
  intros H. unfold bcast_nth. destruct (Nat.eqb_spec (length l) 1) as [E|E]; [|reflexivity].
  destruct l as [|a [|b l]]; simpl in *; try lia.
  destruct i; [reflexivity|lia].
Qed.

Section Statistics.

Variable fr : list (list R).
Variables n d : nat.
Hypothesis fr_shape : rshape fr n d.
Hypothesis n_ge_2 : (2 <= n)%nat.
Hypothesis d_pos : (1 <= d)%nat.

Lemma fr_nonempty : fr <> [].
Proof. destruct fr_shape as [Hl _]. destruct fr; [simpl in Hl; lia|discriminate]. Qed.

Lemma hd_lift_length : length (hd [] (lift_mat fr)) = d.
Proof. apply (has_shape_hd _ n d); [now apply lift_shape|lia]. Qed.

Lemma mean_axis0_lift :
  mean_axis0 (lift_mat fr) = map Fin (map (mean_r fr) (seq 0 d)).
Proof.
  unfold mean_axis0. rewrite hd_lift_length, map_map. apply map_ext. intros j.
  rewrite column_lift, np_mean_fin.
  - unfold mean_r. now rewrite length_map.
  - pose proof fr_nonempty. destruct fr; [congruence|discriminate].
Qed.

Lemma nth_mean i :
  (i < d)%nat -> nth i (map Fin (map (mean_r fr) (seq 0 d))) F0 = Fin (mean_r fr i).
Proof.
  intros Hi. change F0 with (Fin 0). rewrite (map_nth Fin). f_equal.
  rewrite (nth_indep _ 0 (mean_r fr 0%nat)) by now rewrite length_map, length_seq.
  rewrite (map_nth (mean_r fr)). now rewrite seq_nth.
Qed.

Lemma np_cov_T_lift :
  np_cov_T (lift_mat fr) = build d d (fun i j => Fin (cov_r fr i j)).
Proof.
  unfold np_cov_T. cbv zeta. rewrite hd_lift_length, mean_axis0_lift.
  destruct fr_shape as [Hl Hr].
  apply build_ext. intros i j Hi Hj. rewrite !nth_mean by assumption.
  unfold lift_mat. rewrite map_map.
  rewrite (map_ext _ (fun row => Fin ((nth i row 0 - mean_r fr i)
                                      * (nth j row 0 - mean_r fr j)))).
  2:{ intros row. rewrite !nth_lift_vec. reflexivity. }
  rewrite <- (map_map (fun row => (nth i row 0 - mean_r fr i)
                                  * (nth j row 0 - mean_r fr j)) Fin).
  rewrite fsum_fin, length_map, Hl.
  rewrite Z.max_l by lia. unfold of_Z, F1.
  rewrite fdiv_fin by (apply not_0_IZR; lia). cbn [fmul]. unfold cov_r. now rewrite Hl.
Qed.

Lemma cov_r_symmetric : symmetric d (cov_r fr).
Proof.
  intros i j _ _. unfold mT, cov_r. f_equal. f_equal.
  apply map_ext. intros row. ring.
Qed.

Lemma cov_r_psd : psd d (cov_r fr).
Proof.
  intros x. destruct fr_shape as [Hl _].
  set (c := 1 / IZR (Z.of_nat (length fr) - 1)).
  assert (Hc : 0 <= c).
  { unfold c. apply Rlt_le, Rdiv_lt_0_compat; [lra|]. apply IZR_lt. lia. }
  set (a := fun k i => nth i (nth k fr []) 0 - mean_r fr i).
  set (t := fun i j k => c * (x i * a k i) * (a k j * x j)).
  assert (Ecov : forall i j, cov_r fr i j = sumn n (fun k => a k i * a k j) * c).
  { intros i j. unfold cov_r. fold c. f_equal.
    rewrite (rsum_map_sumn _ fr []), Hl. reflexivity. }
  assert (E : quad d (cov_r fr) x
              = sumn n (fun k => c * sumn d (fun i => x i * a k i)
                                   * sumn d (fun j => a k j * x j))).
  { unfold quad, dotv, mvec.
    transitivity (sumn d (fun i => sumn d (fun j => sumn n (fun k => t i j k)))).
    { apply sumn_ext. intros i _.
      transitivity (sumn d (fun j => x i * (cov_r fr i j * x j)));
        [symmetry; apply sumn_scal_l|].
      apply sumn_ext. intros j _. rewrite Ecov.
      transitivity (sumn n (fun k => (c * x i * x j) * (a k i * a k j))).
      - rewrite sumn_scal_l. ring.
      - apply sumn_ext. intros k _. unfold t. ring. }
    transitivity (sumn d (fun i => sumn n (fun k => sumn d (fun j => t i j k)))).
    { apply sumn_ext. intros i _. apply (sumn_swap d n (fun j k => t i j k)). }
    rewrite (sumn_swap d n (fun i k => sumn d (fun j => t i j k))).
    apply sumn_ext. intros k _.
    transitivity (sumn d (fun i => (c * (x i * a k i)) * sumn d (fun j => a k j * x j))).
    { apply sumn_ext. intros i _. unfold t. apply sumn_scal_l. }
    rewrite sumn_scal_r. f_equal. apply sumn_scal_l. }
  rewrite E. apply sumn_nonneg. intros k _.
  rewrite (sumn_ext d (fun j => a k j * x j) (fun i => x i * a k i))
    by (intros; ring).
  set (S := sumn d (fun i => x i * a k i)). nra.
Qed.

End Statistics.

Lemma quad_avg d A B x :
  quad d (fun i j => (A i j + B i j) / 2) x = (quad d A x + quad d B x) / 2.
Proof.
  unfold quad, dotv, mvec.
  rewrite <- sumn_plus. unfold Rdiv. rewrite <- sumn_scal_r.
  apply sumn_ext. intros i _.
  rewrite <- Rmult_plus_distr_l, Rmult_assoc. f_equal.
  rewrite <- sumn_plus, <- sumn_scal_r. apply sumn_ext. intros j _. ring.
Qed.

Lemma avg_cov_symmetric pcr fr d :
  symmetric d (rentry pcr) -> symmetric d (avg_cov_r pcr fr).
Proof.
  intros Hp i j Hi Hj. unfold mT, avg_cov_r.
  rewrite <- (Hp i j Hi Hj). unfold mT. f_equal. f_equal.
  apply (cov_r_symmetric fr d i j Hi Hj).
Qed.

Lemma avg_cov_psd pcr fr n d :
  rshape fr n d -> (2 <= n)%nat -> (1 <= d)%nat ->
  psd d (rentry pcr) -> psd d (avg_cov_r pcr fr).
Proof.
  intros Hs Hn Hd Hp x. unfold avg_cov_r. rewrite quad_avg.
  pose proof (Hp x). pose proof (cov_r_psd fr n d Hs Hn Hd x). lra.
Qed.

Close Scope R_scope.

(** * The distance computed by the tail of [niqe] *)

Open Scope R_scope.

Lemma nth_seq_map (f : nat -> R) d i :
  (i < d)%nat -> nth i (map f (seq 0 d)) 0 = f i.
Proof.
  intros Hi. rewrite (nth_indep _ 0 (f 0%nat)) by now rewrite length_map, length_seq.
  rewrite (map_nth f). now rewrite seq_nth.
Qed.

Lemma nth_column_r (pr : list (list R)) i j :
  nth i (map (fun row => nth j row 0) pr) 0 = rentry pr i j.
Proof.
  unfold rentry. destruct (Nat.lt_ge_cases i (length pr)) as [H|H].
  - rewrite (nth_indep _ 0 (nth j [] 0)) by now rewrite length_map.
    now rewrite (map_nth (fun row => nth j row 0)).
  - rewrite nth_overflow by now rewrite length_map.
    rewrite (nth_overflow pr) by assumption. now destruct j.
Qed.

Lemma nth_build_length h w f i :
  (i < h)%nat -> length (nth i (build h w f) []) = w.
Proof.
  intros Hi. destruct (has_shape_build h w f) as [Hl Hrows].
  apply Hrows, nth_In. lia.
Qed.

Lemma fsqrt_nonneg q : 0 <= q -> fsqrt (Fin q) = Fin (sqrt q).
Proof. intros H. simpl. destruct (Rlt_dec q 0); [lra|reflexivity]. Qed.

(** A real matrix built from its entries. *)
Definition build_r (h w : nat) (f : nat -> nat -> R) : list (list R) :=
  map (fun i => map (fun j => f i j) (seq 0 w)) (seq 0 h).

Lemma build_r_shape h w f : rshape (build_r h w f) h w.
Proof.
  split; [unfold build_r; now rewrite length_map, length_seq|].
  intros row Hin. apply in_map_iff in Hin as [i [<- _]].
  now rewrite length_map, length_seq.
Qed.

Lemma lift_build_r h w f : lift_mat (build_r h w f) = build h w (fun i j => Fin (f i j)).
Proof.
  unfold lift_mat, build_r, build, lift_vec. rewrite map_map.
  apply map_ext. intros i. now rewrite map_map.
Qed.

Lemma rentry_build_r h w f : forall i j, (i < h)%nat -> (j < w)%nat ->
  rentry (build_r h w f) i j = f i j.
Proof.
  intros i j Hi Hj. unfold rentry, build_r.
  rewrite (nth_indep _ [] (map (fun j => f 0%nat j) (seq 0 w)))
    by now rewrite length_map, length_seq.
  rewrite (map_nth (fun i => map (fun j => f i j) (seq 0 w))).
  rewrite seq_nth by assumption. cbn [Nat.add]. now apply nth_seq_map.
Qed.

(** What the scorer relies on for [scipy.linalg.pinv]: on a symmetric
    positive-semidefinite matrix it returns a positive-semidefinite matrix of
    the same size. *)
Definition pinv_keeps_psd (pinv : matrix -> lib_result matrix) : Prop :=
  forall A d,
    rshape A d d -> symmetric d (rentry A) -> psd d (rentry A) ->
    exists P, pinv (lift_mat A) = Returns (lift_mat P) /\
              rshape P d d /\ psd d (rentry P).

(** The exact pseudo-inverse, characterised by the Penrose equations. *)
Definition pinv_is_pseudo_inverse (pinv : matrix -> lib_result matrix) : Prop :=
  forall A d,
    rshape A d d -> symmetric d (rentry A) -> psd d (rentry A) ->
    exists P, pinv (lift_mat A) = Returns (lift_mat P) /\
              rshape P d d /\ moore_penrose d (rentry A) (rentry P).

(** The exact pseudo-inverse meets [pinv_keeps_psd]. *)
Lemma pseudo_inverse_keeps_psd pinv :
  pinv_is_pseudo_inverse pinv -> pinv_keeps_psd pinv.
Proof.
  intros H A d Hs Hsym Hpsd. destruct (H A d Hs Hsym Hpsd) as (P & E & Hp & Hmp).
  exists P. split; [exact E|]. split; [exact Hp|].
  now apply (moore_penrose_psd d (rentry A)).
Qed.

Section Distance.

Variable pinv : matrix -> lib_result matrix.
Variable self : scorer.
Variables fr pcr : list (list R).
Variable mur : list R.
Variables n d : nat.

Hypothesis fr_shape : rshape fr n d.
Hypothesis n_ge_2 : (2 <= n)%nat.
Hypothesis d_pos : (1 <= d)%nat.
Hypothesis self_mu : pop_mu self = Some (lift_vec mur).
Hypothesis mur_length : length mur = d.
Hypothesis self_cov : pop_cov self = Some (lift_mat pcr).
Hypothesis pcr_shape : rshape pcr d d.
Hypothesis pcr_sym : symmetric d (rentry pcr).
Hypothesis pcr_psd : psd d (rentry pcr).
Hypothesis pinv_ok : pinv_keeps_psd pinv.

Lemma diff_lift :
  vec_map2 fsub (map Fin (map (mean_r fr) (seq 0 d))) (lift_vec mur)
  = Ok (map Fin (map (diff_r fr mur) (seq 0 d))).
Proof.
  unfold vec_map2. rewrite !length_map, length_seq. unfold lift_vec at 1.
  rewrite length_map, mur_length. unfold bcast_len. rewrite Nat.eqb_refl.
  f_equal. rewrite (map_map (diff_r fr mur) Fin).
  apply map_ext_in. intros i Hi. apply in_seq in Hi.
  rewrite !bcast_nth_nth
    by (unfold lift_vec; rewrite ?length_map, ?length_seq; lia).
  rewrite (nth_mean fr d) by lia. rewrite nth_lift_vec. reflexivity.
Qed.

Lemma covmat_lift :
  s <- mat_bcast2 fadd (lift_mat pcr) (build d d (fun i j => Fin (cov_r fr i j))) ;;
  Ok (mat_map (fun x => fdiv x (Fin 2)) s)
  = Ok (build d d (fun i j => Fin (avg_cov_r pcr fr i j))).
Proof.
  unfold mat_bcast2.
  pose proof (lift_shape _ _ _ pcr_shape) as Hp.
  pose proof (has_shape_build d d (fun i j => Fin (cov_r fr i j))) as Hb.
  rewrite (has_shape_hd _ _ _ Hp d_pos), (has_shape_hd _ _ _ Hb d_pos).
  destruct Hp as [-> Hprows]. destruct Hb as [-> _].
  unfold bcast_len. rewrite Nat.eqb_refl. cbn [bind]. f_equal.
  rewrite mat_map_build. apply build_ext. intros i j Hi Hj.
  destruct pcr_shape as [Hl Hrows].
  rewrite (bcast_nth_nth [] (lift_mat pcr)) by (unfold lift_mat; rewrite length_map; lia).
  rewrite nth_lift_mat.
  rewrite bcast_nth_nth
    by (unfold lift_vec; rewrite length_map, Hrows; [lia|apply nth_In; lia]).
  rewrite nth_lift_vec.
  rewrite (bcast_nth_nth [] (build _ _ _))
    by (unfold build; rewrite length_map, length_seq; lia).
  rewrite bcast_nth_nth by (rewrite nth_build_length; lia).
  rewrite nth_build by assumption. cbn [fadd].
  rewrite fdiv_fin by lra. reflexivity.
Qed.

Lemma quadratic_form_lift pr :
  rshape pr d d ->
  y <- dot_vec_mat (map Fin (map (diff_r fr mur) (seq 0 d))) (lift_mat pr) ;;
  dot_vec_vec y (map Fin (map (diff_r fr mur) (seq 0 d)))
  = Ok (Fin (quad d (rentry pr) (diff_r fr mur))).
Proof.
  intros pr_shape.
  pose proof (lift_shape _ _ _ pr_shape) as Hp.
  unfold dot_vec_mat. rewrite (has_shape_hd _ _ _ Hp d_pos).
  destruct Hp as [Hpl _]. rewrite Hpl, !length_map, length_seq, Nat.eqb_refl.
  cbn [bind].
  set (xs := map (diff_r fr mur) (seq 0 d)).
  assert (Lx : length xs = d) by (unfold xs; now rewrite length_map, length_seq).
  assert (Ey : map (fun j => fsum (map2 fmul (map Fin xs) (column (lift_mat pr) j)))
                   (seq 0 d)
               = map Fin (map (fun j => sumn d (fun i => diff_r fr mur i * rentry pr i j))
                              (seq 0 d))).
  { rewrite map_map. apply map_ext_in. intros j Hj.
    rewrite column_lift, map2_fmul_fin, fsum_fin. f_equal.
    rewrite (rsum_map2_sumn _ _ d) by (rewrite ?length_map; destruct pr_shape; lia).
    apply sumn_ext. intros i Hi. unfold xs. now rewrite nth_seq_map, nth_column_r. }
  rewrite Ey. unfold dot_vec_vec. rewrite !length_map, length_seq, Lx, Nat.eqb_refl.
  rewrite map2_fmul_fin, fsum_fin. f_equal. f_equal.
  rewrite (rsum_map2_sumn _ _ d) by (rewrite ?length_map, ?length_seq; lia).
  unfold quad. rewrite dotv_mvec_transpose. unfold dotv, mvec, mT.
  apply sumn_ext. intros j Hj. unfold xs. rewrite !nth_seq_map by assumption.
  f_equal. apply sumn_ext. intros i _. ring.
Qed.

(** The score is the square root of a non-negative quadratic form. *)
Lemma niqe_distance_nonneg :
  exists s, niqe_distance pinv self (lift_mat fr) = Ok (Fin s) /\ 0 <= s.
Proof.
  set (A := build_r d d (avg_cov_r pcr fr)).
  assert (HA : meq d (rentry A) (avg_cov_r pcr fr))
    by (intros i j Hi Hj; now apply rentry_build_r).
  destruct (pinv_ok A d) as (pr & Epinv & pr_shape & pr_psd).
  { apply build_r_shape. }
  { unfold symmetric. rewrite HA. now apply avg_cov_symmetric. }
  { intros x. rewrite (quad_ext d _ _ x HA). now apply (avg_cov_psd pcr fr n d). }
  pose proof (pr_psd (diff_r fr mur)) as Hq.
  exists (sqrt (quad d (rentry pr) (diff_r fr mur))). split; [|apply sqrt_pos].
  unfold niqe_distance. cbv zeta. rewrite self_mu, self_cov.
  rewrite (mean_axis0_lift fr n d fr_shape n_ge_2) by exact d_pos.
  rewrite (np_cov_T_lift fr n d fr_shape n_ge_2 d_pos).
  rewrite diff_lift. cbn [bind].
  pose proof covmat_lift as Hc.
  destruct (mat_bcast2 fadd (lift_mat pcr) (build d d (fun i j => Fin (cov_r fr i j))))
    as [s| |]; cbn [bind] in Hc; try discriminate.
  cbn [bind]. inversion Hc as [Hc']. rewrite Hc'.
  unfold A in Epinv. rewrite lift_build_r in Epinv. rewrite Epinv. cbn [lift bind].
  pose proof (quadratic_form_lift pr pr_shape) as Hf.
  destruct (dot_vec_mat (map Fin (map (diff_r fr mur) (seq 0 d))) (lift_mat pr))
    as [y| |]; cbn [bind] in Hf; try discriminate.
  cbn [bind]. rewrite Hf. cbn [bind]. now rewrite fsqrt_nonneg.
Qed.

End Distance.

Close Scope R_scope.

(** * Finite images give finite features *)

Definition fin_list (l : list float) : Prop := forall x, In x l -> is_finite x.
Definition fin_mat (m : matrix) : Prop := forall row, In row m -> fin_list row.

(** Finite and non-negative entries, as squares are. *)
Definition nonneg_list (l : list float) : Prop :=
  forall x, In x l -> exists r, x = Fin r /\ (0 <= r)%R.

Lemma fin_list_lift l : fin_list l -> exists rl, l = map Fin rl.
Proof.
  induction l as [|x l IH]; intros H; [now exists []|].
  destruct (H x (or_introl eq_refl)) as [r ->].
  destruct IH as [rl ->]; [intros y Hy; apply H; now right|].
  now exists (r :: rl).
Qed.

Lemma nonneg_list_lift l :
  nonneg_list l -> exists rl, l = map Fin rl /\ forall r, In r rl -> (0 <= r)%R.
Proof.
  induction l as [|x l IH]; intros H.
  - exists []. split; [reflexivity|intros r []].
  - destruct (H x (or_introl eq_refl)) as [r [-> Hr]].
    destruct IH as [rl [-> Hrl]]; [intros y Hy; apply H; now right|].
    exists (r :: rl). split; [reflexivity|]. intros y [<-|Hy]; auto.
Qed.

Lemma fin_mat_lift m n d :
  fin_mat m -> has_shape m n d -> exists mr, m = lift_mat mr /\ rshape mr n d.
Proof.
  revert n; induction m as [|row m IH]; intros n Hf [Hl Hrows].
  - exists []. split; [reflexivity|]. split; [assumption|intros r []].
  - destruct (fin_list_lift row (Hf row (or_introl eq_refl))) as [rr Err].
    destruct (IH (length m)) as [mr [Emr [Hml Hmr]]].
    + intros r Hr. apply Hf. now right.
    + split; [reflexivity|]. intros r Hr. apply Hrows. now right.
    + exists (rr :: mr). split; [simpl; now rewrite Err, Emr|]. split.
      * simpl in *. lia.
      * intros r [<-|Hr]; [|now apply Hmr].
        specialize (Hrows row (or_introl eq_refl)).
        rewrite Err, length_map in Hrows. exact Hrows.
Qed.

Lemma fin_lift_vec v : fin_list (lift_vec v).
Proof. intros x Hx. apply in_map_iff in Hx as [r [<- _]]. now exists r. Qed.

Lemma fin_lift_mat m : fin_mat (lift_mat m).
Proof. intros row Hr. apply in_map_iff in Hr as [r [<- _]]. apply fin_lift_vec. Qed.

Lemma rsum_nonneg_le l : (forall r, In r l -> 0 <= r)%R -> (0 <= rsum l)%R.
Proof.
  induction l as [|x l IH]; simpl; intros H; [lra|].
  assert (0 <= x)%R by (apply H; now left).
  assert (0 <= rsum l)%R by (apply IH; intros; apply H; now right). lra.
Qed.

Lemma fsum_finite l : fin_list l -> is_finite (fsum l).
Proof.
  intros H. destruct (fin_list_lift l H) as [rl ->]. rewrite fsum_fin. now eexists.
Qed.

Lemma np_mean_nonneg l :
  nonneg_list l -> l <> [] -> exists q, np_mean l = Fin q /\ (0 <= q)%R.
Proof.
  intros H Hne. destruct (nonneg_list_lift l H) as [rl [-> Hrl]].
  assert (rl <> []) by (destruct rl; [now destruct Hne|discriminate]).
  rewrite np_mean_fin by assumption. eexists. split; [reflexivity|].
  apply Rmult_le_pos; [now apply rsum_nonneg_le|].
  apply Rlt_le, Rinv_0_lt_compat. apply IZR_lt. destruct rl; [congruence|simpl; lia].
Qed.

Lemma np_select_In mask l x : In x (np_select mask l) -> In x l.
Proof.
  revert l; induction mask as [|b mask IH]; intros [|y l]; simpl; try contradiction.
  destruct b; simpl; [intros [->|H]; [now left|right; now apply IH]|].
  intros H. right. now apply IH.
Qed.

Lemma squares_nonneg patch : fin_list patch -> nonneg_list (map2 fmul patch patch).
Proof.
  induction patch as [|a l IH]; intros H x Hx; simpl in Hx; [contradiction|].
  destruct Hx as [<-|Hx].
  - destruct (H a (or_introl eq_refl)) as [r ->]. exists (r * r)%R.
    split; [reflexivity|nra].
  - apply IH; [|assumption]. intros y Hy. apply H. now right.
Qed.

Lemma nonneg_select mask l : nonneg_list l -> nonneg_list (np_select mask l).
Proof. intros H x Hx. apply H. eapply np_select_In; eassumption. Qed.

Lemma scale_finite l :
  nonneg_list l ->
  exists s, (if 0 <? Z.of_nat (length l) then fsqrt (np_mean l) else F0) = Fin s.
Proof.
  intros H. destruct (0 <? Z.of_nat (length l)) eqn:E; [|now exists 0%R].
  destruct (np_mean_nonneg l H) as [q [-> Hq]].
  - destruct l; [simpl in E; discriminate|discriminate].
  - rewrite fsqrt_nonneg by assumption. now eexists.
Qed.

Lemma aggd_scales_finite patch :
  fin_list patch -> exists l r, aggd_scales patch = (Fin l, Fin r).
Proof.
  intros H. unfold aggd_scales. cbv zeta.
  pose proof (squares_nonneg patch H) as Hsq.
  destruct (scale_finite _ (nonneg_select (map (fun x => flt x F0) patch) _ Hsq)) as [l ->].
  destruct (scale_finite _ (nonneg_select (map (fun x => fge x F0) patch) _ Hsq)) as [r ->].
  now exists l, r.
Qed.

Lemma fin_concat m : fin_mat m -> fin_list (concat m).
Proof.
  intros H x Hx. apply in_concat in Hx as [row [Hr Hx]]. exact (H row Hr x Hx).
Qed.

Lemma np_roll_In {A} shift (l : list A) x : In x (np_roll shift l) -> In x l.
Proof.
  unfold np_roll. destruct l as [|a l]; [contradiction|].
  intros H. apply in_app_or in H as [H|H].
  - eapply skipn_In; eassumption.
  - eapply firstn_In; eassumption.
Qed.

Lemma fin_roll_axis0 shift m : fin_mat m -> fin_mat (roll_axis0 shift m).
Proof. intros H row Hr. apply H. eapply np_roll_In; eassumption. Qed.

Lemma fin_roll_axis1 shift m : fin_mat m -> fin_mat (roll_axis1 shift m).
Proof.
  intros H row Hr. apply in_map_iff in Hr as [r [<- Hr]].
  intros x Hx. apply (H r Hr). eapply np_roll_In; eassumption.
Qed.

Lemma fin_mat_map f m :
  (forall x, is_finite x -> is_finite (f x)) -> fin_mat m -> fin_mat (mat_map f m).
Proof.
  intros Hf H row Hr. apply in_map_iff in Hr as [r [<- Hr]].
  intros x Hx. apply in_map_iff in Hx as [y [<- Hy]]. apply Hf. exact (H r Hr y Hy).
Qed.

Lemma fin_mat_map2 f a b :
  (forall x y, is_finite x -> is_finite y -> is_finite (f x y)) ->
  fin_mat a -> fin_mat b -> fin_mat (mat_map2 f a b).
Proof.
  intros Hf Ha Hb row Hr. apply map2_In in Hr as (ra & rb & Hra & Hrb & ->).
  intros x Hx. apply map2_In in Hx as (u & v & Hu & Hv & ->).
  apply Hf; [exact (Ha ra Hra u Hu)|exact (Hb rb Hrb v Hv)].
Qed.

Lemma finite_fmul x y : is_finite x -> is_finite y -> is_finite (fmul x y).
Proof. intros [a ->] [b ->]. now eexists. Qed.

Lemma finite_fsub x y : is_finite x -> is_finite y -> is_finite (fsub x y).
Proof. intros [a ->] [b ->]. now eexists. Qed.

Lemma finite_square x : is_finite x -> is_finite (math_pow x 2).
Proof. intros [a ->]. now eexists. Qed.

Lemma fin_patch_at img p j i : fin_mat img -> fin_mat (patch_at img p j i).
Proof.
  intros H row Hr. unfold patch_at in Hr. apply in_map_iff in Hr as [r [<- Hr]].
  apply py_slice_In in Hr. intros x Hx. apply py_slice_In in Hx. exact (H r Hr x Hx).
Qed.

Lemma fin_tiles img p nh nw t : fin_mat img -> In t (tiles img p nh nw) -> fin_mat t.
Proof.
  intros H Ht. unfold tiles in Ht. apply in_flat_map in Ht as [a [_ Ht]].
  apply in_map_iff in Ht as [b [<- _]]. now apply fin_patch_at.
Qed.

Lemma finite_at0 m i j : fin_mat m -> is_finite (at0 m i j).
Proof.
  intros H. unfold at0. destruct ((0 <=? i) && (0 <=? j)); [|now exists 0%R].
  destruct (Nat.lt_ge_cases (Z.to_nat i) (length m)) as [Hi|Hi].
  - set (row := nth (Z.to_nat i) m []).
    destruct (Nat.lt_ge_cases (Z.to_nat j) (length row)) as [Hj|Hj].
    + apply (H row); [now apply nth_In|now apply nth_In].
    + rewrite nth_overflow by assumption. now exists 0%R.
  - rewrite (nth_overflow m) by assumption. destruct (Z.to_nat j); now exists 0%R.
Qed.

Lemma finite_nth l i : fin_list l -> is_finite (nth i l F0).
Proof.
  intros H. destruct (Nat.lt_ge_cases i (length l)) as [Hi|Hi].
  - apply H. now apply nth_In.
  - rewrite nth_overflow by assumption. now exists 0%R.
Qed.

(** What is assumed of [cv2.resize]: a finite image stays finite. *)
Definition resize_keeps_finite (resize_half : matrix -> lib_result matrix) : Prop :=
  forall m m2, fin_mat m -> resize_half m = Returns m2 -> fin_mat m2.

Section FiniteFeatures.

Variable strict : bool.
Variable Gamma : float -> float.
Hypothesis Gamma_pos : gamma_positive Gamma.

(** On a finite field every entry of the fit is finite. *)
Lemma aggd_features_finite patch :
  fin_list (concat patch) ->
  exists a N bl br l r,
    aggd_features strict Gamma patch = Ok (Fin a, Fin N, Fin bl, Fin br, Fin l, Fin r).
Proof.
  intros Hfin. unfold aggd_features. cbv zeta.
  destruct (aggd_scales_finite _ Hfin) as (l & r & ->).
  destruct (aggd_gamma_hat_ok strict (Fin l) (Fin r)) as [gh ->].
  destruct (aggd_r_hat_ok strict (concat patch)) as [rh ->]. cbn [bind].
  rewrite aggd_rhat_norm_ok. cbn [bind].
  match goal with |- context [aggd_alpha _ _ ?x] =>
    destruct (aggd_alpha_ok strict Gamma Gamma_pos x) as [a [-> [_ Ha]]] end.
  cbn [bind].
  destruct (gamma_at strict Gamma Gamma_pos a 1) as [g1 [E1 [G1 P1]]]; [lra..|].
  destruct (gamma_at strict Gamma Gamma_pos a 2) as [g2 [E2 [G2 P2]]]; [lra..|].
  destruct (gamma_at strict Gamma Gamma_pos a 3) as [g3 [E3 [G3 P3]]]; [lra..|].
  rewrite E1, E2, E3. cbn [bind]. rewrite G1, G2, G3.
  destruct (fsqrt_fin_pos g1 P1) as [S1 Q1].
  destruct (fsqrt_fin_pos g3 P3) as [S3 Q3].
  rewrite S1, S3. rewrite np_div_fin by lra. cbn [bind].
  rewrite np_div_fin by lra. cbn [bind fmul fsub fadd fneg].
  do 6 eexists. reflexivity.
Qed.

Lemma subband_feats_finite m :
  fin_mat m ->
  exists rl, _niqe_extract_subband_feats strict Gamma m = Ok (map Fin rl) /\
             length rl = 18%nat.
Proof.
  intros H. unfold _niqe_extract_subband_feats.
  destruct (aggd_features_finite m (fin_concat m H)) as (a0 & n0 & l0 & r0 & s0 & t0 & ->).
  cbn [bind]. unfold paired_product. cbv zeta.
  repeat match goal with
  | |- context [aggd_features strict Gamma ?p] =>
      let a := fresh "a" in let n := fresh "n" in let l := fresh "l" in
      let r := fresh "r" in let s := fresh "s" in let t := fresh "t" in
      destruct (aggd_features_finite p) as (a & n & l & r & s & t & ->);
      [apply fin_concat, fin_mat_map2;
         [exact finite_fmul
         |repeat first [apply fin_roll_axis1 | apply fin_roll_axis0]; exact H
         |exact H]
      |cbn [bind]]
  end.
  cbn [fadd]. rewrite fdiv_fin by lra.
  match goal with |- context [Ok [Fin ?x0; Fin ?x1; Fin ?x2; Fin ?x3; Fin ?x4; Fin ?x5;
                                  Fin ?x6; Fin ?x7; Fin ?x8; Fin ?x9; Fin ?x10; Fin ?x11;
                                  Fin ?x12; Fin ?x13; Fin ?x14; Fin ?x15; Fin ?x16;
                                  Fin ?x17]] =>
    exists [x0; x1; x2; x3; x4; x5; x6; x7; x8; x9; x10; x11; x12; x13; x14; x15; x16; x17]
  end.
  split; reflexivity.
Qed.

End FiniteFeatures.

Lemma resize_keeps_finite_fixture : resize_keeps_finite Fixture.resize_half.
Proof.
  intros m m2 Hm E. unfold Fixture.resize_half in E. destruct (shape m) as [h w].
  inversion E; subst m2. intros row Hr. unfold build in Hr.
  apply in_map_iff in Hr as [i [<- _]]. intros x Hx.
  apply in_map_iff in Hx as [j [<- _]]. now apply finite_at0.
Qed.

(** ** Images of 8-bit pixels *)

(** An image as [cv2.imdecode] gives it: every pixel a number from 0 to
    255. *)
Definition in_pixel_range (m : matrix) : Prop :=
  forall row x, In row m -> In x row -> exists r, x = Fin r /\ (0 <= r <= 255)%R.

Lemma pixel_range_finite m : in_pixel_range m -> fin_mat m.
Proof. intros H row Hr x Hx. destruct (H row x Hr Hx) as [r [-> _]]. now exists r. Qed.

Lemma pixel_range_zeros h w : in_pixel_range (Fixture.zeros h w).
Proof.
  intros row x Hr Hx. unfold Fixture.zeros, build in Hr, Hx.
  apply in_map_iff in Hr as [i [<- _]]. apply in_map_iff in Hx as [j [<- _]].
  exists 0%R. split; [reflexivity|lra].
Qed.

(** * The pipeline of [_get_patches_generic] *)

Lemma Forall2_In_r {A B} (P : A -> B -> Prop) l r b :
  Forall2 P l r -> In b r -> exists a, In a l /\ P a b.
Proof.
  induction 1 as [|x y l r Hxy _ IH]; simpl; [contradiction|].
  intros [<-|Hin]; [exists x; auto|].
  destruct (IH Hin) as [a [Ha Pa]]. exists a; auto.
Qed.

Lemma firstn_all_length {A} (l : list A) n : length l = n -> firstn n l = l.
Proof. intros <-. apply firstn_all. Qed.

Lemma has_shape_firstn m h w h' w' :
  has_shape m h w -> (h' <= h)%nat -> (w' <= w)%nat ->
  has_shape (map (firstn w') (firstn h' m)) h' w'.
Proof.
  intros [Hl Hrows] Hh Hw. split.
  - rewrite length_map, length_firstn. lia.
  - intros row Hin. apply in_map_iff in Hin as [r [<- Hr]].
    apply firstn_In in Hr. rewrite length_firstn, (Hrows r Hr). lia.
Qed.

(** The crop keeps the leading rows and columns. *)
Lemma crop_to_multiple_ok img p h w :
  has_shape img h w -> 0 < p -> p <= Z.of_nat h -> p <= Z.of_nat w ->
  crop_to_multiple img p
  = Ok (map (firstn (Z.to_nat (Z.of_nat w - Z.of_nat w mod p)))
            (firstn (Z.to_nat (Z.of_nat h - Z.of_nat h mod p)) img)).
Proof.
  intros Hs Hp Hh Hw. unfold crop_to_multiple.
  destruct (has_shape_rect _ _ _ Hs ltac:(lia)) as [_ ->].
  destruct Hs as [Hl Hrows].
  unfold py_mod. replace (p =? 0) with false by (symmetry; apply Z.eqb_neq; lia).
  cbn [bind].
  pose proof (Z.mod_pos_bound (Z.of_nat h) p Hp) as Bh.
  pose proof (Z.mod_pos_bound (Z.of_nat w) p Hp) as Bw.
  set (ho := Z.of_nat h mod p) in *. set (wo := Z.of_nat w mod p) in *.
  f_equal.
  assert (E1 : (if 0 <? ho then py_slice img 0 (- ho) else img)
               = firstn (Z.to_nat (Z.of_nat h - ho)) img).
  { destruct (0 <? ho) eqn:E.
    - apply Z.ltb_lt in E. rewrite py_slice_drop_last by lia. f_equal. lia.
    - apply Z.ltb_ge in E. symmetry. apply firstn_all_length. lia. }
  rewrite E1.
  destruct (0 <? wo) eqn:E.
  - apply Z.ltb_lt in E. apply map_ext_in. intros row Hin.
    apply firstn_In in Hin. rewrite py_slice_drop_last by (rewrite (Hrows row Hin); lia).
    f_equal. rewrite (Hrows row Hin). lia.
  - apply Z.ltb_ge in E. rewrite <- (map_id (firstn _ img)) at 1.
    apply map_ext_in. intros row Hin. apply firstn_In in Hin.
    symmetry. apply firstn_all_length. rewrite (Hrows row Hin). lia.
Qed.

Lemma crop_entry img h' w' r c :
  0 <= r < Z.of_nat h' -> 0 <= c < Z.of_nat w' ->
  at0 (map (firstn w') (firstn h' img)) r c = at0 img r c.
Proof.
  intros Hr Hc. unfold at0.
  replace ((0 <=? r) && (0 <=? c)) with true
    by (symmetry; apply andb_true_intro; split; lia).
  destruct (Nat.lt_ge_cases (Z.to_nat r) (length (firstn h' img))) as [Hlt|Hge].
  - rewrite (nth_indep _ [] (firstn w' [])) by now rewrite length_map.
    rewrite (map_nth (firstn w')). rewrite !nth_firstn.
    replace (Z.to_nat c <? w')%nat with true by (symmetry; apply Nat.ltb_lt; lia).
    replace (Z.to_nat r <? h')%nat with true by (symmetry; apply Nat.ltb_lt; lia).
    reflexivity.
  - rewrite (nth_overflow (map _ _)) by now rewrite length_map.
    rewrite length_firstn in Hge.
    rewrite (nth_overflow img) by lia. reflexivity.
Qed.

Lemma fin_crop img h' w' : fin_mat img -> fin_mat (map (firstn w') (firstn h' img)).
Proof.
  intros H row Hr. apply in_map_iff in Hr as [r [<- Hr]]. apply firstn_In in Hr.
  intros x Hx. apply firstn_In in Hx. exact (H r Hr x Hx).
Qed.

Section Pipeline.

Variable strict : bool.
Variable Gamma : float -> float.
Hypothesis Gamma_pos : gamma_positive Gamma.

Lemma subband_feats_ok m :
  exists feats, _niqe_extract_subband_feats strict Gamma m = Ok feats /\
                length feats = 18%nat.
Proof.
  unfold _niqe_extract_subband_feats.
  destruct (aggd_features_ok strict Gamma Gamma_pos m) as (a0 & n0 & l0 & r0 & -> & _).
  cbn [bind]. destruct (paired_product m) as [[[p1 p2] p3] p4].
  destruct (aggd_features_ok strict Gamma Gamma_pos p1) as (a1 & n1 & l1 & r1 & -> & _).
  destruct (aggd_features_ok strict Gamma Gamma_pos p2) as (a2 & n2 & l2 & r2 & -> & _).
  destruct (aggd_features_ok strict Gamma Gamma_pos p3) as (a3 & n3 & l3 & r3 & -> & _).
  destruct (aggd_features_ok strict Gamma Gamma_pos p4) as (a4 & n4 & l4 & r4 & -> & _).
  cbn [bind]. eexists. split; reflexivity.
Qed.

Lemma features_of_patches_ok patches :
  exists feats, mapM (_niqe_extract_subband_feats strict Gamma) patches = Ok feats /\
                length feats = length patches /\
                (forall row, In row feats -> length row = 18%nat) /\
                ((forall t, In t patches -> fin_mat t) -> fin_mat feats).
Proof.
  destruct (mapM_ok (_niqe_extract_subband_feats strict Gamma) patches)
    as [feats [E Hall]].
  { intros m _. destruct (subband_feats_ok m) as [f [Hf _]]. now exists f. }
  exists feats. split; [exact E|]. split; [|split].
  - eapply Forall2_length_eq; eassumption.
  - intros row Hin. destruct (Forall2_In_r _ _ _ _ Hall Hin) as [m [_ Hm]].
    destruct (subband_feats_ok m) as [f [Hf Hlen]]. congruence.
  - intros Hfin row Hin. destruct (Forall2_In_r _ _ _ _ Hall Hin) as [m [Hmin Hm]].
    destruct (subband_feats_finite strict Gamma Gamma_pos m (Hfin m Hmin)) as [rl [Hrl _]].
    rewrite Hrl in Hm. inversion Hm; subst row. apply fin_lift_vec.
Qed.

Lemma extract_on_patches_ok img p h w :
  0 < p -> has_shape img h w -> (0 < h)%nat ->
  exists feats,
    extract_on_patches strict Gamma img p = Ok feats /\
    length feats = (Z.to_nat (Z.of_nat h / p) * Z.to_nat (Z.of_nat w / p))%nat /\
    (forall row, In row feats -> length row = 18%nat) /\
    (fin_mat img -> fin_mat feats).
Proof.
  intros Hp Hs Hh. unfold extract_on_patches.
  rewrite (collect_patches_tiles img p h w) by assumption. cbn [bind].
  destruct (features_of_patches_ok
              (tiles img p (Z.to_nat (Z.of_nat h / p)) (Z.to_nat (Z.of_nat w / p))))
    as (feats & E & L & R & F).
  exists feats. split; [exact E|]. split; [|split; [exact R|]].
  - now rewrite L, tiles_length.
  - intros Hfin. apply F. intros t Ht. eapply fin_tiles; eassumption.
Qed.

(** The divisor [var_image + 1] of the MSCN transform is never zero. *)
Lemma mscn_divisor_nonzero x : feq (fadd (fsqrt (fabs x)) F1) F0 = false.
Proof.
  destruct x as [r| | |]; simpl; try reflexivity.
  destruct (Rlt_dec (Rabs r) 0) as [H|H]; simpl; [reflexivity|].
  apply feq_fin_false. pose proof (sqrt_pos (Rabs r)). lra.
Qed.

Lemma mscn_divisor_finite x :
  is_finite x -> exists r, fadd (fsqrt (fabs x)) F1 = Fin r /\ r <> 0%R.
Proof.
  intros [a ->]. cbn [fabs]. rewrite fsqrt_nonneg by apply Rabs_pos.
  eexists. split; [reflexivity|]. pose proof (sqrt_pos (Rabs a)). lra.
Qed.

Lemma divide_rows num den h w :
  has_shape num h w -> has_shape den h w ->
  (forall drow d, In drow den -> In d drow -> feq d F0 = false) ->
  exists r,
    mapM (fun '(nrow, drow) =>
            mapM (fun '(n, d) => np_div strict n d) (combine nrow drow))
         (combine num den) = Ok r /\
    has_shape r h w /\
    (fin_mat num ->
     (forall drow d, In drow den -> In d drow -> exists x, d = Fin x /\ x <> 0%R) ->
     fin_mat r).
Proof.
  intros [Ln Rn] [Ld Rd] Hnz.
  match goal with |- context [mapM ?f _] =>
    destruct (mapM_ok f (combine num den)) as [r [E Hall]] end.
  - intros [nrow drow] Hin. apply in_combine_r in Hin as Hd.
    match goal with |- context [mapM ?f _] =>
      destruct (mapM_ok f (combine nrow drow)) as [row [Er _]] end.
    + intros [n d] Hnd. apply in_combine_r in Hnd.
      rewrite np_div_ok by (eapply Hnz; eassumption). eexists; reflexivity.
    + now exists row.
  - exists r. split; [exact E|]. split; [split|].
    + rewrite (Forall2_length_eq _ _ _ Hall), length_combine. lia.
    + intros row Hin. destruct (Forall2_In_r _ _ _ _ Hall Hin) as [[nrow drow] [Hnd Hrow]].
      apply mapM_length in Hrow. rewrite Hrow, length_combine.
      apply in_combine_l in Hnd as Hn. apply in_combine_r in Hnd as Hd.
      rewrite (Rn _ Hn), (Rd _ Hd). lia.
    + intros Hfn Hfd row Hin.
      destruct (Forall2_In_r _ _ _ _ Hall Hin) as [[nrow drow] [Hnd Hrow]].
      apply in_combine_l in Hnd as Hn. apply in_combine_r in Hnd as Hd.
      apply mapM_ok_inv in Hrow. intros x Hx.
      destruct (Forall2_In_r _ _ _ _ Hrow Hx) as [[a b] [Hab Hdiv]].
      apply in_combine_l in Hab as Ha. apply in_combine_r in Hab as Hb.
      destruct (Hfn nrow Hn a Ha) as [ra ->].
      destruct (Hfd drow b Hd Hb) as [rb [-> Hrb]].
      rewrite np_div_fin in Hdiv by assumption. inversion Hdiv. now eexists.
Qed.

Lemma default_window :
  exists win, gen_gauss_window strict 3 (Fin (7 / 6)) = Ok win /\ win <> [] /\
              fin_list win.
Proof.
  exists (map Fin (gauss_window (7 / 6) 3)). split; [|split].
  - change 3 with (Z.of_nat 3). apply gen_gauss_window_eq. lra.
  - unfold gauss_window. destruct (rev (gauss_taps (7 / 6) 3)); discriminate.
  - apply fin_lift_vec.
Qed.

Lemma correlate1d_ok input win axis h w :
  win <> [] -> has_shape input h w -> (0 < h)%nat ->
  exists out, correlate1d input win axis = Ok out /\ has_shape out h w /\
              (fin_list win -> fin_mat input -> fin_mat out).
Proof.
  intros Hwin Hs Hh. unfold correlate1d. destruct win as [|x win]; [congruence|].
  eexists. split; [reflexivity|]. split.
  - rewrite (has_shape_hd _ _ _ Hs Hh). destruct Hs as [-> _]. apply has_shape_build.
  - intros Hw Hi row Hr. unfold build in Hr. apply in_map_iff in Hr as [i [<- _]].
    intros y Hy. apply in_map_iff in Hy as [c [<- _]].
    apply fsum_finite. intros z Hz. apply in_map_iff in Hz as [j [<- _]].
    apply finite_fmul; [now apply finite_nth|destruct axis; now apply finite_at0].
Qed.

(** The MSCN transform returns and keeps the shape of its input. *)
Lemma mscn_ok img h w :
  has_shape img h w -> (0 < h)%nat ->
  exists mscn var_image mu_image,
    compute_image_mscn_transform strict img F1 None = Ok (mscn, var_image, mu_image) /\
    has_shape mscn h w /\ (fin_mat img -> fin_mat mscn).
Proof.
  intros Hs Hh. unfold compute_image_mscn_transform.
  destruct default_window as [win [-> [Hwin Fwin]]]. cbn [bind].
  destruct (correlate1d_ok img win 0 h w Hwin Hs Hh) as [mu0 [-> [Hmu0 Fmu0]]]. cbn [bind].
  destruct (correlate1d_ok mu0 win 1 h w Hwin Hmu0 Hh) as [mu [-> [Hmu Fmu]]]. cbn [bind].
  destruct (correlate1d_ok (mat_map (fun x => math_pow x 2) img) win 0 h w Hwin
              (has_shape_map _ _ _ _ Hs) Hh) as [v0 [-> [Hv0 Fv0]]]. cbn [bind].
  destruct (correlate1d_ok v0 win 1 h w Hwin Hv0 Hh) as [v [-> [Hv Fv]]]. cbn [bind].
  cbv zeta.
  set (pre := mat_map2 fsub v (mat_map (fun x => math_pow x 2) mu)).
  set (var := mat_map (fun x => fsqrt (fabs x)) pre).
  assert (Hvar : has_shape var h w).
  { apply has_shape_map, has_shape_map2; [assumption|now apply has_shape_map]. }
  destruct (divide_rows (mat_map2 fsub img mu) (mat_map (fun v => fadd v F1) var) h w)
    as [mscn [E [Hm Fm]]].
  - now apply has_shape_map2.
  - now apply has_shape_map.
  - intros drow d Hdrow Hd. unfold mat_map in Hdrow.
    apply in_map_iff in Hdrow as [vrow [<- Hvrow]].
    apply in_map_iff in Hd as [x [<- Hx]].
    unfold var, mat_map in Hvrow. apply in_map_iff in Hvrow as [yrow [<- Hyrow]].
    apply in_map_iff in Hx as [y [<- Hy]]. apply mscn_divisor_nonzero.
  - rewrite E. cbn [bind]. do 3 eexists. split; [reflexivity|]. split; [exact Hm|].
    intros Hfin.
    assert (Fmu' : fin_mat mu) by (apply Fmu; [assumption|now apply Fmu0]).
    assert (Fv' : fin_mat v).
    { apply Fv; [assumption|]. apply Fv0; [assumption|].
      apply fin_mat_map; [exact finite_square|assumption]. }
    assert (Fpre : fin_mat pre).
    { apply fin_mat_map2; [exact finite_fsub|assumption|].
      apply fin_mat_map; [exact finite_square|assumption]. }
    apply Fm.
    + apply fin_mat_map2; [exact finite_fsub|assumption|assumption].
    + intros drow d Hdrow Hd. unfold mat_map in Hdrow.
      apply in_map_iff in Hdrow as [vrow [<- Hvrow]].
      apply in_map_iff in Hd as [x [<- Hx]].
      unfold var, mat_map in Hvrow. apply in_map_iff in Hvrow as [yrow [<- Hyrow]].
      apply in_map_iff in Hx as [y [<- Hy]].
      apply mscn_divisor_finite. exact (Fpre yrow Hyrow y Hy).
Qed.

End Pipeline.

(** The stand-in for [cv2.resize] halves the shape as OpenCV does. *)
Lemma resize_halves_shape_fixture : resize_halves_shape Fixture.resize_half.
Proof.
  intros m h w Hr Hs Hh Hw. unfold Fixture.resize_half. rewrite Hs.
  eexists. split; [reflexivity|].
  pose proof (has_shape_build (Z.to_nat (cv_round_half h)) (Z.to_nat (cv_round_half w))
                (fun i j => at0 m (2 * Z.of_nat i) (2 * Z.of_nat j))) as Hb.
  destruct (has_shape_rect _ _ _ Hb ltac:(lia)) as [Hrect Hshape].
  split; [exact Hrect|]. rewrite Hshape. f_equal; lia.
Qed.

Lemma first_fitting_none l w h :
  (forall c, In c l -> ~ fits c w h) -> first_fitting l w h = -1.
Proof.
  induction l as [|c l IH]; simpl; intros Hn; [reflexivity|].
  destruct (c * 2 + 1 <? w) eqn:E1; destruct (c * 2 + 1 <? h) eqn:E2; simpl;
    try (apply IH; intros; apply Hn; now right).
  exfalso. apply (Hn c); [now left|]. split; lia.
Qed.

Lemma first_fitting_some l w h :
  StronglySorted Z.ge l ->
  (exists c, In c l /\ fits c w h) ->
  let p := first_fitting l w h in
  In p l /\ fits p w h /\ forall c, In c l -> fits c w h -> c <= p.
Proof.
  induction 1 as [|c l Hs IH Hall]; simpl; intros [c0 [Hin Hf]]; [contradiction|].
  destruct ((c * 2 + 1 <? w) && (c * 2 + 1 <? h)) eqn:E.
  - apply andb_prop in E as [E1 E2].
    split; [now left|]. split; [split; lia|].
    intros d [->|Hd] _; [lia|].
    rewrite Forall_forall in Hall. specialize (Hall d Hd). lia.
  - assert (Hc : ~ fits c w h).
    { intros [A B]. apply andb_false_iff in E as [E|E]; lia. }
    destruct Hin as [->|Hin]; [contradiction|].
    destruct IH as (I1 & I2 & I3); [now exists c0|].
    split; [now right|]. split; [assumption|].
    intros d [->|Hd] Hfd; [contradiction|]. now apply I3.
Qed.

Lemma patch_sizes_descending : StronglySorted Z.ge patch_sizes.
Proof.
  unfold patch_sizes.
  repeat (constructor; [|repeat (constructor; try lia)]). constructor.
Qed.

Lemma py_assert_ok b u : py_assert b = Ok u -> b = true.
Proof. unfold py_assert. destruct b; [reflexivity|discriminate]. Qed.

Lemma shape_nonneg m M N : shape m = (M, N) -> 0 <= M /\ 0 <= N.
Proof. unfold shape. intros H; inversion H; subst. split; lia. Qed.

Section Scoring.

Variable strict : bool.
Variable Gamma : float -> float.
Variable resize_half : matrix -> lib_result matrix.
Variable bgr2gray : list float -> lib_result float.
Variable loadmat : string -> lib_result mat_params.
Variable pinv : matrix -> lib_result matrix.

Local Abbreviation niqe_score' := (niqe_score strict Gamma resize_half bgr2gray pinv).
Local Abbreviation niqe' := (niqe strict Gamma resize_half bgr2gray loadmat pinv).

Lemma no_exit_two_scales img p :
  (p <=? fst (shape img)) && (p <=? snd (shape img)) = true ->
  no_exit (feats_two_scales strict Gamma resize_half img p).
Proof.
  unfold feats_two_scales. destruct (shape img) as [h w]. simpl. intros H.
  apply andb_prop in H as [H1 H2].
  replace ((h <? p) || (w <? p)) with false
    by (symmetry; apply orb_false_iff; split; lia).
  repeat first [apply no_exit_crop | apply no_exit_mscn | apply no_exit_extract
               | no_exit_step].
Qed.

Lemma no_exit_niqe_score self img : no_exit (niqe_score' self img).
Proof.
  unfold niqe_score.
  apply no_exit_bind; [apply no_exit_to_gray|]. intros m _.
  destruct (shape m) as [M N] eqn:Hs.
  apply no_exit_bind.
  { unfold resolve_patch_size. destruct (patch_size self);
      [apply no_exit_auto | apply no_exit_ok]. }
  intros p _.
  apply no_exit_bind; [apply no_exit_assert|]. intros u1 A1.
  apply no_exit_bind; [apply no_exit_assert|]. intros u2 A2.
  apply py_assert_ok in A1, A2. apply shape_nonneg in Hs as Hnn.
  apply no_exit_bind.
  { unfold get_patches_test_features, _get_patches_generic.
    apply no_exit_bind.
    - apply no_exit_two_scales. rewrite Hs. simpl.
      apply andb_true_intro; split; lia.
    - intros [f1 f2] _. apply no_exit_hstack. }
  intros feats _.
  unfold niqe_distance, vec_map2, mat_bcast2, dot_vec_mat, dot_vec_vec. no_exit_tac.
Qed.

Lemma no_exit_niqe self img : no_exit (fst (niqe' self img)).
Proof.
  unfold niqe. pose proof (no_exit_load loadmat self) as Hl.
  destruct (load_params loadmat self) as [s'|e|c]; simpl.
  - apply no_exit_niqe_score.
  - apply no_exit_raise.
  - now destruct (Hl c).
Qed.

Lemma load_params_patch_size self self' :
  load_params loadmat self = Ok self' -> patch_size self' = patch_size self.
Proof.
  unfold load_params. destruct (params self).
  - intros H; inversion H; reflexivity.
  - destruct (loadmat (params_path self)); simpl; [|discriminate].
    intros H; inversion H; reflexivity.
Qed.

Lemma load_params_idem self self' :
  load_params loadmat self = Ok self' -> load_params loadmat self' = Ok self'.
Proof.
  unfold load_params at 1. destruct (params self) eqn:E.
  - intros H; inversion H; subst. unfold load_params. now rewrite E.
  - destruct (loadmat (params_path self)); simpl; [|discriminate].
    intros H; inversion H; subst. reflexivity.
Qed.

Lemma load_params_cached self :
  params self <> None -> load_params loadmat self = Ok self.
Proof. unfold load_params. destruct (params self); [reflexivity|congruence]. Qed.

(** A call that does not get past the size checks. *)
Lemma niqe_score_small self m M N :
  shape m = (M, N) ->
  (forall p, resolve_patch_size self M N = Ok p -> ~ (p * 2 + 1 < M /\ p * 2 + 1 < N)) ->
  niqe_score' self (Gray m) = Raise AssertionError.
Proof.
  intros Hs Hsmall. unfold niqe_score, to_gray. cbn [bind]. rewrite Hs.
  pose proof (@no_exit_auto N M) as Hne.
  destruct (resolve_patch_size self M N) as [p|e|c] eqn:E; simpl.
  - specialize (Hsmall p eq_refl).
    destruct (p * 2 + 1 <? M) eqn:E1; simpl; [|reflexivity].
    destruct (p * 2 + 1 <? N) eqn:E2; simpl; [|reflexivity].
    exfalso. apply Hsmall. split; lia.
  - unfold resolve_patch_size in E. destruct (patch_size self); [|discriminate].
    unfold get_auto_patch_size in E.
    destruct ((18 <=? N) && (18 <=? M)); [discriminate|]. now inversion E.
  - unfold resolve_patch_size in E. destruct (patch_size self); [|discriminate].
    now destruct (Hne c).
Qed.

End Scoring.

Section ScoringClaims.

Variable strict : bool.
Variable Gamma : float -> float.
Variable resize_half : matrix -> lib_result matrix.
Variable bgr2gray : list float -> lib_result float.
Variable loadmat : string -> lib_result mat_params.
Variable pinv : matrix -> lib_result matrix.

Local Abbreviation niqe' := (niqe strict Gamma resize_half bgr2gray loadmat pinv).

Lemma niqe_small_raises self img m M N :
  to_gray bgr2gray img = Ok m -> shape m = (M, N) ->
  (forall p, resolve_patch_size self M N = Ok p -> ~ fits p M N) ->
  (forall s1, load_params loadmat self = Ok s1 ->
     niqe' self img = (Raise AssertionError, s1)) /\
  (forall e, load_params loadmat self = Raise e -> niqe' self img = (Raise e, self)).
Proof.
  intros Hg Hs Hsmall. unfold niqe. split.
  - intros s1 E. rewrite E. f_equal.
    unfold niqe_score. rewrite Hg. cbn [bind]. rewrite Hs.
    pose proof (@no_exit_auto N M) as Hne.
    assert (Hps : resolve_patch_size s1 M N = resolve_patch_size self M N).
    { unfold resolve_patch_size. now rewrite (load_params_patch_size _ _ _ E). }
    rewrite Hps.
    destruct (resolve_patch_size self M N) as [p|e|c] eqn:E0; simpl.
    + specialize (Hsmall p eq_refl).
      destruct (p * 2 + 1 <? M) eqn:E1; simpl; [|reflexivity].
      destruct (p * 2 + 1 <? N) eqn:E2; simpl; [|reflexivity].
      exfalso. apply Hsmall. split; lia.
    + unfold resolve_patch_size in E0. destruct (patch_size self); [|discriminate].
      unfold get_auto_patch_size in E0.
      destruct ((18 <=? N) && (18 <=? M)); [discriminate|]. now inversion E0.
    + unfold resolve_patch_size in E0. destruct (patch_size self); [|discriminate].
      now destruct (Hne c).
  - intros e E. now rewrite E.
Qed.

Lemma niqe_state self img :
  (forall s1, load_params loadmat self = Ok s1 -> snd (niqe' self img) = s1) /\
  (forall e, load_params loadmat self = Raise e -> snd (niqe' self img) = self).
Proof. unfold niqe. split; intros x E; now rewrite E. Qed.

Lemma niqe_after self img img2 :
  niqe' (snd (niqe' self img)) img2 = niqe' self img2.
Proof.
  pose proof (no_exit_load loadmat self) as Hne.
  unfold niqe at 2 3.
  destruct (load_params loadmat self) as [s1|e|c] eqn:E; simpl.
  - unfold niqe. now rewrite (load_params_idem _ _ _ E).
  - unfold niqe. now rewrite E.
  - now destruct (Hne c).
Qed.

(** Claim C5.  In automatic mode the resolved patch size is the largest
    candidate of the descending list 96, 64, 48, 32, 16, 8 for which both
    image dimensions strictly exceed [2 * candidate + 1]; one is found
    whenever a candidate qualifies, and when none does the resolution raises
    an assertion error and the scoring call fails. *)
Theorem auto_patch_size_is_largest_fitting self img m M N :
  patch_size self = Auto ->
  to_gray bgr2gray img = Ok m -> shape m = (M, N) ->
  (forall p, resolve_patch_size self M N = Ok p ->
     In p patch_sizes /\ fits p N M /\
     forall c, In c patch_sizes -> fits c N M -> c <= p) /\
  ((exists c, In c patch_sizes /\ fits c N M) ->
     exists p, resolve_patch_size self M N = Ok p) /\
  ((forall c, In c patch_sizes -> ~ fits c N M) ->
     resolve_patch_size self M N = Raise AssertionError /\
     is_raise (fst (niqe' self img))).
Proof.
  intros Hauto Hg Hs.
  assert (Hr : resolve_patch_size self M N = get_auto_patch_size N M).
  { unfold resolve_patch_size. now rewrite Hauto. }
  rewrite Hr. unfold get_auto_patch_size.
  assert (H8 : In 8 patch_sizes) by (unfold patch_sizes; simpl; tauto).
  split; [|split].
  - intros p Hp.
    destruct ((18 <=? N) && (18 <=? M)) eqn:E; [|discriminate].
    apply andb_prop in E as [E1 E2]. inversion Hp; subst p; clear Hp.
    apply (first_fitting_some _ _ _ patch_sizes_descending).
    exists 8. split; [assumption|]. unfold fits. lia.
  - intros [c [Hc [F1 F2]]].
    assert (8 <= c) by (unfold patch_sizes in Hc; simpl in Hc; lia).
    replace ((18 <=? N) && (18 <=? M)) with true
      by (symmetry; apply andb_true_intro; split; lia).
    eexists; reflexivity.
  - intros Hnone.
    assert (Hraise : (if (18 <=? N) && (18 <=? M)
                      then Ok (first_fitting patch_sizes N M)
                      else Raise AssertionError) = Raise AssertionError).
    { destruct ((18 <=? N) && (18 <=? M)) eqn:E; [|reflexivity].
      apply andb_prop in E as [E1 E2]. exfalso.
      apply (Hnone 8 H8). unfold fits. lia. }
    split; [exact Hraise|].
    assert (Hsmall : forall p, resolve_patch_size self M N = Ok p -> ~ fits p M N).
    { intros p Hp. rewrite Hr in Hp. unfold get_auto_patch_size in Hp.
      rewrite Hraise in Hp. discriminate. }
    destruct (niqe_small_raises self img _ _ _ Hg Hs Hsmall) as [A B].
    pose proof (no_exit_load loadmat self) as Hne.
    destruct (load_params loadmat self) as [s1|e|c] eqn:E.
    + rewrite (A s1 eq_refl). now exists AssertionError.
    + rewrite (B e eq_refl). now exists e.
    + now destruct (Hne c).
Qed.

(** Claim C6.  Scoring fails whenever an image dimension does not strictly
    exceed [2 * p + 1] for the resolved patch size [p] (with an assertion
    error once the parameters are loaded).  The failure leaves the scorer's
    state as a successful load leaves it, unchanged if the parameters were
    cached already, and a later call behaves as if the failed one had never
    happened. *)
Theorem too_small_image_fails_atomically self img m M N :
  to_gray bgr2gray img = Ok m -> shape m = (M, N) ->
  (forall p, resolve_patch_size self M N = Ok p ->
     M <= 2 * p + 1 \/ N <= 2 * p + 1) ->
  is_raise (fst (niqe' self img)) /\
  (is_ok (load_params loadmat self) -> fst (niqe' self img) = Raise AssertionError) /\
  (params self <> None -> snd (niqe' self img) = self) /\
  (forall s1, load_params loadmat self = Ok s1 -> snd (niqe' self img) = s1) /\
  (forall img2, niqe' (snd (niqe' self img)) img2 = niqe' self img2).
Proof.
  intros Hg Hs Hsmall.
  assert (Hsmall' : forall p, resolve_patch_size self M N = Ok p -> ~ fits p M N).
  { intros p Hp [A B]. destruct (Hsmall p Hp); lia. }
  destruct (niqe_small_raises self img _ _ _ Hg Hs Hsmall') as [A B].
  pose proof (no_exit_load loadmat self) as Hne.
  split; [|split; [|split; [|split]]].
  - destruct (load_params loadmat self) as [s1|e|c] eqn:E.
    + rewrite (A s1 eq_refl). now exists AssertionError.
    + rewrite (B e eq_refl). now exists e.
    + now destruct (Hne c).
  - intros [s1 E]. now rewrite (A s1 E).
  - intros Hc. rewrite (A self (load_params_cached loadmat self Hc)). reflexivity.
  - intros s1 E. now rewrite (A s1 E).
  - intros img2. apply niqe_after.
Qed.

(** A scoring call never terminates the process: [niqe] returns a score or
    raises an exception.  An image that is too small raises, and the
    patch-size resolution never yields the sentinel -1. *)
Lemma scoring_failure_is_an_exception self img :
  no_exit (fst (niqe' self img)) /\
  (is_ok (fst (niqe' self img)) \/ is_raise (fst (niqe' self img))) /\
  (forall m M N,
     to_gray bgr2gray img = Ok m -> shape m = (M, N) ->
     (forall p, resolve_patch_size self M N = Ok p ->
        M <= 2 * p + 1 \/ N <= 2 * p + 1) ->
     is_raise (fst (niqe' self img))) /\
  (forall img_w img_h p, get_auto_patch_size img_w img_h = Ok p -> p <> -1).
Proof.
  pose proof (no_exit_niqe strict Gamma resize_half bgr2gray loadmat pinv self img) as Hne.
  split; [exact Hne|]. split; [|split].
  - destruct (fst (niqe' self img)) as [x|e|c].
    + left. now exists x.
    + right. now exists e.
    + now destruct (Hne c).
  - intros m M N Hg Hs Hsmall.
    assert (Hsmall' : forall p, resolve_patch_size self M N = Ok p -> ~ fits p M N).
    { intros p Hp [A B]. destruct (Hsmall p Hp); lia. }
    destruct (niqe_small_raises self img _ _ _ Hg Hs Hsmall') as [A B].
    pose proof (no_exit_load loadmat self) as Hl.
    destruct (load_params loadmat self) as [s1|e|c] eqn:E.
    + rewrite (A s1 eq_refl). now exists AssertionError.
    + rewrite (B e eq_refl). now exists e.
    + now destruct (Hl c).
  - intros w h p. unfold get_auto_patch_size.
    destruct ((18 <=? w) && (18 <=? h)) eqn:E; [|discriminate].
    apply andb_prop in E as [E1 E2]. intros Hp; inversion Hp; subst p.
    assert (H8 : exists c, In c patch_sizes /\ fits c w h).
    { exists 8. split; [unfold patch_sizes; simpl; tauto|unfold fits; lia]. }
    destruct (first_fitting_some _ _ _ patch_sizes_descending H8) as [Hin _].
    unfold patch_sizes in Hin at 2. simpl in Hin. lia.
Qed.

End ScoringClaims.

(** Called on its own, outside [niqe], the feature extraction leaves the
    process on an image smaller than the patch; the size assertions of [niqe]
    keep a scoring call away from this branch. *)
Remark get_patches_generic_exits strict Gamma resize_half img p is_train stride H W :
  shape img = (H, W) -> H < p \/ W < p ->
  _get_patches_generic strict Gamma resize_half img p is_train stride = Exit 0.
Proof.
  intros Hs Hsmall. unfold _get_patches_generic, feats_two_scales. rewrite Hs.
  replace ((H <? p) || (W <? p)) with true; [reflexivity|].
  symmetry. apply orb_true_iff. destruct Hsmall; [left|right]; now apply Z.ltb_lt.
Qed.

Lemma auto_patch_size_witness :
  resolve_patch_size (init Auto "params.mat") 10 10 = Raise AssertionError /\
  is_raise (fst (niqe false Fixture.gamma Fixture.resize_half Fixture.bgr2gray
                   Fixture.loadmat Fixture.pinv
                   (init Auto "params.mat") (Gray (Fixture.zeros 10 10)))).
Proof.
  apply (auto_patch_size_is_largest_fitting false Fixture.gamma Fixture.resize_half
           Fixture.bgr2gray Fixture.loadmat Fixture.pinv
           (init Auto "params.mat") (Gray (Fixture.zeros 10 10))
           (Fixture.zeros 10 10) 10 10 eq_refl eq_refl eq_refl).
  intros c Hc [A B]. unfold patch_sizes in Hc. simpl in Hc. lia.
Defined.

Lemma too_small_image_witness :
  fst (niqe false Fixture.gamma Fixture.resize_half Fixture.bgr2gray
         Fixture.loadmat Fixture.pinv
         (init (Fixed 8) "params.mat") (Gray (Fixture.zeros 10 30)))
  = Raise AssertionError.
Proof.
  refine (proj1 (proj2 (too_small_image_fails_atomically false Fixture.gamma
           Fixture.resize_half Fixture.bgr2gray Fixture.loadmat Fixture.pinv
           (init (Fixed 8) "params.mat") (Gray (Fixture.zeros 10 30))
           (Fixture.zeros 10 30) 10 30 eq_refl eq_refl _)) _).
  - intros p Hp. inversion Hp; subst p. left. lia.
  - eexists. reflexivity.
Defined.

(** * Degenerate fields *)

Lemma fsum_zeros_from n a :
  fold_left fadd (repeat (Fin (0 * 0)) n) (Fin a) = Fin a.
Proof.
  revert a; induction n as [|n IH]; intros a; simpl; [reflexivity|].
  rewrite IH. f_equal. lra.
Qed.

Lemma map2_fmul_zeros n :
  map2 fmul (repeat F0 n) (repeat F0 n) = repeat (Fin (0 * 0)) n.
Proof. induction n as [|n IH]; simpl; [reflexivity|now rewrite IH]. Qed.

Lemma flt_zero : flt F0 F0 = false.
Proof. simpl. destruct (Rlt_dec 0 0); [lra|reflexivity]. Qed.

Lemma fge_zero : fge F0 F0 = true.
Proof. simpl. destruct (Rle_dec 0 0); [reflexivity|lra]. Qed.

Lemma select_left_zeros n (l : list float) :
  length l = n -> np_select (map (fun x => flt x F0) (repeat F0 n)) l = [].
Proof.
  revert l; induction n as [|n IH]; intros [|x l] H; cbn [repeat map np_select];
    try reflexivity; try discriminate.
  rewrite flt_zero. apply IH. cbn [length] in H. congruence.
Qed.

Lemma select_right_zeros n (l : list float) :
  length l = n -> np_select (map (fun x => fge x F0) (repeat F0 n)) l = l.
Proof.
  revert l; induction n as [|n IH]; intros [|x l] H; cbn [repeat map np_select];
    try reflexivity; try discriminate.
  rewrite fge_zero. f_equal. apply IH. cbn [length] in H. congruence.
Qed.

Lemma np_mean_zeros n : (0 < n)%nat -> np_mean (repeat (Fin (0 * 0)) n) = F0.
Proof.
  intros Hn. unfold np_mean, fsum, F0. rewrite fsum_zeros_from, repeat_length.
  unfold of_Z. rewrite fdiv_fin.
  - f_equal. unfold Rdiv. ring.
  - apply not_0_IZR. lia.
Qed.

Lemma all_zero_repeat (patch : list float) :
  (forall x, In x patch -> x = F0) -> patch = repeat F0 (length patch).
Proof.
  induction patch as [|x l IH]; simpl; intros H; [reflexivity|].
  rewrite (H x) by now left. f_equal. apply IH. intros; apply H; now right.
Qed.

Lemma fsqrt_zero : fsqrt F0 = F0.
Proof.
  unfold fsqrt, F0. destruct (Rlt_dec 0 0); [lra|]. now rewrite sqrt_0.
Qed.

(** An all-zero field has both scales zero. *)
Lemma aggd_scales_zeros patch :
  (forall x, In x patch -> x = F0) -> aggd_scales patch = (F0, F0).
Proof.
  intros H. rewrite (all_zero_repeat _ H). set (n := length patch).
  unfold aggd_scales. cbv zeta. rewrite map2_fmul_zeros.
  rewrite select_left_zeros, select_right_zeros by apply repeat_length.
  cbn [length]. rewrite repeat_length.
  replace (0 <? Z.of_nat 0) with false by reflexivity.
  destruct (0 <? Z.of_nat n) eqn:E; [|reflexivity].
  rewrite np_mean_zeros by lia. now rewrite fsqrt_zero.
Qed.

Lemma aggd_r_hat_zeros strict patch :
  (forall x, In x patch -> x = F0) -> patch <> [] -> aggd_r_hat strict patch = Ok PInf.
Proof.
  intros H Hne. rewrite (all_zero_repeat _ H). unfold aggd_r_hat. cbv zeta.
  rewrite map2_fmul_zeros, np_mean_zeros.
  - unfold fne. now rewrite feq_fin_zero.
  - destruct patch; [congruence|simpl; lia].
Qed.

(** With an infinite [gamma_hat] the normalisation is [inf / inf]. *)
Lemma aggd_rhat_norm_inf r : aggd_rhat_norm PInf r = Ok NaN.
Proof. rewrite aggd_rhat_norm_ok. cbn. now rewrite fmul_nan_r. Qed.

Lemma first_grid_entry : In (Fin (2 / 10)) gamma_range.
Proof.
  unfold gamma_range. apply in_map_iff. exists O. split.
  - simpl INR. f_equal. lra.
  - apply in_seq. unfold gamma_range_len. lia.
Qed.

Section FitterClaims.

Variable strict : bool.
Variable Gamma : float -> float.
Hypothesis Gamma_pos : gamma_positive Gamma.

(** Claim C3, in the form the code satisfies.  The AGGD fitter returns a
    result, raising no error and dividing by zero nowhere, whatever the NumPy
    divide error state is, for every field that NumPy flattens in place and
    whose scale ratio [gamma_hat] is in the range of [math.pow]: infinite (as
    on the all-zero field), NaN or at most 10^76.  The returned shape
    parameter [alpha] is an entry of the shape grid [gamma_range] (0.2 to 10
    in steps of 0.001), hence a finite value in [0.2, 10).  On an all-zero
    field both scales are 0.  Outside these bounds the fitter raises: on a
    field it cannot flatten in place, and whenever a power of the scale ratio
    leaves the range of the doubles. *)
Theorem aggd_features_returns_grid_shape (patch : matrix) :
  (forall g, aggd_gamma_hat strict (fst (aggd_scales (concat patch)))
                                   (snd (aggd_scales (concat patch))) = Ok g ->
             in_pow_range g) ->
  (exists alpha N bl br left_mean_sqrt right_mean_sqrt,
     Checked.aggd_features strict Gamma true patch =
       Ok (alpha, N, bl, br, left_mean_sqrt, right_mean_sqrt) /\
     In alpha gamma_range /\
     (exists a, alpha = Fin a /\ (2 / 10 <= a < 10)%R) /\
     ((forall x, In x (concat patch) -> x = F0) ->
        left_mean_sqrt = F0 /\ right_mean_sqrt = F0)) /\
  Checked.aggd_features strict Gamma false patch = Raise (OtherError "AttributeError") /\
  (forall e, Checked.aggd_features strict Gamma true patch <> Raise e) /\
  (forall c, Checked.aggd_features strict Gamma true patch <> Exit c).
Proof.
  intros Hg. rewrite (checked_features_agree strict Gamma patch Hg).
  destruct (aggd_features_ok strict Gamma Gamma_pos patch)
    as (a & N & bl & br & E & Hin & Ha).
  split; [|split; [reflexivity|split; intros ?; rewrite E; discriminate]].
  exists (Fin a), N, bl, br.
  exists (fst (aggd_scales (concat patch))), (snd (aggd_scales (concat patch))).
  split; [exact E|]. split; [exact Hin|].
  split; [exists a; split; [reflexivity|exact Ha]|].
  intros Hz. rewrite (aggd_scales_zeros _ Hz). split; reflexivity.
Qed.

(** Claim C2, in the form the code satisfies.  In the AGGD fitter a zero
    divisor routes to +infinity: [gamma_hat] is +infinity when the right
    scale is 0 and [r_hat] is +infinity when the mean of the squared samples
    is 0, and neither of them raises.  The normalised ratio is
    [rhat_norm = r_hat * (((gamma_hat^3 + 1) * (gamma_hat + 1)) /
    (gamma_hat^2 + 1)^2)]: whatever it returns is the value of that formula,
    it returns for every scale ratio in the range of [math.pow], and the only
    error it can raise is the range error of [math.pow], never a division by
    zero.  It does not follow the convention of the two ratios before it: it
    is NaN whenever [gamma_hat] is +infinity.  The grid search is defined
    nevertheless: on a NaN ratio it selects the first grid entry, 0.2. *)
Theorem aggd_degenerate_ratios (patch : list float) :
  (feq (snd (aggd_scales patch)) F0 = true ->
     aggd_gamma_hat strict (fst (aggd_scales patch)) (snd (aggd_scales patch))
       = Ok PInf) /\
  (feq (np_mean (map2 fmul patch patch)) F0 = true ->
     aggd_r_hat strict patch = Ok PInf) /\
  is_ok (aggd_gamma_hat strict (fst (aggd_scales patch)) (snd (aggd_scales patch))) /\
  is_ok (aggd_r_hat strict patch) /\
  (forall gamma_hat r_hat rhat_norm,
     Checked.aggd_rhat_norm gamma_hat r_hat = Ok rhat_norm ->
     rhat_norm =
       fmul r_hat (fdiv (fmul (fadd (math_pow gamma_hat 3) F1) (fadd gamma_hat F1))
                        (math_pow (fadd (math_pow gamma_hat 2) F1) 2))) /\
  (forall gamma_hat r_hat,
     in_pow_range gamma_hat -> is_ok (Checked.aggd_rhat_norm gamma_hat r_hat)) /\
  (forall gamma_hat r_hat e,
     Checked.aggd_rhat_norm gamma_hat r_hat = Raise e ->
     e = OtherError "OverflowError") /\
  (forall r_hat, Checked.aggd_rhat_norm PInf r_hat = Ok NaN) /\
  aggd_alpha strict Gamma NaN = Ok (Fin (2 / 10)) /\
  In (Fin (2 / 10)) gamma_range.
Proof.
  repeat split.
  - intros E. unfold aggd_gamma_hat, fne. now rewrite E.
  - intros E. unfold aggd_r_hat, fne. cbv zeta. now rewrite E.
  - apply aggd_gamma_hat_ok.
  - apply aggd_r_hat_ok.
  - intros g r x. apply checked_rhat_norm_value.
  - intros g r Hg. rewrite checked_rhat_norm_agrees by assumption.
    rewrite aggd_rhat_norm_ok. eexists; reflexivity.
  - intros g r e. apply checked_rhat_norm_raises.
  - apply checked_rhat_norm_inf.
  - now apply aggd_alpha_nan.
  - apply first_grid_entry.
Qed.

(** Claim C1.  For every patch the per-scale feature vector has exactly 18
    entries, in the order alpha_mscn, (bl_mscn + br_mscn) / 2, then alpha, N,
    bl, br of the horizontal and of the vertical paired products, then alpha,
    N, bl, bl of each of the two diagonal paired products: the fourth slot of
    both diagonal fields repeats the left scale.  This holds whatever the
    patch holds, all-zero patches included. *)
Theorem subband_feats_layout (mscncoefs : matrix) :
  let H_img := mat_map2 fmul (roll_axis1 1 mscncoefs) mscncoefs in
  let V_img := mat_map2 fmul (roll_axis0 1 mscncoefs) mscncoefs in
  let D1_img := mat_map2 fmul (roll_axis1 1 (roll_axis0 1 mscncoefs)) mscncoefs in
  let D2_img := mat_map2 fmul (roll_axis1 (-1) (roll_axis0 1 mscncoefs)) mscncoefs in
  exists alpha_mscn N_mscn bl_mscn br_mscn l_mscn r_mscn
         alpha_H N_H bl_H br_H l_H r_H
         alpha_V N_V bl_V br_V l_V r_V
         alpha_D1 N_D1 bl_D1 br_D1 l_D1 r_D1
         alpha_D2 N_D2 bl_D2 br_D2 l_D2 r_D2 feats,
    aggd_features strict Gamma mscncoefs
      = Ok (alpha_mscn, N_mscn, bl_mscn, br_mscn, l_mscn, r_mscn) /\
    aggd_features strict Gamma H_img = Ok (alpha_H, N_H, bl_H, br_H, l_H, r_H) /\
    aggd_features strict Gamma V_img = Ok (alpha_V, N_V, bl_V, br_V, l_V, r_V) /\
    aggd_features strict Gamma D1_img
      = Ok (alpha_D1, N_D1, bl_D1, br_D1, l_D1, r_D1) /\
    aggd_features strict Gamma D2_img
      = Ok (alpha_D2, N_D2, bl_D2, br_D2, l_D2, r_D2) /\
    _niqe_extract_subband_feats strict Gamma mscncoefs = Ok feats /\
    feats = [alpha_mscn; fdiv (fadd bl_mscn br_mscn) (Fin 2);
             alpha_H; N_H; bl_H; br_H;
             alpha_V; N_V; bl_V; br_V;
             alpha_D1; N_D1; bl_D1; bl_D1;
             alpha_D2; N_D2; bl_D2; bl_D2] /\
    length feats = 18%nat.
Proof.
  intros H_img V_img D1_img D2_img.
  destruct (aggd_features_ok strict Gamma Gamma_pos mscncoefs)
    as (a0 & n0 & l0 & r0 & E0 & _).
  destruct (aggd_features_ok strict Gamma Gamma_pos H_img) as (a1 & n1 & l1 & r1 & E1 & _).
  destruct (aggd_features_ok strict Gamma Gamma_pos V_img) as (a2 & n2 & l2 & r2 & E2 & _).
  destruct (aggd_features_ok strict Gamma Gamma_pos D1_img) as (a3 & n3 & l3 & r3 & E3 & _).
  destruct (aggd_features_ok strict Gamma Gamma_pos D2_img) as (a4 & n4 & l4 & r4 & E4 & _).
  do 30 eexists. eexists.
  split; [exact E0|]. split; [exact E1|]. split; [exact E2|].
  split; [exact E3|]. split; [exact E4|].
  split; [|split; [reflexivity|reflexivity]].
  unfold _niqe_extract_subband_feats. rewrite E0. cbn [bind].
  unfold paired_product. cbv zeta.
  fold H_img V_img D1_img D2_img. rewrite E1, E2, E3, E4. reflexivity.
Qed.

End FitterClaims.

Lemma aggd_features_witness :
  exists alpha N bl br left_mean_sqrt right_mean_sqrt,
    Checked.aggd_features true Fixture.gamma true (Fixture.zeros 2 2) =
      Ok (alpha, N, bl, br, left_mean_sqrt, right_mean_sqrt) /\
    In alpha gamma_range /\
    (exists a, alpha = Fin a /\ (2 / 10 <= a < 10)%R) /\
    ((forall x, In x (concat (Fixture.zeros 2 2)) -> x = F0) ->
       left_mean_sqrt = F0 /\ right_mean_sqrt = F0).
Proof.
  apply (aggd_features_returns_grid_shape true Fixture.gamma).
  - intros r _. exists 1%R. split; [reflexivity|lra].
  - intros g E. rewrite aggd_scales_zeros in E.
    + unfold aggd_gamma_hat, fne in E. cbn [fst snd] in E.
      rewrite feq_fin_zero in E. injection E as <-. exact I.
    + simpl. intros x H. repeat (destruct H as [H|H]; [now subst|]). contradiction.
Defined.

Lemma aggd_degenerate_witness :
  aggd_alpha false Fixture.gamma NaN = Ok (Fin (2 / 10)).
Proof.
  apply (aggd_degenerate_ratios false Fixture.gamma).
  - intros r _. exists 1%R. split; [reflexivity|lra].
  - exact [].
Defined.

Lemma subband_feats_witness :
  exists feats,
    _niqe_extract_subband_feats false Fixture.gamma (Fixture.zeros 2 2) = Ok feats /\
    length feats = 18%nat.
Proof.
  destruct (subband_feats_layout false Fixture.gamma) with (mscncoefs := Fixture.zeros 2 2)
    as (? & ? & ? & ? & ? & ? & ? & ? & ? & ? & ? & ? & ? & ? & ? & ? & ? & ? & ? & ?
        & ? & ? & ? & ? & ? & ? & ? & ? & ? & ? & feats & _ & _ & _ & _ & _ & E & _ & L).
  - intros r _. exists 1%R. split; [reflexivity|lra].
  - exists feats. now split.
Defined.

(** The all-zero field drives [rhat_norm] to NaN. *)
Lemma rhat_norm_nan_on_zero_field :
  aggd_scales (concat (Fixture.zeros 2 2)) = (F0, F0) /\
  aggd_gamma_hat false F0 F0 = Ok PInf /\
  aggd_r_hat false (concat (Fixture.zeros 2 2)) = Ok PInf /\
  aggd_rhat_norm PInf PInf = Ok NaN.
Proof.
  assert (Hz : forall x, In x (concat (Fixture.zeros 2 2)) -> x = F0).
  { simpl. intros x H. repeat (destruct H as [H|H]; [now subst|]). contradiction. }
  split; [now apply aggd_scales_zeros|]. split; [|split].
  - unfold aggd_gamma_hat, fne. now rewrite feq_fin_zero.
  - apply aggd_r_hat_zeros; [assumption|discriminate].
  - apply aggd_rhat_norm_inf.
Qed.

Lemma gauss_window_length sigma n : length (gauss_window sigma n) = (2 * n + 1)%nat.
Proof.
  unfold gauss_window. rewrite length_map, length_app, length_rev. cbn [length].
  rewrite gauss_taps_length. lia.
Qed.

Lemma gauss_window_symmetric sigma n : rev (gauss_window sigma n) = gauss_window sigma n.
Proof.
  unfold gauss_window. rewrite <- map_rev. f_equal.
  rewrite rev_app_distr. cbn [rev]. rewrite rev_involutive, <- app_assoc. reflexivity.
Qed.

Lemma gauss_window_pos sigma n x :
  In x (gauss_window sigma n) -> (0 < x)%R.
Proof.
  unfold gauss_window. rewrite in_map_iff. intros [y [<- Hy]].
  pose proof (sum_after_pos sigma n).
  assert (0 < y)%R.
  { apply in_app_or in Hy as [Hy|[<-|Hy]]; [|lra|].
    - apply in_rev in Hy. now apply gauss_taps_pos in Hy.
    - now apply gauss_taps_pos in Hy. }
  apply Rdiv_lt_0_compat; lra.
Qed.

Lemma gauss_window_sum sigma n : rsum (gauss_window sigma n) = 1%R.
Proof.
  unfold gauss_window. rewrite rsum_scale, rsum_app, rsum_rev. cbn [rsum fold_right].
  fold (rsum (gauss_taps sigma n)).
  pose proof (sum_after_pos sigma n) as H. unfold sum_after in *. field. lra.
Qed.

(** Claim C10.  For every half width [lw >= 0] and every [sigma > 0] the
    Gaussian window is generated without error, has length [2 * lw + 1], is
    symmetric about its centre (the weights at [i] and at [2 * lw - i] are
    equal, and positive), and its weights sum to 1.  Arithmetic on finite
    values is exact here, so the sum is 1 exactly. *)
Theorem gauss_window_normalised (strict : bool) (lw : Z) (sigma : R) :
  0 <= lw -> (0 < sigma)%R ->
  exists weights,
    gen_gauss_window strict lw (Fin sigma) = Ok weights /\
    Z.of_nat (length weights) = 2 * lw + 1 /\
    (forall i, 0 <= i <= 2 * lw ->
       exists x, py_getitem F0 weights i = Ok (Fin x) /\
                 py_getitem F0 weights (2 * lw - i) = Ok (Fin x) /\ (0 < x)%R) /\
    fsum weights = F1.
Proof.
  intros Hlw Hs. set (n := Z.to_nat lw).
  replace lw with (Z.of_nat n) by (unfold n; lia).
  exists (map Fin (gauss_window sigma n)).
  split; [now apply gen_gauss_window_eq|].
  pose proof (gauss_window_length sigma n) as Hlen.
  split; [rewrite length_map, Hlen; lia|]. split.
  - intros i Hi. set (k := Z.to_nat i).
    exists (nth k (gauss_window sigma n) 0%R).
    replace i with (Z.of_nat k) by (unfold k; lia).
    replace (2 * Z.of_nat n - Z.of_nat k) with (Z.of_nat (2 * n - k)) by (unfold k; lia).
    assert (Hk : (k < length (gauss_window sigma n))%nat) by (unfold k; lia).
    rewrite !py_getitem_nat' by (rewrite length_map; unfold k; lia).
    change F0 with (Fin 0). rewrite !map_nth.
    split; [reflexivity|]. split.
    + do 2 f_equal.
      rewrite <- (gauss_window_symmetric sigma n) at 2.
      rewrite rev_nth by assumption. f_equal. lia.
    + apply (gauss_window_pos sigma n). now apply nth_In.
  - rewrite fsum_fin, gauss_window_sum. reflexivity.
Qed.

Lemma gauss_window_witness :
  exists weights,
    gen_gauss_window false 3 (Fin (7 / 6)) = Ok weights /\
    Z.of_nat (length weights) = 2 * 3 + 1 /\
    (forall i, 0 <= i <= 2 * 3 ->
       exists x, py_getitem F0 weights i = Ok (Fin x) /\
                 py_getitem F0 weights (2 * 3 - i) = Ok (Fin x) /\ (0 < x)%R) /\
    fsum weights = F1.
Proof. apply (gauss_window_normalised false 3 (7 / 6)); [lia|lra]. Defined.

Lemma cv_round_half_even n : Z.even n = true -> cv_round_half n = n / 2.
Proof. intros H. unfold cv_round_half. cbv zeta. now rewrite H. Qed.

Lemma cv_round_half_pos n : 2 <= n -> 0 < cv_round_half n.
Proof.
  intros H. unfold cv_round_half. cbv zeta.
  assert (1 <= n / 2) by (apply Z.div_le_lower_bound; lia).
  destruct (Z.even n); [lia|]. destruct (Z.even (n / 2)); lia.
Qed.

Lemma np_hstack_ok a b :
  length a = length b ->
  (forall row, In row a -> length row = 18%nat) ->
  (forall row, In row b -> length row = 18%nat) ->
  exists feats, np_hstack a b = Ok feats /\ length feats = length a /\
                forall row, In row feats -> length row = 36%nat.
Proof.
  intros Hl Ha Hb. unfold np_hstack.
  replace (length a =? length b)%nat with true by (symmetry; now apply Nat.eqb_eq).
  eexists. split; [reflexivity|]. split.
  - rewrite map2_length. lia.
  - intros row Hin. apply map2_In in Hin as (ra & rb & Hra & Hrb & ->).
    rewrite length_app, (Ha _ Hra), (Hb _ Hrb). reflexivity.
Qed.

Lemma rect_zeros h w : rect (Fixture.zeros h w).
Proof.
  destruct h as [|h]; [intros row []|].
  apply (has_shape_rect _ (S h) w); [apply has_shape_build|lia].
Qed.


Section PipelineClaims.

Variable strict : bool.
Variable Gamma : float -> float.
Variable resize_half : matrix -> lib_result matrix.
Hypothesis Gamma_pos : gamma_positive Gamma.
Hypothesis resize_shape : resize_halves_shape resize_half.

(** Both feature matrices of [_get_patches_generic], for any patch size of at
    least 2. *)
Lemma feats_two_scales_ok img p H W :
  rect img -> shape img = (H, W) -> 2 <= p -> p <= H -> p <= W ->
  exists feats_lvl1 feats_lvl2,
    feats_two_scales strict Gamma resize_half img p = Ok (feats_lvl1, feats_lvl2) /\
    Z.of_nat (length feats_lvl1) = (H / p) * (W / p) /\
    Z.of_nat (length feats_lvl2)
      = (cv_round_half (p * (H / p)) / Z.quot p 2)
        * (cv_round_half (p * (W / p)) / Z.quot p 2) /\
    (forall row, In row feats_lvl1 -> length row = 18%nat) /\
    (forall row, In row feats_lvl2 -> length row = 18%nat) /\
    (fin_mat img -> resize_keeps_finite resize_half ->
     fin_mat feats_lvl1 /\ fin_mat feats_lvl2).
Proof.
  intros Hr Hs Hp HpH HpW.
  pose proof (rect_has_shape _ _ _ Hr Hs) as Hsh.
  assert (HH : Z.of_nat (Z.to_nat H) = H) by lia.
  assert (HW : Z.of_nat (Z.to_nat W) = W) by lia.
  assert (Hq : 0 < Z.quot p 2).
  { rewrite Z.quot_div_nonneg by lia. apply Z.div_str_pos. lia. }
  assert (Hkh : 1 <= H / p) by (apply Z.div_le_lower_bound; lia).
  assert (Hkw : 1 <= W / p) by (apply Z.div_le_lower_bound; lia).
  assert (EH : H - H mod p = p * (H / p)) by (pose proof (Z.div_mod H p); lia).
  assert (EW : W - W mod p = p * (W / p)) by (pose proof (Z.div_mod W p); lia).
  unfold feats_two_scales. rewrite Hs.
  replace ((H <? p) || (W <? p)) with false
    by (symmetry; apply orb_false_iff; split; apply Z.ltb_ge; lia).
  rewrite (crop_to_multiple_ok img p _ _ Hsh) by lia. cbn [bind].
  rewrite HH, HW, EH, EW.
  set (h' := Z.to_nat (p * (H / p))). set (w' := Z.to_nat (p * (W / p))).
  set (cropped := map (firstn w') (firstn h' img)).
  assert (Hh' : Z.of_nat h' = p * (H / p)) by (unfold h'; nia).
  assert (Hw' : Z.of_nat w' = p * (W / p)) by (unfold w'; nia).
  assert (Hc : has_shape cropped h' w').
  { apply (has_shape_firstn img (Z.to_nat H) (Z.to_nat W)); [assumption|unfold h'|unfold w'];
      pose proof (Z.mod_pos_bound H p); pose proof (Z.mod_pos_bound W p); lia. }
  assert (Hh'pos : (0 < h')%nat) by nia.
  destruct (has_shape_rect _ _ _ Hc Hh'pos) as [Hcr Hcs].
  destruct (resize_shape cropped _ _ Hcr Hcs) as [img2 [Eresize [Hr2 Hs2]]];
    [apply cv_round_half_pos; nia..|].
  rewrite Eresize. cbn [lift bind].
  destruct (mscn_ok strict cropped h' w' Hc Hh'pos) as (mscn1 & v1 & m1 & -> & Hm1 & Fm1).
  cbn [bind].
  pose proof (rect_has_shape _ _ _ Hr2 Hs2) as Hsh2.
  assert (Hh2 : 0 < cv_round_half (Z.of_nat h')) by (apply cv_round_half_pos; nia).
  destruct (mscn_ok strict img2 _ _ Hsh2 ltac:(lia)) as (mscn2 & v2 & m2 & -> & Hm2 & Fm2).
  cbn [bind].
  destruct (extract_on_patches_ok strict Gamma Gamma_pos mscn1 p h' w' ltac:(lia) Hm1 Hh'pos)
    as (f1 & -> & L1 & R1 & F1).
  cbn [bind].
  destruct (extract_on_patches_ok strict Gamma Gamma_pos mscn2 (Z.quot p 2) _ _ Hq Hm2
              ltac:(lia)) as (f2 & -> & L2 & R2 & F2).
  cbn [bind].
  exists f1, f2. split; [reflexivity|].
  assert (Dh : p * (H / p) / p = H / p) by (rewrite Z.mul_comm; apply Z.div_mul; lia).
  assert (Dw : p * (W / p) / p = W / p) by (rewrite Z.mul_comm; apply Z.div_mul; lia).
  split; [|split; [|split; [assumption|split; [assumption|]]]].
  - rewrite L1, Hh', Hw', Dh, Dw. lia.
  - rewrite <- Hh', <- Hw'.
    assert (Hw2 : 0 < cv_round_half (Z.of_nat w')) by (apply cv_round_half_pos; nia).
    set (A := cv_round_half (Z.of_nat h')) in *.
    set (B := cv_round_half (Z.of_nat w')) in *.
    assert (0 <= A / Z.quot p 2) by (apply Z.div_pos; lia).
    assert (0 <= B / Z.quot p 2) by (apply Z.div_pos; lia).
    rewrite L2, Nat2Z.inj_mul.
    rewrite (Z2Nat.id A), (Z2Nat.id B) by lia.
    rewrite !Z2Nat.id by assumption. reflexivity.
  - intros Hfin Hres.
    assert (Fc : fin_mat cropped) by now apply fin_crop.
    split; [apply F1, Fm1, Fc|]. apply F2, Fm2. exact (Hres cropped img2 Fc Eresize).
Qed.

(** An even patch size gives both scales the same number of rows. *)
Lemma even_patch_rows_agree p k :
  0 < p -> Z.even p = true -> cv_round_half (p * k) / Z.quot p 2 = k.
Proof.
  intros Hp He. apply Z.even_spec in He as [q Hq].
  rewrite cv_round_half_even
    by (rewrite Z.even_mul; apply orb_true_iff; left; subst p;
        rewrite Z.even_mul; reflexivity).
  rewrite Z.quot_div_nonneg by lia. subst p.
  replace (2 * q * k) with (q * k * 2) by lia.
  replace (2 * q) with (q * 2) by lia.
  rewrite !Z.div_mul by lia. rewrite Z.mul_comm. apply Z.div_mul. lia.
Qed.

Lemma fin_hstack a b : fin_mat a -> fin_mat b -> fin_mat (map2 (@app float) a b).
Proof.
  intros Ha Hb row Hr. apply map2_In in Hr as (ra & rb & Hra & Hrb & ->).
  intros x Hx. apply in_app_or in Hx as [Hx|Hx];
    [exact (Ha ra Hra x Hx)|exact (Hb rb Hrb x Hx)].
Qed.

(** Whenever [_get_patches_generic] returns, it returns a matrix of 36
    columns with one row per tile. *)
Lemma get_patches_generic_inv img p H W is_train stride feats :
  rect img -> shape img = (H, W) -> 2 <= p -> p <= H -> p <= W ->
  _get_patches_generic strict Gamma resize_half img p is_train stride = Ok feats ->
  exists n, has_shape feats n 36 /\ Z.of_nat n = (H / p) * (W / p) /\
            (fin_mat img -> resize_keeps_finite resize_half -> fin_mat feats).
Proof.
  intros Hr Hs Hp HpH HpW E.
  destruct (feats_two_scales_ok img p H W Hr Hs Hp HpH HpW)
    as (f1 & f2 & E2 & L1 & L2 & R1 & R2 & F).
  unfold _get_patches_generic in E. rewrite E2 in E. cbn [bind] in E.
  unfold np_hstack in E. destruct (Nat.eqb_spec (length f1) (length f2)) as [Hl|Hl];
    [|discriminate].
  inversion E; subst feats. exists (length f1). split; [split|split].
  - rewrite map2_length. lia.
  - intros row Hin. apply map2_In in Hin as (ra & rb & Hra & Hrb & ->).
    rewrite length_app, (R1 _ Hra), (R2 _ Hrb). reflexivity.
  - exact L1.
  - intros Hfin Hres. destruct (F Hfin Hres). now apply fin_hstack.
Qed.

Lemma get_patches_generic_even img p H W is_train stride :
  rect img -> shape img = (H, W) -> 0 < p -> Z.even p = true -> p <= H -> p <= W ->
  exists feats,
    _get_patches_generic strict Gamma resize_half img p is_train stride = Ok feats.
Proof.
  intros Hr Hs Hp He HpH HpW.
  assert (2 <= p) by (apply Z.even_spec in He as [q Hq]; lia).
  destruct (feats_two_scales_ok img p H W Hr Hs ltac:(lia) HpH HpW)
    as (f1 & f2 & E2 & L1 & L2 & R1 & R2 & F).
  assert (Hl : length f1 = length f2).
  { apply Nat2Z.inj. rewrite L1, L2. now rewrite !even_patch_rows_agree. }
  destruct (np_hstack_ok f1 f2 Hl R1 R2) as (feats & Eh & _).
  exists feats. unfold _get_patches_generic. rewrite E2. exact Eh.
Qed.

(** Claim C8, for even patch sizes.  For every rectangular image whose two
    dimensions exceed [2 * p + 1], with [p] positive and even, the
    full-resolution feature matrix (patch size [p]) and the half-resolution
    one (patch size [p / 2] on the half-scaled image) have the same number of
    rows, and their horizontal concatenation succeeds with rows of exactly 36
    columns.  Every candidate of the automatic mode is positive and even. *)
Theorem two_scale_rows_agree (img : matrix) (p H W is_train stride : Z) :
  rect img -> shape img = (H, W) ->
  0 < p -> Z.even p = true -> p * 2 + 1 < H -> p * 2 + 1 < W ->
  (forall c, In c patch_sizes -> 0 < c /\ Z.even c = true) /\
  exists feats_lvl1 feats_lvl2 feats,
    feats_two_scales strict Gamma resize_half img p = Ok (feats_lvl1, feats_lvl2) /\
    Z.of_nat (length feats_lvl1) = (H / p) * (W / p) /\
    length feats_lvl2 = length feats_lvl1 /\
    _get_patches_generic strict Gamma resize_half img p is_train stride = Ok feats /\
    length feats = length feats_lvl1 /\
    forall row, In row feats -> length row = 36%nat.
Proof.
  intros Hr Hs Hp He HH HW. split.
  { intros c Hc. unfold patch_sizes in Hc. simpl in Hc.
    repeat (destruct Hc as [<-|Hc]; [split; [lia|reflexivity]|]). contradiction. }
  assert (2 <= p) by (apply Z.even_spec in He as [q Hq]; lia).
  destruct (feats_two_scales_ok img p H W Hr Hs) as (f1 & f2 & E & L1 & L2 & R1 & R2 & _);
    [lia..|].
  assert (Hl : length f2 = length f1).
  { apply Nat2Z.inj. rewrite L1, L2. now rewrite !even_patch_rows_agree. }
  destruct (np_hstack_ok f1 f2 (eq_sym Hl) R1 R2) as (feats & Eh & Lh & Rh).
  exists f1, f2, feats. unfold _get_patches_generic. rewrite E. cbn [bind].
  repeat split; assumption.
Qed.

(** Claim C9.  On an H x W field the patch extractor produces exactly
    [(H / p) * (W / p)] patches (floor division): they are the p x p tiles of
    the field, non-overlapping, ordered top to bottom and, within a row of
    tiles, left to right.  Before extraction the image is cropped to
    multiples of [p]: trailing rows and columns are dropped, nothing is
    padded, the remaining pixels are unchanged, and an image whose dimensions
    [p] divides is left as it is. *)
Theorem patch_extractor_tiles (img : matrix) (p H W : Z) :
  rect img -> shape img = (H, W) -> 0 < p -> p <= H -> p <= W ->
  (exists patches feats,
     collect_patches img p = Ok patches /\
     Z.of_nat (length patches) = (H / p) * (W / p) /\
     (forall a b, 0 <= a < H / p -> 0 <= b < W / p ->
        nth (Z.to_nat (a * (W / p) + b)) patches [] = patch_at img p (a * p) (b * p) /\
        rect (patch_at img p (a * p) (b * p)) /\
        shape (patch_at img p (a * p) (b * p)) = (p, p) /\
        forall r c, 0 <= r < p -> 0 <= c < p ->
          at0 (patch_at img p (a * p) (b * p)) r c = at0 img (a * p + r) (b * p + c)) /\
     extract_on_patches strict Gamma img p = Ok feats /\
     Z.of_nat (length feats) = (H / p) * (W / p)) /\
  (exists cropped patches,
     crop_to_multiple img p = Ok cropped /\
     rect cropped /\
     shape cropped = (p * (H / p), p * (W / p)) /\
     (forall r c, 0 <= r < p * (H / p) -> 0 <= c < p * (W / p) ->
        at0 cropped r c = at0 img r c) /\
     (H mod p = 0 -> W mod p = 0 -> cropped = img) /\
     collect_patches cropped p = Ok patches /\
     Z.of_nat (length patches) = (H / p) * (W / p)).
Proof.
  intros Hr Hs Hp HpH HpW.
  pose proof (rect_has_shape _ _ _ Hr Hs) as Hsh.
  assert (HH : Z.of_nat (Z.to_nat H) = H) by lia.
  assert (HW : Z.of_nat (Z.to_nat W) = W) by lia.
  assert (Hkh : 1 <= H / p) by (apply Z.div_le_lower_bound; lia).
  assert (Hkw : 1 <= W / p) by (apply Z.div_le_lower_bound; lia).
  assert (EH : H - H mod p = p * (H / p)) by (pose proof (Z.div_mod H p); lia).
  assert (EW : W - W mod p = p * (W / p)) by (pose proof (Z.div_mod W p); lia).
  pose proof (Z.mod_pos_bound H p Hp) as BH.
  pose proof (Z.mod_pos_bound W p Hp) as BW.
  split.
  - pose proof (collect_patches_tiles img p _ _ Hp Hsh ltac:(lia)) as Ec.
    rewrite HH, HW in Ec.
    destruct (extract_on_patches_ok strict Gamma Gamma_pos img p _ _ Hp Hsh ltac:(lia))
      as (feats & Ef & Lf & _).
    rewrite HH, HW in Lf.
    eexists. exists feats. split; [exact Ec|].
    split; [rewrite tiles_length; nia|]. split; [|split; [exact Ef|rewrite Lf; nia]].
    intros a b Ha Hb.
    assert (Hsp : has_shape (patch_at img p (a * p) (b * p)) (Z.to_nat p) (Z.to_nat p)).
    { apply (patch_at_shape img p _ _ _ _ Hsh); nia. }
    destruct (has_shape_rect _ _ _ Hsp ltac:(lia)) as [Hrp Hshp].
    split; [|split; [exact Hrp|split]].
    + replace (Z.to_nat (a * (W / p) + b))
        with (Z.to_nat a * Z.to_nat (W / p) + Z.to_nat b)%nat by nia.
      rewrite tiles_nth by lia. now rewrite !Z2Nat.id by lia.
    + rewrite Hshp. f_equal; lia.
    + intros r c Hrr Hcc. apply (patch_at_entry img p _ _ _ _ r c Hsh); nia.
  - pose proof (crop_to_multiple_ok img p _ _ Hsh Hp ltac:(lia) ltac:(lia)) as Ecrop.
    rewrite HH, HW, EH, EW in Ecrop.
    set (h' := Z.to_nat (p * (H / p))) in *. set (w' := Z.to_nat (p * (W / p))) in *.
    assert (Hh' : Z.of_nat h' = p * (H / p)) by (unfold h'; nia).
    assert (Hw' : Z.of_nat w' = p * (W / p)) by (unfold w'; nia).
    assert (Hc : has_shape (map (firstn w') (firstn h' img)) h' w').
    { apply (has_shape_firstn img (Z.to_nat H) (Z.to_nat W)); [assumption|lia|lia]. }
    destruct (has_shape_rect _ _ _ Hc ltac:(nia)) as [Hcr Hcs].
    pose proof (collect_patches_tiles _ p _ _ Hp Hc ltac:(nia)) as Ec.
    eexists. eexists. split; [exact Ecrop|]. split; [exact Hcr|].
    split; [now rewrite Hcs, Hh', Hw'|].
    split; [intros r c Hrr Hcc; apply crop_entry; lia|].
    split; [|split; [exact Ec|]].
    + intros Mh Mw. destruct Hsh as [Hl Hrows].
      rewrite (firstn_all_length img h') by lia.
      rewrite <- (map_id img) at 2. apply map_ext_in. intros row Hin.
      apply firstn_all_length. rewrite (Hrows row Hin). lia.
    + rewrite tiles_length, Hh', Hw'.
      replace (p * (H / p) / p) with (H / p) by (rewrite Z.mul_comm, Z.div_mul; lia).
      replace (p * (W / p) / p) with (W / p) by (rewrite Z.mul_comm, Z.div_mul; lia).
      nia.
Qed.

End PipelineClaims.

Lemma two_scale_rows_agree_witness :
  exists feats,
    _get_patches_generic false Fixture.gamma Fixture.resize_half
      (Fixture.zeros 18 20) 8 0 8 = Ok feats /\
    length feats = 4%nat /\
    forall row, In row feats -> length row = 36%nat.
Proof.
  destruct (two_scale_rows_agree false Fixture.gamma Fixture.resize_half
              gamma_positive_fixture resize_halves_shape_fixture
              (Fixture.zeros 18 20) 8 18 20 0 8)
    as (_ & f1 & f2 & feats & _ & L1 & _ & E & L & R);
    [apply rect_zeros|reflexivity|lia|reflexivity|lia|lia|].
  exists feats. split; [exact E|]. split; [|exact R].
  rewrite L. apply Nat2Z.inj. rewrite L1. reflexivity.
Defined.

Lemma patch_extractor_tiles_witness :
  exists patches,
    collect_patches (Fixture.zeros 5 7) 2 = Ok patches /\
    Z.of_nat (length patches) = (5 / 2) * (7 / 2).
Proof.
  destruct (patch_extractor_tiles true Fixture.gamma gamma_positive_fixture
              (Fixture.zeros 5 7) 2 5 7)
    as ((patches & feats & E & L & _) & _);
    [apply rect_zeros|reflexivity|lia|lia|lia|].
  exists patches. split; assumption.
Defined.

(** With the odd patch size 3, a 9 x 9 image passes the size checks and the
    two scales yield 9 and 16 rows. *)
Lemma odd_patch_size_rows_differ :
  (3 * 2 + 1 <? 9) = true /\
  exists feats_lvl1 feats_lvl2,
    feats_two_scales false Fixture.gamma Fixture.resize_half (Fixture.zeros 9 9) 3
      = Ok (feats_lvl1, feats_lvl2) /\
    length feats_lvl1 = 9%nat /\ length feats_lvl2 = 16%nat /\
    _get_patches_generic false Fixture.gamma Fixture.resize_half (Fixture.zeros 9 9) 3 0 8
      = Raise ValueError.
Proof.
  split; [reflexivity|].
  destruct (feats_two_scales_ok false Fixture.gamma Fixture.resize_half
              gamma_positive_fixture resize_halves_shape_fixture
              (Fixture.zeros 9 9) 3 9 9)
    as (f1 & f2 & E & L1 & L2 & _);
    [apply rect_zeros|reflexivity|lia|lia|lia|].
  assert (H1 : length f1 = 9%nat) by (apply Nat2Z.inj; rewrite L1; reflexivity).
  assert (H2 : length f2 = 16%nat) by (apply Nat2Z.inj; rewrite L2; reflexivity).
  exists f1, f2. split; [exact E|]. split; [exact H1|]. split; [exact H2|].
  unfold _get_patches_generic. rewrite E. cbn [bind]. unfold np_hstack.
  now rewrite H1, H2.
Qed.

(** * The score *)

(** With patch size 1 the half-resolution patch size is 0 and the extraction
    raises. *)
Lemma extract_on_patches_zero strict Gamma img :
  extract_on_patches strict Gamma img 0 = Raise ValueError.
Proof. unfold extract_on_patches, collect_patches. now destruct (shape img). Qed.

Lemma feats_two_scales_one strict Gamma resize_half img r :
  feats_two_scales strict Gamma resize_half img 1 <> Ok r.
Proof.
  unfold feats_two_scales. destruct (shape img) as [h w].
  destruct ((h <? 1) || (w <? 1)); [discriminate|].
  destruct (crop_to_multiple img 1) as [c| |]; cbn [bind]; try discriminate.
  destruct (lift (resize_half c)) as [img2| |]; cbn [bind]; try discriminate.
  destruct (compute_image_mscn_transform strict c F1 None) as [[[m1 v1] u1]| |];
    cbn [bind]; try discriminate.
  destruct (compute_image_mscn_transform strict img2 F1 None) as [[[m2 v2] u2]| |];
    cbn [bind]; try discriminate.
  destruct (extract_on_patches strict Gamma m1 1) as [f1| |]; cbn [bind];
    try discriminate.
Qed.

Open Scope R_scope.

(** The identity matrix. *)
Definition identity_r : rmat := fun i j => if Nat.eqb i j then 1 else 0.

Lemma sumn_identity d x i :
  (i < d)%nat -> sumn d (fun j => identity_r i j * x j) = x i.
Proof.
  induction d as [|d IH]; intros Hi; [lia|].
  rewrite sumn_S. unfold identity_r at 2.
  destruct (Nat.eqb_spec i d) as [->|Hne].
  - rewrite (sumn_ext d _ (fun _ => 0)); [rewrite sumn_zero; lra|].
    intros j Hj. unfold identity_r.
    destruct (Nat.eqb_spec d j); [lia|lra].
  - rewrite IH by lia. lra.
Qed.

Lemma identity_psd d : psd d identity_r.
Proof.
  intros x. unfold quad, dotv. apply sumn_nonneg. intros i Hi.
  unfold mvec. rewrite sumn_identity by assumption. nra.
Qed.

Lemma identity_symmetric d : symmetric d identity_r.
Proof.
  intros i j _ _. unfold mT, identity_r. rewrite Nat.eqb_sym. reflexivity.
Qed.

Lemma pinv_keeps_psd_fixture : pinv_keeps_psd Fixture.pinv.
Proof.
  intros A d [Hl Hrows] _ _. exists (build_r d d identity_r). split; [|split].
  - unfold Fixture.pinv. unfold lift_mat at 1 2. rewrite length_map, Hl.
    rewrite lift_build_r. f_equal. apply build_ext. intros i j _ _.
    unfold identity_r. now destruct (Nat.eqb i j).
  - apply build_r_shape.
  - intros x. rewrite (quad_ext d _ identity_r); [apply identity_psd|].
    intros i j Hi Hj. now apply rentry_build_r.
Qed.

Close Scope R_scope.

(** * Further properties of the scoring call *)

(** ** The automatic patch size *)

Lemma first_fitting_sym l w h : first_fitting l w h = first_fitting l h w.
Proof.
  induction l as [|c l IH]; simpl; [reflexivity|]. now rewrite andb_comm, IH.
Qed.

Lemma first_fitting_cases l w h :
  first_fitting l w h = -1 \/ In (first_fitting l w h) l.
Proof.
  induction l as [|c l IH]; simpl; [now left|].
  destruct ((c * 2 + 1 <? w) && (c * 2 + 1 <? h)); [right; now left|].
  destruct IH as [IH|IH]; [now left|right; now right].
Qed.

Lemma first_fitting_mono l w h w' h' :
  StronglySorted Z.ge l -> (forall c, In c l -> -1 <= c) ->
  w <= w' -> h <= h' ->
  first_fitting l w h <= first_fitting l w' h'.
Proof.
  intros Hs. induction Hs as [|c l Hs IH Hall]; simpl; intros Hlow Hw Hh; [lia|].
  rewrite Forall_forall in Hall.
  destruct ((c * 2 + 1 <? w) && (c * 2 + 1 <? h)) eqn:E.
  - apply andb_prop in E as [E1 E2].
    replace ((c * 2 + 1 <? w') && (c * 2 + 1 <? h')) with true; [lia|].
    symmetry. apply andb_true_intro. split; lia.
  - destruct ((c * 2 + 1 <? w') && (c * 2 + 1 <? h')).
    + destruct (first_fitting_cases l w h) as [->|Hin];
        [apply Hlow; now left|].
      specialize (Hall _ Hin). lia.
    + apply IH; [|assumption..]. intros d Hd. apply Hlow. now right.
Qed.

Lemma patch_sizes_lower c : In c patch_sizes -> -1 <= c.
Proof.
  unfold patch_sizes. simpl. intros H.
  repeat (destruct H as [<-|H]; [lia|]). contradiction.
Qed.

(** Property X12.  [get_auto_patch_size] does not depend on the order of its
    two arguments (the call in [niqe] passes the width first), fails exactly
    when a dimension is below 18, and grows with the image: a larger image
    never gets a smaller patch size. *)
Theorem auto_patch_size_symmetric_monotone (img_w img_h : Z) :
  get_auto_patch_size img_w img_h = get_auto_patch_size img_h img_w /\
  (img_w < 18 \/ img_h < 18 <->
   get_auto_patch_size img_w img_h = Raise AssertionError) /\
  (forall p w' h',
     get_auto_patch_size img_w img_h = Ok p -> img_w <= w' -> img_h <= h' ->
     exists p', get_auto_patch_size w' h' = Ok p' /\ p <= p').
Proof.
  unfold get_auto_patch_size. split; [|split].
  - rewrite (andb_comm (18 <=? img_w)), first_fitting_sym. reflexivity.
  - destruct ((18 <=? img_w) && (18 <=? img_h)) eqn:E.
    + apply andb_prop in E as [E1 E2]. split; [lia|discriminate].
    + apply andb_false_iff in E. split; [reflexivity|]. intros _. lia.
  - intros p w' h'.
    destruct ((18 <=? img_w) && (18 <=? img_h)) eqn:E; [|discriminate].
    apply andb_prop in E as [E1 E2]. intros Hp Hw Hh.
    assert (Hp' : first_fitting patch_sizes img_w img_h = p) by congruence.
    replace ((18 <=? w') && (18 <=? h')) with true
      by (symmetry; apply andb_true_intro; split; lia).
    eexists. split; [reflexivity|]. rewrite <- Hp'.
    apply first_fitting_mono;
      [exact patch_sizes_descending|exact patch_sizes_lower|assumption..].
Qed.

(** ** Loading the parameters, and patch sizes set by hand *)

Lemma feats_two_scales_zero strict Gamma resize_half img H W :
  shape img = (H, W) ->
  feats_two_scales strict Gamma resize_half img 0 = Raise ZeroDivisionError.
Proof.
  intros Hs. unfold feats_two_scales. rewrite Hs.
  destruct (shape_nonneg _ _ _ Hs) as [HH HW].
  replace ((H <? 0) || (W <? 0)) with false
    by (symmetry; apply orb_false_iff; split; apply Z.ltb_ge; lia).
  unfold crop_to_multiple. rewrite Hs. reflexivity.
Qed.

(** ** The parameter file, key by key *)

(** [load_params] takes the parameter file as a record that holds both
    arrays.  The source assigns [self.params] first and looks the two keys up
    afterwards, so that a file without one of them raises [KeyError] when the
    scorer has already changed.  The module [Keyed] gives the head of [niqe]
    in these steps. *)

Module Keyed.

(** The dict that [scipy.io.loadmat] returns, as far as [niqe] looks into it:
    the arrays under ['pop_mu'] and ['pop_cov'], where the file has them. *)
Record mat_dict : Type := {
  dict_pop_mu : option matrix;
  dict_pop_cov : option matrix
}.

(** [self.params] is only ever compared with [None]: the model keeps the
    arrays found, and an empty one for a missing key. *)
Definition kept (d : mat_dict) : mat_params :=
  {| mat_pop_mu := match dict_pop_mu d with Some a => a | None => [] end;
     mat_pop_cov := match dict_pop_cov d with Some a => a | None => [] end |}.

(** Lines 193 to 196: what the three assignments raise, and the scorer they
    leave. *)
Definition load_params (loadmat : string -> lib_result mat_dict) (self : scorer)
  : outcome unit * scorer :=
  match params self with
  | Some _ => (Ok tt, self)
  | None =>
      match loadmat (params_path self) with
      | Throws e => (Raise e, self)
      | Returns d =>
          let self1 := {| patch_size := patch_size self;
                          params_path := params_path self;
                          params := Some (kept d);
                          pop_mu := pop_mu self;
                          pop_cov := pop_cov self |} in
          match dict_pop_mu d with
          | None => (Raise (OtherError "KeyError"), self1)
          | Some mu =>
              let self2 := {| patch_size := patch_size self1;
                              params_path := params_path self1;
                              params := params self1;
                              pop_mu := Some (concat mu);
                              pop_cov := pop_cov self1 |} in
              match dict_pop_cov d with
              | None => (Raise (OtherError "KeyError"), self2)
              | Some cov =>
                  (Ok tt, {| patch_size := patch_size self2;
                             params_path := params_path self2;
                             params := params self2;
                             pop_mu := pop_mu self2;
                             pop_cov := Some cov |})
              end
          end
      end
  end.

Definition niqe (strict : bool) (Gamma : float -> float)
    (resize_half : matrix -> lib_result matrix)
    (bgr2gray : list float -> lib_result float)
    (loadmat : string -> lib_result mat_dict)
    (pinv : matrix -> lib_result matrix)
    (self : scorer) (img : image) : outcome float * scorer :=
  match load_params loadmat self with
  | (Ok _, self') => (niqe_score strict Gamma resize_half bgr2gray pinv self' img, self')
  | (Raise e, self') => (Raise e, self')
  | (Exit c, self') => (Exit c, self')
  end.

End Keyed.

(** Without a population mean or a population covariance no call returns a
    score. *)
Lemma niqe_score_needs_population strict Gamma resize_half bgr2gray pinv self img x :
  pop_mu self = None \/ pop_cov self = None ->
  niqe_score strict Gamma resize_half bgr2gray pinv self img <> Ok x.
Proof.
  intros Hnone. unfold niqe_score.
  destruct (to_gray bgr2gray img) as [m| |]; cbn [bind]; try discriminate.
  destruct (shape m) as [M N].
  destruct (resolve_patch_size self M N) as [p| |]; cbn [bind]; try discriminate.
  unfold py_assert.
  destruct (p * 2 + 1 <? M); cbn [bind]; try discriminate.
  destruct (p * 2 + 1 <? N); cbn [bind]; try discriminate.
  destruct (get_patches_test_features strict Gamma resize_half m p) as [feats| |];
    cbn [bind]; try discriminate.
  unfold niqe_distance. cbv zeta.
  destruct Hnone as [-> | ->]; [discriminate|].
  destruct (pop_mu self); discriminate.
Qed.

Section ScoringProps.

Variable strict : bool.
Variable Gamma : float -> float.
Variable resize_half : matrix -> lib_result matrix.
Variable bgr2gray : list float -> lib_result float.
Variable loadmat : string -> lib_result mat_params.
Variable pinv : matrix -> lib_result matrix.

Hypothesis Gamma_pos : gamma_positive Gamma.
Hypothesis resize_shape : resize_halves_shape resize_half.

Local Abbreviation niqe' := (niqe strict Gamma resize_half bgr2gray loadmat pinv).

(** With patch size 1 the full-resolution pass succeeds and the
    half-resolution pass, whose patch size is [int(1 / 2) = 0], raises. *)
Lemma feats_two_scales_one_raises img H W :
  rect img -> shape img = (H, W) -> 2 <= H -> 2 <= W ->
  feats_two_scales strict Gamma resize_half img 1 = Raise ValueError.
Proof.
  intros Hr Hs HH2 HW2.
  pose proof (rect_has_shape _ _ _ Hr Hs) as Hsh.
  unfold feats_two_scales. rewrite Hs.
  replace ((H <? 1) || (W <? 1)) with false
    by (symmetry; apply orb_false_iff; split; apply Z.ltb_ge; lia).
  rewrite (crop_to_multiple_ok img 1 _ _ Hsh) by lia. cbn [bind].
  rewrite !Z.mod_1_r, !Z.sub_0_r, !Nat2Z.id.
  set (cropped := map (firstn (Z.to_nat W)) (firstn (Z.to_nat H) img)).
  assert (Hc : has_shape cropped (Z.to_nat H) (Z.to_nat W))
    by (apply (has_shape_firstn img (Z.to_nat H) (Z.to_nat W)); [assumption|lia|lia]).
  assert (Hpos : (0 < Z.to_nat H)%nat) by lia.
  destruct (has_shape_rect _ _ _ Hc Hpos) as [Hcr Hcs].
  destruct (resize_shape cropped _ _ Hcr Hcs) as [img2 [Eresize [Hr2 Hs2]]];
    [apply cv_round_half_pos; lia..|].
  rewrite Eresize. cbn [lift bind].
  destruct (mscn_ok strict cropped _ _ Hc Hpos) as (mscn1 & v1 & m1 & -> & Hm1 & _).
  cbn [bind].
  pose proof (rect_has_shape _ _ _ Hr2 Hs2) as Hsh2.
  assert (Hh2 : 0 < cv_round_half (Z.of_nat (Z.to_nat H)))
    by (apply cv_round_half_pos; lia).
  destruct (mscn_ok strict img2 _ _ Hsh2 ltac:(lia)) as (mscn2 & v2 & m2 & -> & Hm2 & _).
  cbn [bind].
  destruct (extract_on_patches_ok strict Gamma Gamma_pos mscn1 1 _ _ ltac:(lia) Hm1 Hpos)
    as (f1 & -> & _).
  cbn [bind]. change (Z.quot 1 2) with 0.
  now rewrite extract_on_patches_zero.
Qed.

(** The head of [niqe], once the parameters are loaded and the size
    assertions hold. *)
Lemma niqe_past_assertions self self' img m M N p :
  load_params loadmat self = Ok self' ->
  to_gray bgr2gray img = Ok m -> shape m = (M, N) ->
  resolve_patch_size self M N = Ok p ->
  p * 2 + 1 < M -> p * 2 + 1 < N ->
  fst (niqe' self img)
  = feats <- get_patches_test_features strict Gamma resize_half m p ;;
    niqe_distance pinv self' feats.
Proof.
  intros Hload Hg Hs Hp HM HN.
  assert (Hps : resolve_patch_size self' M N = Ok p).
  { unfold resolve_patch_size in *. now rewrite (load_params_patch_size _ _ _ Hload). }
  unfold niqe. rewrite Hload. cbn [fst]. unfold niqe_score.
  rewrite Hg. cbn [bind]. rewrite Hs, Hps. cbn [bind]. unfold py_assert.
  replace (p * 2 + 1 <? M) with true by (symmetry; apply Z.ltb_lt; lia).
  replace (p * 2 + 1 <? N) with true by (symmetry; apply Z.ltb_lt; lia).
  reflexivity.
Qed.

(** Property X13.  The parameter file is read lazily, at most once, and in
    three steps.  While no parameters are loaded, a read that fails fails the
    call with the reader's error before the image is looked at, and leaves the
    scorer as it was, so that the next call reads again.  A file that lacks
    [pop_mu] or [pop_cov] fails the call with a key error, but after
    [self.params] is set: a scorer created by [__init__] is left in a state in
    which no later call reads a file or returns a score.  A file with both
    keys loads as [load_params] has it.  Once loaded, the parameters are kept,
    also when the scoring itself fails, and a call reads nothing. *)
Theorem parameters_are_loaded_lazily
    (readmat : string -> lib_result Keyed.mat_dict) (self : scorer) (img : image) :
  (forall e, params self = None -> readmat (params_path self) = Throws e ->
     Keyed.niqe strict Gamma resize_half bgr2gray readmat pinv self img
     = (Raise e, self)) /\
  (forall d, params self = None -> pop_mu self = None -> pop_cov self = None ->
     readmat (params_path self) = Returns d ->
     Keyed.dict_pop_mu d = None \/ Keyed.dict_pop_cov d = None ->
     exists left,
       Keyed.niqe strict Gamma resize_half bgr2gray readmat pinv self img
       = (Raise (OtherError "KeyError"), left) /\
       params left <> None /\
       forall readmat2 img2,
         snd (Keyed.niqe strict Gamma resize_half bgr2gray readmat2 pinv left img2) = left /\
         forall x,
           fst (Keyed.niqe strict Gamma resize_half bgr2gray readmat2 pinv left img2)
           <> Ok x) /\
  (forall d mu cov, params self = None ->
     readmat (params_path self) = Returns d ->
     Keyed.dict_pop_mu d = Some mu -> Keyed.dict_pop_cov d = Some cov ->
     loadmat (params_path self) = Returns {| mat_pop_mu := mu; mat_pop_cov := cov |} ->
     Keyed.niqe strict Gamma resize_half bgr2gray readmat pinv self img = niqe' self img /\
     params (snd (niqe' self img)) <> None) /\
  (params self <> None ->
     forall readmat2,
       Keyed.niqe strict Gamma resize_half bgr2gray readmat2 pinv self img
       = (niqe_score strict Gamma resize_half bgr2gray pinv self img, self)).
Proof.
  assert (Hloaded : forall s, params s <> None ->
            forall readmat2 img2,
              Keyed.niqe strict Gamma resize_half bgr2gray readmat2 pinv s img2
              = (niqe_score strict Gamma resize_half bgr2gray pinv s img2, s)).
  { intros s Hs readmat2 img2. unfold Keyed.niqe, Keyed.load_params.
    destruct (params s); [reflexivity|congruence]. }
  split; [|split; [|split]].
  - intros e Hnone Hthrow. unfold Keyed.niqe, Keyed.load_params.
    now rewrite Hnone, Hthrow.
  - intros d Hnone Hmu Hcov Hread Hkey.
    assert (Hmiss : exists left,
              Keyed.niqe strict Gamma resize_half bgr2gray readmat pinv self img
              = (Raise (OtherError "KeyError"), left) /\
              params left <> None /\ (pop_mu left = None \/ pop_cov left = None)).
    { unfold Keyed.niqe, Keyed.load_params. rewrite Hnone, Hread. cbv zeta.
      destruct (Keyed.dict_pop_mu d) as [mu|] eqn:Emu.
      - destruct Hkey as [Hkey|Hkey]; [discriminate|]. rewrite Hkey.
        eexists. split; [reflexivity|]. split; [discriminate|]. right. exact Hcov.
      - eexists. split; [reflexivity|]. split; [discriminate|]. left. exact Hmu. }
    destruct Hmiss as (left & E & Hleft & Hpop). exists left.
    split; [exact E|]. split; [exact Hleft|].
    intros readmat2 img2. rewrite (Hloaded left Hleft). cbn [fst snd].
    split; [reflexivity|]. intros x. now apply niqe_score_needs_population.
  - intros d mu cov Hnone Hread Emu Ecov Hload.
    unfold Keyed.niqe, Keyed.load_params, niqe, load_params.
    rewrite Hnone, Hread, Hload, Emu, Ecov. cbn [lift bind snd params].
    unfold Keyed.kept. rewrite Emu, Ecov. cbn [mat_pop_mu mat_pop_cov].
    split; [reflexivity|discriminate].
  - intros Hsome readmat2. now apply Hloaded.
Qed.

(** Property X14.  The two smallest patch sizes a caller can set never score
    an image: with patch size 0 the crop takes a remainder modulo 0, with
    patch size 1 the half-resolution patch size is 0 and [range] gets a zero
    step. *)
Theorem degenerate_fixed_patch_sizes
    (self self' : scorer) (img : image) (m : matrix) (M N : Z) :
  load_params loadmat self = Ok self' ->
  to_gray bgr2gray img = Ok m -> rect m -> shape m = (M, N) ->
  (patch_size self = Fixed 0 -> 1 < M -> 1 < N ->
     fst (niqe' self img) = Raise ZeroDivisionError) /\
  (patch_size self = Fixed 1 -> 3 < M -> 3 < N ->
     fst (niqe' self img) = Raise ValueError).
Proof.
  intros Hload Hg Hr Hs. split; intros Hfix HM HN.
  - rewrite (niqe_past_assertions self self' img m M N 0 Hload Hg Hs)
      by (try lia; unfold resolve_patch_size; now rewrite Hfix).
    unfold get_patches_test_features, _get_patches_generic.
    now rewrite (feats_two_scales_zero _ _ _ _ _ _ Hs).
  - rewrite (niqe_past_assertions self self' img m M N 1 Hload Hg Hs)
      by (try lia; unfold resolve_patch_size; now rewrite Hfix).
    unfold get_patches_test_features, _get_patches_generic.
    rewrite (feats_two_scales_one_raises m M N Hr Hs) by lia. reflexivity.
Qed.

(** Property X15.  Population statistics of the wrong size are reported, not
    scored with: a population mean whose length is neither 36 nor 1, or a
    population covariance whose number of rows is neither 36 nor 1, makes the
    subtraction or the sum fail to broadcast. *)
Theorem population_statistics_of_wrong_size
    (self self' : scorer) (img : image) (m : matrix) (M N p : Z)
    (mu : list float) (cov : matrix) :
  load_params loadmat self = Ok self' ->
  pop_mu self' = Some mu -> pop_cov self' = Some cov ->
  to_gray bgr2gray img = Ok m -> rect m -> shape m = (M, N) ->
  resolve_patch_size self M N = Ok p ->
  0 < p -> Z.even p = true -> p * 2 + 1 < M -> p * 2 + 1 < N ->
  (length mu <> 36%nat -> length mu <> 1%nat ->
     fst (niqe' self img) = Raise ValueError) /\
  (length mu = 36%nat -> length cov <> 36%nat -> length cov <> 1%nat ->
     fst (niqe' self img) = Raise ValueError).
Proof.
  intros Hload Hmu Hcov Hg Hr Hs Hp Hpos He HM HN.
  rewrite (niqe_past_assertions self self' img m M N p Hload Hg Hs Hp HM HN).
  assert (Hp2 : 2 <= p) by (apply Z.even_spec in He as [q Hq]; lia).
  destruct (get_patches_generic_even strict Gamma resize_half Gamma_pos resize_shape
              m p M N 0 8 Hr Hs Hpos He ltac:(lia) ltac:(lia)) as [feats E].
  destruct (get_patches_generic_inv strict Gamma resize_half Gamma_pos resize_shape
              m p M N 0 8 feats Hr Hs Hp2 ltac:(lia) ltac:(lia) E)
    as (n & Hshape & Hn & _).
  assert (2 <= M / p) by (apply Z.div_le_lower_bound; lia).
  assert (2 <= N / p) by (apply Z.div_le_lower_bound; lia).
  assert (Hnpos : (0 < n)%nat) by nia.
  unfold get_patches_test_features. rewrite E. cbn [bind].
  unfold niqe_distance. cbv zeta. rewrite Hmu, Hcov.
  assert (Lmean : length (mean_axis0 feats) = 36%nat).
  { unfold mean_axis0. rewrite length_map, length_seq.
    exact (has_shape_hd _ _ _ Hshape Hnpos). }
  assert (Lcov : length (np_cov_T feats) = 36%nat).
  { unfold np_cov_T, build. cbv zeta. rewrite length_map, length_seq.
    exact (has_shape_hd _ _ _ Hshape Hnpos). }
  split.
  - intros H36 H1. unfold vec_map2. rewrite Lmean. unfold bcast_len.
    destruct (Nat.eqb_spec 36 (length mu)); [congruence|].
    destruct (Nat.eqb_spec (length mu) 1); [congruence|]. reflexivity.
  - intros H36 C36 C1. unfold vec_map2. rewrite Lmean, H36.
    cbn [bcast_len Nat.eqb bind]. unfold mat_bcast2. rewrite Lcov. unfold bcast_len at 1.
    destruct (Nat.eqb_spec (length cov) 36); [congruence|].
    destruct (Nat.eqb_spec (length cov) 1); [congruence|]. reflexivity.
Qed.

End ScoringProps.

(** A parameter file that holds the population mean only. *)
Definition mean_only_file (path : string) : lib_result Keyed.mat_dict :=
  Returns {| Keyed.dict_pop_mu := Some [repeat F0 36]; Keyed.dict_pop_cov := None |}.

Lemma parameters_keyed_witness :
  fst (Keyed.niqe false Fixture.gamma Fixture.resize_half Fixture.bgr2gray mean_only_file
         Fixture.pinv (init Auto "params.mat") (Gray (Fixture.zeros 18 18)))
  = Raise (OtherError "KeyError").
Proof.
  destruct (proj1 (proj2 (parameters_are_loaded_lazily false Fixture.gamma
                            Fixture.resize_half Fixture.bgr2gray Fixture.loadmat
                            Fixture.pinv mean_only_file (init Auto "params.mat")
                            (Gray (Fixture.zeros 18 18))))
              {| Keyed.dict_pop_mu := Some [repeat F0 36]; Keyed.dict_pop_cov := None |}
              eq_refl eq_refl eq_refl eq_refl (or_intror eq_refl))
    as (left & E & _).
  now rewrite E.
Defined.

Lemma degenerate_fixed_patch_sizes_witness :
  fst (niqe false Fixture.gamma Fixture.resize_half Fixture.bgr2gray Fixture.loadmat
         Fixture.pinv (init (Fixed 1) "params.mat") (Gray (Fixture.zeros 4 4)))
  = Raise ValueError.
Proof.
  refine (proj2 (degenerate_fixed_patch_sizes false Fixture.gamma Fixture.resize_half
            Fixture.bgr2gray Fixture.loadmat Fixture.pinv
            gamma_positive_fixture resize_halves_shape_fixture
            (init (Fixed 1) "params.mat") _ (Gray (Fixture.zeros 4 4)) (Fixture.zeros 4 4)
            4 4 eq_refl eq_refl (rect_zeros 4 4) eq_refl) eq_refl _ _); lia.
Defined.

(** A parameter file whose population mean has 35 entries. *)
Definition short_mean_loadmat (path : string) : lib_result mat_params :=
  Returns {| mat_pop_mu := [repeat F0 35];
             mat_pop_cov := build 36 36 (fun i j => if Nat.eqb i j then F1 else F0) |}.

Lemma population_statistics_witness :
  fst (niqe false Fixture.gamma Fixture.resize_half Fixture.bgr2gray short_mean_loadmat
         Fixture.pinv (init Auto "params.mat") (Gray (Fixture.zeros 18 18)))
  = Raise ValueError.
Proof.
  refine (proj1 (population_statistics_of_wrong_size false Fixture.gamma
            Fixture.resize_half Fixture.bgr2gray short_mean_loadmat Fixture.pinv
            gamma_positive_fixture resize_halves_shape_fixture
            (init Auto "params.mat") _ (Gray (Fixture.zeros 18 18)) (Fixture.zeros 18 18)
            18 18 8 (repeat F0 35) _
            eq_refl eq_refl eq_refl eq_refl (rect_zeros 18 18) eq_refl eq_refl
            _ eq_refl _ _) _ _);
    cbn [length repeat]; lia.
Defined.

(** ** The distance *)

Open Scope R_scope.

Lemma moore_penrose_ext d A A' P :
  meq d A A' -> moore_penrose d A P -> moore_penrose d A' P.
Proof.
  intros HA (M1 & M2 & M3 & M4). unfold moore_penrose, symmetric in *.
  rewrite <- HA. repeat split; assumption.
Qed.

Lemma quad_zero d P x : (forall i, (i < d)%nat -> x i = 0) -> quad d P x = 0.
Proof.
  intros Hx. unfold quad, dotv. rewrite <- (sumn_zero d).
  apply sumn_ext. intros i Hi. rewrite (Hx i Hi). ring.
Qed.

(** [pinv] returns the pseudo-inverse of the symmetric positive-semidefinite
    matrices of size [d]. *)
Definition pinv_is_pseudo_inverse_at (pinv : matrix -> lib_result matrix) (d : nat)
  : Prop :=
  forall A,
    rshape A d d -> symmetric d (rentry A) -> psd d (rentry A) ->
    exists P, pinv (lift_mat A) = Returns (lift_mat P) /\
              rshape P d d /\ moore_penrose d (rentry A) (rentry P).

Lemma pseudo_inverse_at_every_size pinv :
  pinv_is_pseudo_inverse pinv -> forall d, pinv_is_pseudo_inverse_at pinv d.
Proof. intros H d A. apply H. Qed.

Section DistanceProps.

Variable pinv : matrix -> lib_result matrix.
Variable self : scorer.
Variables fr pcr : list (list R).
Variable mur : list R.
Variables n d : nat.

Hypothesis fr_shape : rshape fr n d.
Hypothesis n_ge_2 : (2 <= n)%nat.
Hypothesis d_pos : (1 <= d)%nat.
Hypothesis self_mu : pop_mu self = Some (lift_vec mur).
Hypothesis mur_length : length mur = d.
Hypothesis self_cov : pop_cov self = Some (lift_mat pcr).
Hypothesis pcr_shape : rshape pcr d d.

(** The value of the distance, given what [pinv] returns. *)
Lemma niqe_distance_value pr :
  pinv (build d d (fun i j => Fin (avg_cov_r pcr fr i j))) = Returns (lift_mat pr) ->
  rshape pr d d -> 0 <= quad d (rentry pr) (diff_r fr mur) ->
  niqe_distance pinv self (lift_mat fr)
  = Ok (Fin (sqrt (quad d (rentry pr) (diff_r fr mur)))).
Proof.
  intros Epinv pr_shape Hq.
  unfold niqe_distance. cbv zeta. rewrite self_mu, self_cov.
  rewrite (mean_axis0_lift fr n d fr_shape n_ge_2 d_pos).
  rewrite (np_cov_T_lift fr n d fr_shape n_ge_2 d_pos).
  rewrite (diff_lift fr mur n d n_ge_2 d_pos mur_length). cbn [bind].
  pose proof (covmat_lift fr pcr mur n d n_ge_2 d_pos mur_length pcr_shape) as Hc.
  destruct (mat_bcast2 fadd (lift_mat pcr) (build d d (fun i j => Fin (cov_r fr i j))))
    as [s| |]; cbn [bind] in Hc; try discriminate.
  cbn [bind]. inversion Hc as [Hc']. rewrite Hc'.
  rewrite Epinv. cbn [lift bind].
  pose proof (quadratic_form_lift fr mur n d n_ge_2 d_pos mur_length pr pr_shape) as Hf.
  destruct (dot_vec_mat (map Fin (map (diff_r fr mur) (seq 0 d))) (lift_mat pr))
    as [y| |]; cbn [bind] in Hf; try discriminate.
  cbn [bind]. rewrite Hf. cbn [bind]. now rewrite fsqrt_nonneg.
Qed.

Hypothesis pcr_sym : symmetric d (rentry pcr).
Hypothesis pcr_psd : psd d (rentry pcr).

(** Property X16.  When [pinv] returns the pseudo-inverse, the distance is the
    square root of the quadratic form of the difference of the two means in
    the pseudo-inverse of the average of the two covariances: for the matrix
    [P] that meets the four Penrose equations for the averaged covariance
    (there is one such matrix only), the score is [sqrt (diff^T P diff)]. *)
Theorem niqe_distance_formula (P : rmat) :
  pinv_is_pseudo_inverse_at pinv d ->
  moore_penrose d (avg_cov_r pcr fr) P ->
  niqe_distance pinv self (lift_mat fr) = Ok (Fin (sqrt (quad d P (diff_r fr mur)))).
Proof.
  intros Hpinv HP.
  set (A := build_r d d (avg_cov_r pcr fr)).
  assert (HA : meq d (rentry A) (avg_cov_r pcr fr))
    by (intros i j Hi Hj; now apply rentry_build_r).
  assert (Asym : symmetric d (rentry A))
    by (unfold symmetric; rewrite HA; now apply avg_cov_symmetric).
  assert (Apsd : psd d (rentry A)).
  { intros x. rewrite (quad_ext d _ _ x HA). now apply (avg_cov_psd pcr fr n d). }
  destruct (Hpinv A) as (pr & Epinv & pr_shape & Hmp);
    [apply build_r_shape|assumption..|].
  assert (HPpr : meq d (rentry pr) P).
  { apply (moore_penrose_unique d (rentry A)); [assumption|].
    apply (moore_penrose_ext d (avg_cov_r pcr fr)); [|assumption].
    intros i j Hi Hj. symmetry. now apply HA. }
  rewrite <- (quad_ext d _ _ (diff_r fr mur) HPpr).
  apply niqe_distance_value; [|assumption|].
  - unfold A in Epinv. now rewrite lift_build_r in Epinv.
  - apply (moore_penrose_psd d (rentry A)); assumption.
Qed.

(** Property X17.  The score is 0 when the mean of the features is the
    population mean. *)
Theorem niqe_distance_zero_at_population_mean :
  pinv_keeps_psd pinv ->
  mean_axis0 (lift_mat fr) = lift_vec mur ->
  niqe_distance pinv self (lift_mat fr) = Ok F0.
Proof.
  intros Hpinv Hmean.
  set (A := build_r d d (avg_cov_r pcr fr)).
  assert (HA : meq d (rentry A) (avg_cov_r pcr fr))
    by (intros i j Hi Hj; now apply rentry_build_r).
  destruct (Hpinv A d) as (pr & Epinv & pr_shape & pr_psd).
  { apply build_r_shape. }
  { unfold symmetric. rewrite HA. now apply avg_cov_symmetric. }
  { intros x. rewrite (quad_ext d _ _ x HA). now apply (avg_cov_psd pcr fr n d). }
  assert (Hdiff : forall i, (i < d)%nat -> diff_r fr mur i = 0).
  { intros i Hi. unfold diff_r.
    rewrite (mean_axis0_lift fr n d fr_shape n_ge_2 d_pos) in Hmean.
    assert (E : nth i (map Fin (map (mean_r fr) (seq 0 d))) F0 = nth i (lift_vec mur) F0)
      by now rewrite Hmean.
    rewrite (nth_mean fr d i Hi), nth_lift_vec in E.
    inversion E. lra. }
  rewrite (niqe_distance_value pr).
  - rewrite (quad_zero d _ _ Hdiff), sqrt_0. reflexivity.
  - unfold A in Epinv. now rewrite lift_build_r in Epinv.
  - assumption.
  - apply pr_psd.
Qed.

End DistanceProps.

(** A pseudo-inverse for 1 x 1 matrices, and a scorer whose population has
    one feature. *)
Definition pinv_1x1 (m : matrix) : lib_result matrix :=
  match m with
  | [[Fin a]] => Returns [[Fin (if Req_dec_T a 0 then 0 else 1 / a)]]
  | _ => Throws (OtherError "LinAlgError")
  end.

Definition one_feature_scorer (mu cov : R) : scorer :=
  {| patch_size := Auto; params_path := "params.mat"; params := None;
     pop_mu := Some (lift_vec [mu]); pop_cov := Some (lift_mat [[cov]]) |}.

Lemma rshape_1x1 A : rshape A 1 1 -> exists a, A = [[a]].
Proof.
  intros [Hl Hrows]. destruct A as [|row [|]]; try discriminate.
  specialize (Hrows row (or_introl eq_refl)).
  destruct row as [|a [|]]; try discriminate. now exists a.
Qed.

Lemma pinv_1x1_ok : pinv_is_pseudo_inverse_at pinv_1x1 1.
Proof.
  intros A HA _ _. destruct (rshape_1x1 A HA) as [a ->].
  exists [[if Req_dec_T a 0 then 0 else 1 / a]].
  split; [reflexivity|]. split; [split; [reflexivity|]|].
  { intros row [<-|[]]. reflexivity. }
  unfold moore_penrose, symmetric, meq, mmul, mT, sumn, rentry.
  repeat split; intros i j Hi Hj;
    destruct i; try lia; destruct j; try lia; cbn [seq map rsum fold_right nth];
    destruct (Req_dec_T a 0); try subst a; try field; try lra; assumption.
Qed.

Lemma niqe_distance_formula_witness :
  niqe_distance pinv_1x1 (one_feature_scorer 2 0) (lift_mat [[1]; [3]])
  = Ok (Fin (sqrt (quad 1 (fun _ _ => 1) (diff_r [[1]; [3]] [2])))).
Proof.
  apply (niqe_distance_formula pinv_1x1 (one_feature_scorer 2 0) [[1]; [3]] [[0]] [2] 2 1).
  - split; [reflexivity|]. intros row [<-|[<-|[]]]; reflexivity.
  - lia.
  - lia.
  - reflexivity.
  - reflexivity.
  - reflexivity.
  - split; [reflexivity|]. intros row [<-|[]]. reflexivity.
  - intros i j Hi Hj. destruct i; [|lia]. destruct j; [|lia]. reflexivity.
  - intros x. unfold quad, dotv, mvec, sumn, rentry. cbn [seq map rsum fold_right nth]. lra.
  - exact pinv_1x1_ok.
  - unfold moore_penrose, symmetric, meq, mmul, mT, sumn, avg_cov_r, cov_r, mean_r, rentry.
    repeat split; intros i j Hi Hj;
      destruct i; try lia; destruct j; try lia;
      cbn [seq map rsum fold_right nth length Z.of_nat Pos.of_succ_nat Pos.succ Z.sub
           Z.add Z.opp Z.pos_sub Pos.pred_double];
      field.
Defined.

Lemma niqe_distance_zero_witness :
  niqe_distance Fixture.pinv (one_feature_scorer 2 0) (lift_mat [[1]; [3]]) = Ok F0.
Proof.
  apply (niqe_distance_zero_at_population_mean Fixture.pinv (one_feature_scorer 2 0)
           [[1]; [3]] [[0]] [2] 2 1).
  - split; [reflexivity|]. intros row [<-|[<-|[]]]; reflexivity.
  - lia.
  - lia.
  - reflexivity.
  - reflexivity.
  - reflexivity.
  - split; [reflexivity|]. intros row [<-|[]]. reflexivity.
  - intros i j Hi Hj. destruct i; [|lia]. destruct j; [|lia]. reflexivity.
  - intros x. unfold quad, dotv, mvec, sumn, rentry. cbn [seq map rsum fold_right nth]. lra.
  - exact pinv_keeps_psd_fixture.
  - rewrite (mean_axis0_lift [[1]; [3]] 2 1); [|split; [reflexivity|]|lia|lia].
    + unfold lift_vec, mean_r. cbn [seq map rsum fold_right nth length Z.of_nat
                                    Pos.of_succ_nat Pos.succ].
      f_equal. f_equal. lra.
    + intros row [<-|[<-|[]]]; reflexivity.
Defined.

Close Scope R_scope.

(** ** The automatic patch size *)

(** From 18 x 18 pixels on the automatic patch size is positive, even and
    fits the image. *)
Lemma auto_patch_size_fits img_w img_h :
  18 <= img_w -> 18 <= img_h ->
  exists p, get_auto_patch_size img_w img_h = Ok p /\
            0 < p /\ Z.even p = true /\ fits p img_w img_h.
Proof.
  intros Hw Hh. unfold get_auto_patch_size.
  replace ((18 <=? img_w) && (18 <=? img_h)) with true
    by (symmetry; apply andb_true_intro; split; lia).
  assert (H8 : exists c, In c patch_sizes /\ fits c img_w img_h).
  { exists 8. split; [unfold patch_sizes; simpl; tauto|unfold fits; lia]. }
  destruct (first_fitting_some _ _ _ patch_sizes_descending H8) as (Hin & Hfit & _).
  eexists. split; [reflexivity|].
  set (p := first_fitting patch_sizes img_w img_h) in *. clearbody p.
  split; [|split; [|exact Hfit]];
    unfold patch_sizes in Hin; simpl in Hin;
    repeat (destruct Hin as [<-|Hin]; [reflexivity || lia|]); contradiction.
Qed.


(** * The value of the score *)

(** What is assumed of [scipy.linalg.pinv] when nothing is known of its
    accuracy: on a square matrix of finite entries it returns a matrix of
    finite entries of the same size. *)
Definition pinv_returns (pinv : matrix -> lib_result matrix) : Prop :=
  forall A d, rshape A d d ->
    exists P, pinv (lift_mat A) = Returns (lift_mat P) /\ rshape P d d.



(** ** The first feature of every row *)

Section FirstFeature.

Variable strict : bool.
Variable Gamma : float -> float.
Variable resize_half : matrix -> lib_result matrix.
Hypothesis Gamma_pos : gamma_positive Gamma.

(** A feature vector starts with the shape of the coefficients, a grid
    entry. *)
Lemma subband_feats_head m feats :
  _niqe_extract_subband_feats strict Gamma m = Ok feats ->
  exists a rest, feats = Fin a :: rest /\ (2 / 10 <= a)%R.
Proof.
  intros E. unfold _niqe_extract_subband_feats in E.
  destruct (aggd_features_ok strict Gamma Gamma_pos m) as (a & n0 & l0 & r0 & E0 & _ & Ha).
  rewrite E0 in E. cbn [bind] in E. unfold paired_product in E. cbv zeta in E.
  repeat match type of E with
         | context [aggd_features strict Gamma ?x] =>
             destruct (aggd_features strict Gamma x) as [[[[[[? ?] ?] ?] ?] ?]| |];
             cbn [bind] in E; try discriminate
         end.
  inversion E. exists a. eexists. split; [reflexivity|apply Ha].
Qed.

Lemma extract_on_patches_head img p f :
  extract_on_patches strict Gamma img p = Ok f ->
  forall row, In row f -> exists a rest, row = Fin a :: rest /\ (2 / 10 <= a)%R.
Proof.
  unfold extract_on_patches. intros E row Hin.
  destruct (collect_patches img p) as [ps| |]; cbn [bind] in E; try discriminate.
  apply mapM_ok_inv in E.
  destruct (Forall2_In_r _ _ _ _ E Hin) as [t [_ Ht]].
  now apply (subband_feats_head t).
Qed.

Lemma feats_two_scales_lvl1 img p f1 f2 :
  feats_two_scales strict Gamma resize_half img p = Ok (f1, f2) ->
  exists mscn1, extract_on_patches strict Gamma mscn1 p = Ok f1.
Proof.
  unfold feats_two_scales. destruct (shape img) as [h w].
  destruct ((h <? p) || (w <? p)); [discriminate|].
  destruct (crop_to_multiple img p) as [c| |]; cbn [bind]; try discriminate.
  destruct (lift (resize_half c)) as [img2| |]; cbn [bind]; try discriminate.
  destruct (compute_image_mscn_transform strict c F1 None) as [[[m1 v1] u1]| |];
    cbn [bind]; try discriminate.
  destruct (compute_image_mscn_transform strict img2 F1 None) as [[[m2 v2] u2]| |];
    cbn [bind]; try discriminate.
  destruct (extract_on_patches strict Gamma m1 p) as [g1| |] eqn:E1; cbn [bind];
    try discriminate.
  destruct (extract_on_patches strict Gamma m2 (Z.quot p 2)) as [g2| |]; cbn [bind];
    try discriminate.
  intros E. inversion E; subst. now exists m1.
Qed.

Lemma generic_feats_head img p is_train stride feats :
  _get_patches_generic strict Gamma resize_half img p is_train stride = Ok feats ->
  forall row, In row feats -> exists a rest, row = Fin a :: rest /\ (2 / 10 <= a)%R.
Proof.
  unfold _get_patches_generic. intros E row Hin.
  destruct (feats_two_scales strict Gamma resize_half img p) as [[f1 f2]| |] eqn:E2;
    cbn [bind] in E; try discriminate.
  unfold np_hstack in E. destruct (length f1 =? length f2)%nat; [|discriminate].
  inversion E; subst feats.
  apply map2_In in Hin as (ra & rb & Hra & _ & ->).
  destruct (feats_two_scales_lvl1 _ _ _ _ E2) as [m1 E1].
  destruct (extract_on_patches_head _ _ _ E1 ra Hra) as (a & rest & -> & Ha).
  exists a, (rest ++ rb). split; [reflexivity|assumption].
Qed.

End FirstFeature.

(** ** The radicand *)

Open Scope R_scope.

(** The distance is the square root, as [np.sqrt] takes it, of the quadratic
    form in whatever matrix [pinv] returns. *)
Lemma niqe_distance_radicand pinv self fr pcr mur n d pr :
  rshape fr n d -> (2 <= n)%nat -> (1 <= d)%nat ->
  pop_mu self = Some (lift_vec mur) -> length mur = d ->
  pop_cov self = Some (lift_mat pcr) -> rshape pcr d d ->
  pinv (build d d (fun i j => Fin (avg_cov_r pcr fr i j))) = Returns (lift_mat pr) ->
  rshape pr d d ->
  niqe_distance pinv self (lift_mat fr)
  = Ok (fsqrt (Fin (quad d (rentry pr) (diff_r fr mur)))).
Proof.
  intros fr_shape n_ge_2 d_pos self_mu mur_length self_cov pcr_shape Epinv pr_shape.
  unfold niqe_distance. cbv zeta. rewrite self_mu, self_cov.
  rewrite (mean_axis0_lift fr n d fr_shape n_ge_2 d_pos).
  rewrite (np_cov_T_lift fr n d fr_shape n_ge_2 d_pos).
  rewrite (diff_lift fr mur n d n_ge_2 d_pos mur_length). cbn [bind].
  pose proof (covmat_lift fr pcr mur n d n_ge_2 d_pos mur_length pcr_shape) as Hc.
  destruct (mat_bcast2 fadd (lift_mat pcr) (build d d (fun i j => Fin (cov_r fr i j))))
    as [s| |]; cbn [bind] in Hc; try discriminate.
  cbn [bind]. inversion Hc as [Hc']. rewrite Hc'.
  rewrite Epinv. cbn [lift bind].
  pose proof (quadratic_form_lift fr mur n d n_ge_2 d_pos mur_length pr pr_shape) as Hf.
  destruct (dot_vec_mat (map Fin (map (diff_r fr mur) (seq 0 d))) (lift_mat pr))
    as [y| |]; cbn [bind] in Hf; try discriminate.
  cbn [bind]. rewrite Hf. reflexivity.
Qed.

Lemma fsqrt_negative q : q < 0 -> fsqrt (Fin q) = NaN.
Proof. intros H. simpl. destruct (Rlt_dec q 0); [reflexivity|lra]. Qed.

Lemma fsqrt_fin_cases q :
  fsqrt (Fin q) = NaN \/ exists s, fsqrt (Fin q) = Fin s /\ 0 <= s.
Proof.
  destruct (Rlt_dec q 0) as [H|H].
  - left. now apply fsqrt_negative.
  - right. exists (sqrt q). split; [apply fsqrt_nonneg; lra|apply sqrt_pos].
Qed.

Close Scope R_scope.

Section ScoreValue.

Variable strict : bool.
Variable Gamma : float -> float.
Variable resize_half : matrix -> lib_result matrix.
Variable bgr2gray : list float -> lib_result float.
Variable loadmat : string -> lib_result mat_params.
Variable pinv : matrix -> lib_result matrix.

Hypothesis Gamma_pos : gamma_positive Gamma.
Hypothesis resize_shape : resize_halves_shape resize_half.
Hypothesis resize_finite : resize_keeps_finite resize_half.

Local Abbreviation niqe' := (niqe strict Gamma resize_half bgr2gray loadmat pinv).

(** The score of an accepted image, from the features to the radicand. *)
Lemma niqe_score_radicand
    (self self' : scorer) (img : image) (m : matrix) (M N p : Z)
    (mur : list R) (pcr : list (list R)) :
  load_params loadmat self = Ok self' ->
  pop_mu self' = Some (lift_vec mur) -> length mur = 36%nat ->
  pop_cov self' = Some (lift_mat pcr) -> rshape pcr 36 36 ->
  to_gray bgr2gray img = Ok m -> rect m -> fin_mat m -> shape m = (M, N) ->
  resolve_patch_size self M N = Ok p ->
  0 < p -> Z.even p = true -> p * 2 + 1 < M -> p * 2 + 1 < N ->
  exists n fr,
    get_patches_test_features strict Gamma resize_half m p = Ok (lift_mat fr) /\
    rshape fr n 36 /\ (2 <= n)%nat /\
    (forall row, In row fr -> exists a rest, row = a :: rest /\ (2 / 10 <= a)%R) /\
    forall pr,
      pinv (build 36 36 (fun i j => Fin (avg_cov_r pcr fr i j))) = Returns (lift_mat pr) ->
      rshape pr 36 36 ->
      fst (niqe' self img) = Ok (fsqrt (Fin (quad 36 (rentry pr) (diff_r fr mur)))).
Proof.
  intros Hload Hmu Hmul Hcov Hcovs Hg Hr Hf Hs Hp Hpos He HM HN.
  assert (Hp2 : 2 <= p) by (apply Z.even_spec in He as [q Hq]; lia).
  destruct (get_patches_generic_even strict Gamma resize_half Gamma_pos resize_shape
              m p M N 0 8 Hr Hs Hpos He ltac:(lia) ltac:(lia)) as [feats E].
  destruct (get_patches_generic_inv strict Gamma resize_half Gamma_pos resize_shape
              m p M N 0 8 feats Hr Hs Hp2 ltac:(lia) ltac:(lia) E)
    as (n & Hshape & Hn & Hfin).
  destruct (fin_mat_lift feats n 36 (Hfin Hf resize_finite) Hshape) as (fr & Efr & Hfr).
  assert (2 <= M / p) by (apply Z.div_le_lower_bound; lia).
  assert (2 <= N / p) by (apply Z.div_le_lower_bound; lia).
  assert (Hn2 : (2 <= n)%nat) by nia.
  exists n, fr. subst feats.
  split; [exact E|]. split; [exact Hfr|]. split; [exact Hn2|]. split.
  - intros row Hin.
    destruct (generic_feats_head strict Gamma resize_half Gamma_pos _ _ _ _ _ E
                (lift_vec row)) as (a & rest & Erow & Ha).
    { unfold lift_mat. now apply in_map. }
    destruct row as [|x row]; [discriminate|].
    cbn [lift_vec map] in Erow. injection Erow as -> _.
    exists a, row. split; [reflexivity|assumption].
  - intros pr Epinv Hprs.
    rewrite (niqe_past_assertions strict Gamma resize_half bgr2gray loadmat pinv
               self self' img m M N p Hload Hg Hs Hp HM HN).
    unfold get_patches_test_features. rewrite E. cbn [bind].
    apply (niqe_distance_radicand pinv self' fr pcr mur n 36); assumption || lia.
Qed.


(** Property X18.  In automatic mode [niqe] returns a value for every image of
    at least 18 x 18 pixels with pixels from 0 to 255: it raises nothing,
    whenever the loaded population statistics have 36 and 36 x 36 finite
    entries and [pinv] returns.  The value is a non-negative real number or
    NaN. *)
Theorem auto_mode_scores_every_large_image
    (self self' : scorer) (img : image) (m : matrix) (M N : Z)
    (mur : list R) (pcr : list (list R)) :
  patch_size self = Auto ->
  load_params loadmat self = Ok self' ->
  pop_mu self' = Some (lift_vec mur) -> length mur = 36%nat ->
  pop_cov self' = Some (lift_mat pcr) -> rshape pcr 36 36 ->
  to_gray bgr2gray img = Ok m -> rect m -> in_pixel_range m -> shape m = (M, N) ->
  18 <= M -> 18 <= N ->
  pinv_returns pinv ->
  exists score,
    fst (niqe' self img) = Ok score /\
    (score = NaN \/ exists s, score = Fin s /\ (0 <= s)%R).
Proof.
  intros Hauto Hload Hmu Hmul Hcov Hcovs Hg Hr Hpix Hs HM HN Hpinv.
  destruct (auto_patch_size_fits N M HN HM) as (p & Ep & Hpos & He & [HpN HpM]).
  assert (Hp : resolve_patch_size self M N = Ok p)
    by (unfold resolve_patch_size; now rewrite Hauto).
  destruct (niqe_score_radicand self self' img m M N p mur pcr Hload Hmu Hmul Hcov
              Hcovs Hg Hr (pixel_range_finite m Hpix) Hs Hp Hpos He HpM HpN)
    as (n & fr & Efeats & Hfr & Hn2 & _ & Hscore).
  destruct (Hpinv (build_r 36 36 (avg_cov_r pcr fr)) 36%nat (build_r_shape _ _ _))
    as (pr & Epinv & Hprs).
  rewrite lift_build_r in Epinv.
  rewrite (Hscore pr Epinv Hprs). eexists. split; [reflexivity|].
  apply fsqrt_fin_cases.
Qed.

End ScoreValue.

Lemma pinv_returns_fixture : pinv_returns Fixture.pinv.
Proof.
  intros A d [Hl Hrows]. exists (build_r d d identity_r). split; [|apply build_r_shape].
  unfold Fixture.pinv. unfold lift_mat at 1 2. rewrite length_map, Hl.
  rewrite lift_build_r. f_equal. apply build_ext. intros i j _ _.
  unfold identity_r. now destruct (Nat.eqb i j).
Qed.


Lemma auto_mode_witness :
  exists score,
    fst (niqe false Fixture.gamma Fixture.resize_half Fixture.bgr2gray Fixture.loadmat
           Fixture.pinv (init Auto "params.mat") (Gray (Fixture.zeros 20 30)))
    = Ok score /\
    (score = NaN \/ exists s, score = Fin s /\ (0 <= s)%R).
Proof.
  exact (auto_mode_scores_every_large_image false Fixture.gamma Fixture.resize_half
           Fixture.bgr2gray Fixture.loadmat Fixture.pinv
           gamma_positive_fixture resize_halves_shape_fixture
           resize_keeps_finite_fixture
           (init Auto "params.mat") _ (Gray (Fixture.zeros 20 30)) (Fixture.zeros 20 30)
           20 30 (repeat 0%R 36) (build_r 36 36 identity_r)
           eq_refl eq_refl eq_refl eq_refl eq_refl (build_r_shape _ _ _) eq_refl
           (rect_zeros 20 30) (pixel_range_zeros 20 30) eq_refl
           ltac:(lia) ltac:(lia) pinv_returns_fixture).
Defined.

(** * The command-line driver

    The block under [if __name__ == '__main__'], from the list of paths that
    [glob] returns on. *)

(** What the driver prints. *)
Inductive report : Type :=
| Average (niqe_avg : float)
| NoImagesFound.

Section Driver.

Variable strict : bool.
Variable Gamma : float -> float.
Variable resize_half : matrix -> lib_result matrix.
Variable bgr2gray : list float -> lib_result float.
Variable loadmat : string -> lib_result mat_params.
Variable pinv : matrix -> lib_result matrix.
(** [cv2.imdecode(np.fromfile(path, dtype=np.uint8), cv2.IMREAD_GRAYSCALE)]:
    a 2-D image, or [None] when the data cannot be decoded. *)
Variable imread : string -> lib_result (option matrix).

(** [niqe_calculator.niqe(img)] on what [imdecode] returned.  On [None] the
    parameters are loaded first, then [img.shape] raises. *)
Definition niqe_of_decoded (self : scorer) (img : option matrix)
  : outcome float * scorer :=
  match img with
  | Some m => niqe strict Gamma resize_half bgr2gray loadmat pinv self (Gray m)
  | None =>
      match load_params loadmat self with
      | Ok self' => (Raise (OtherError "AttributeError"), self')
      | Raise e => (Raise e, self)
      | Exit c => (Exit c, self)
      end
  end.

(** The loop over the paths: the scorer, [cnt] and [niqe_sum]. *)
Definition score_images (paths : list string) : outcome (scorer * Z * float) :=
  for_each paths
    (fun '(niqe_calculator, cnt, niqe_sum) path =>
       img <- lift (imread path) ;;
       let '(score, niqe_calculator) := niqe_of_decoded niqe_calculator img in
       score <- score ;;
       Ok (niqe_calculator, cnt + 1, fadd niqe_sum score))
    (init Auto "params.mat", 0, F0).

Definition main (paths : list string) : outcome report :=
  '(_, cnt, niqe_sum) <- score_images paths ;;
  if 0 <? cnt then
    niqe_avg <- np_div strict niqe_sum (of_Z cnt) ;;
    Ok (Average niqe_avg)
  else Ok NoImagesFound.

(** The score of one file, by a scorer of its own. *)
Definition score_of (path : string) : outcome float :=
  img <- lift (imread path) ;;
  fst (niqe_of_decoded (init Auto "params.mat") img).

End Driver.

Lemma bind_assoc {A B C} (m : outcome A) (f : A -> outcome B) (g : B -> outcome C) :
  bind (bind m f) g = bind m (fun a => bind (f a) g).
Proof. now destruct m. Qed.

Lemma mapM_not_ok {A B} (f : A -> outcome B) l a r :
  In a l -> (forall b, f a <> Ok b) -> mapM f l <> Ok r.
Proof.
  intros Hin Hf E. apply mapM_ok_inv in E.
  induction E as [|x y l r Hxy _ IH]; [contradiction|].
  destruct Hin as [->|Hin]; [now apply (Hf y)|now apply IH].
Qed.

Section DriverProps.

Variable strict : bool.
Variable Gamma : float -> float.
Variable resize_half : matrix -> lib_result matrix.
Variable bgr2gray : list float -> lib_result float.
Variable loadmat : string -> lib_result mat_params.
Variable pinv : matrix -> lib_result matrix.
Variable imread : string -> lib_result (option matrix).

Local Abbreviation niqe_of_decoded' :=
  (niqe_of_decoded strict Gamma resize_half bgr2gray loadmat pinv).
Local Abbreviation score_of' :=
  (score_of strict Gamma resize_half bgr2gray loadmat pinv imread).
Local Abbreviation main' :=
  (main strict Gamma resize_half bgr2gray loadmat pinv imread).

(** A call leaves the scorer in a state from which every later call behaves
    as from the state before. *)
Lemma niqe_of_decoded_after self img img2 :
  niqe_of_decoded' (snd (niqe_of_decoded' self img)) img2 = niqe_of_decoded' self img2.
Proof.
  pose proof (no_exit_load loadmat self) as Hne.
  destruct (load_params loadmat self) as [s1|e|c] eqn:E.
  - assert (Hsnd : snd (niqe_of_decoded' self img) = s1)
      by (destruct img; unfold niqe_of_decoded, niqe; now rewrite E).
    rewrite Hsnd. pose proof (load_params_idem _ _ _ E) as E1.
    destruct img2; unfold niqe_of_decoded, niqe; now rewrite E, E1.
  - assert (Hsnd : snd (niqe_of_decoded' self img) = self)
      by (destruct img; unfold niqe_of_decoded, niqe; now rewrite E).
    now rewrite Hsnd.
  - now destruct (Hne c).
Qed.

Lemma no_exit_score_of path : no_exit (score_of' path).
Proof.
  unfold score_of. apply no_exit_bind; [apply no_exit_lift|]. intros [m|] _.
  - apply no_exit_niqe.
  - unfold niqe_of_decoded. pose proof (no_exit_load loadmat (init Auto "params.mat")) as Hne.
    destruct (load_params loadmat (init Auto "params.mat")) as [s|e|c]; cbn [fst];
      [apply no_exit_raise..|now destruct (Hne c)].
Qed.

Lemma score_images_loop paths calc cnt niqe_sum :
  (forall img, niqe_of_decoded' calc img
               = niqe_of_decoded' (init Auto "params.mat") img) ->
  '(_, c, s) <-
     for_each paths
       (fun '(niqe_calculator, cnt, niqe_sum) path =>
          img <- lift (imread path) ;;
          let '(score, niqe_calculator) := niqe_of_decoded' niqe_calculator img in
          score <- score ;;
          Ok (niqe_calculator, cnt + 1, fadd niqe_sum score))
       (calc, cnt, niqe_sum) ;;
   Ok (c, s)
  = scores <- mapM score_of' paths ;;
    Ok (cnt + Z.of_nat (length scores), fold_left fadd scores niqe_sum).
Proof.
  revert calc cnt niqe_sum.
  induction paths as [|path paths IH]; intros calc cnt niqe_sum Hinv.
  - cbn [for_each mapM bind length fold_left Z.of_nat]. now rewrite Z.add_0_r.
  - cbn [for_each mapM]. unfold score_of at 1.
    destruct (imread path) as [img|e]; cbn [lift bind]; [|reflexivity].
    rewrite Hinv.
    pose proof (niqe_of_decoded_after (init Auto "params.mat") img) as Hafter.
    destruct (niqe_of_decoded' (init Auto "params.mat") img) as [[score|e|c] calc'];
      cbn [fst snd bind] in *; [|reflexivity..].
    rewrite (IH calc' (cnt + 1) (fadd niqe_sum score) Hafter).
    rewrite !bind_assoc.
    destruct (mapM score_of' paths) as [scores|e|c]; cbn [bind]; [|reflexivity..].
    cbn [length fold_left]. f_equal. f_equal. lia.
Qed.

(** The loop from its initial state. *)
Lemma score_images_by_file (paths : list string) :
  '(_, cnt, niqe_sum) <-
     score_images strict Gamma resize_half bgr2gray loadmat pinv imread paths ;;
   Ok (cnt, niqe_sum)
  = scores <- mapM score_of' paths ;; Ok (Z.of_nat (length scores), fsum scores).
Proof.
  unfold score_images.
  rewrite (score_images_loop paths (init Auto "params.mat") 0 F0 (fun _ => eq_refl)).
  destruct (mapM score_of' paths) as [scores| |]; reflexivity.
Qed.

(** Property X19.  The driver reports the mean of the scores that the files
    get one by one, each from a scorer of its own: sharing one scorer, which
    loads the parameters on the first file only, changes nothing.  Without
    files it reports that there are none. *)
Theorem main_reports_the_mean_score (paths : list string) :
  main' paths =
  scores <- mapM score_of' paths ;;
  match scores with
  | [] => Ok NoImagesFound
  | _ :: _ => Ok (Average (np_mean scores))
  end.
Proof.
  unfold main. pose proof (score_images_by_file paths) as Hloop.
  destruct (score_images strict Gamma resize_half bgr2gray loadmat pinv imread paths)
    as [[[calc c] s]| |]; cbn [bind] in *.
  - destruct (mapM score_of' paths) as [scores| |]; cbn [bind] in *; try discriminate.
    inversion Hloop as [[Hc Hs]]. clear Hloop.
    destruct scores as [|x scores]; [reflexivity|].
    assert (Hpos : 0 < Z.of_nat (length (x :: scores))) by (cbn [length]; lia).
    rewrite np_div_ok by (apply feq_fin_false, not_0_IZR; lia).
    apply Z.ltb_lt in Hpos. rewrite Hpos. reflexivity.
  - destruct (mapM score_of' paths); cbn [bind] in *; congruence.
  - destruct (mapM score_of' paths); cbn [bind] in *; congruence.
Qed.

(** A file that fails to score makes the loop, and the driver, raise. *)
Lemma failing_file_aborts (paths : list string) (path : string) :
  In path paths -> is_raise (score_of' path) -> is_raise (main' paths).
Proof.
  intros Hin [e He]. unfold main. pose proof (score_images_by_file paths) as Hloop.
  assert (Hfail : forall scores, mapM score_of' paths <> Ok scores).
  { intros scores. apply (mapM_not_ok _ _ path); [assumption|].
    intros b. rewrite He. discriminate. }
  assert (Hne : no_exit (mapM score_of' paths))
    by (apply no_exit_mapM; intros a _; apply no_exit_score_of).
  destruct (mapM score_of' paths) as [scores|e'|c]; cbn [bind] in Hloop.
  - now destruct (Hfail scores).
  - destruct (score_images strict Gamma resize_half bgr2gray loadmat pinv imread paths)
      as [[[calc c] s]|e2|c2]; cbn [bind] in *; try discriminate.
    now exists e2.
  - now destruct (Hne c).
Qed.

(** Property X20.  One file that fails to score aborts the driver: it raises,
    and reports nothing for the files that did score. *)
Theorem main_stops_at_a_failing_image (paths : list string) (path : string) :
  In path paths -> is_raise (score_of' path) -> is_raise (main' paths).
Proof.
  intros Hin [e He]. unfold main. pose proof (score_images_by_file paths) as Hloop.
  assert (Hfail : forall scores, mapM score_of' paths <> Ok scores).
  { intros scores. apply (mapM_not_ok _ _ path); [assumption|].
    intros b. rewrite He. discriminate. }
  assert (Hne : no_exit (mapM score_of' paths))
    by (apply no_exit_mapM; intros a _; apply no_exit_score_of).
  destruct (mapM score_of' paths) as [scores|e'|c]; cbn [bind] in Hloop.
  - now destruct (Hfail scores).
  - destruct (score_images strict Gamma resize_half bgr2gray loadmat pinv imread paths)
      as [[[calc c] s]|e2|c2]; cbn [bind] in *; try discriminate.
    now exists e2.
  - now destruct (Hne c).
Qed.

(** Claim C4, in the form the code satisfies.  When an image fails to score
    because it is too small, [niqe] surfaces the failure to its caller as an
    exception: a scoring call never terminates the process, and the patch-size
    resolution never yields the sentinel -1, because the size assertions come
    before the [return -1] of [get_auto_patch_size] and before the [exit(0)]
    of [_get_patches_generic].  A caller can therefore catch the failure and
    go on.  The code goes no further than that.  Called on its own,
    [_get_patches_generic] ends the process on an image smaller than the
    patch; and the driver catches nothing, so that one file that fails to
    score makes the whole batch raise, with no average for the files that did
    score. *)
Theorem scoring_failure_reaches_the_caller (self : scorer) (img : image) :
  no_exit (fst (niqe strict Gamma resize_half bgr2gray loadmat pinv self img)) /\
  (forall m M N,
     to_gray bgr2gray img = Ok m -> shape m = (M, N) ->
     (forall p, resolve_patch_size self M N = Ok p ->
        M <= 2 * p + 1 \/ N <= 2 * p + 1) ->
     is_raise (fst (niqe strict Gamma resize_half bgr2gray loadmat pinv self img))) /\
  (forall img_w img_h p, get_auto_patch_size img_w img_h = Ok p -> p <> -1) /\
  (forall m p is_train stride H W,
     shape m = (H, W) -> H < p \/ W < p ->
     _get_patches_generic strict Gamma resize_half m p is_train stride = Exit 0) /\
  (forall paths path,
     In path paths -> is_raise (score_of' path) ->
     is_raise (main' paths) /\ forall r, main' paths <> Ok r).
Proof.
  destruct (scoring_failure_is_an_exception strict Gamma resize_half bgr2gray loadmat
              pinv self img) as (H1 & _ & H3 & H4).
  split; [exact H1|]. split; [exact H3|]. split; [exact H4|]. split.
  - intros m p is_train stride H W. apply get_patches_generic_exits.
  - intros paths path Hin Hfail.
    destruct (failing_file_aborts paths path Hin Hfail) as [e He].
    split; [now exists e|]. intros r. rewrite He. discriminate.
Qed.

End DriverProps.

(** A reader for three kinds of files: a 10 x 10 image, data that cannot be
    decoded, and 18 x 18 images. *)
Definition sample_imread (path : string) : lib_result (option matrix) :=
  if String.eqb path "small.jpg" then Returns (Some (Fixture.zeros 10 10))
  else if String.eqb path "broken.jpg" then Returns None
  else Returns (Some (Fixture.zeros 18 18)).

Lemma main_stops_witness :
  is_raise (main false Fixture.gamma Fixture.resize_half Fixture.bgr2gray Fixture.loadmat
              Fixture.pinv sample_imread ["a.jpg"; "small.jpg"; "b.jpg"]%string).
Proof.
  apply (main_stops_at_a_failing_image false Fixture.gamma Fixture.resize_half
           Fixture.bgr2gray Fixture.loadmat Fixture.pinv sample_imread
           ["a.jpg"; "small.jpg"; "b.jpg"]%string "small.jpg"%string).
  - right. left. reflexivity.
  - exists AssertionError. reflexivity.
Defined.

(** A batch of two files whose first is a 10 x 10 image: the driver raises
    the assertion error of that file and never gets to the second.  And the
    feature extraction, called on a 4 x 4 image with patch size 8, leaves the
    process. *)
Lemma small_image_aborts_the_batch :
  main false Fixture.gamma Fixture.resize_half Fixture.bgr2gray Fixture.loadmat
       Fixture.pinv sample_imread ["small.jpg"; "b.jpg"]%string
    = Raise AssertionError /\
  _get_patches_generic false Fixture.gamma Fixture.resize_half (Fixture.zeros 4 4) 8 0 8
    = Exit 0.
Proof. split; reflexivity. Qed.

(** * Further properties of the Gaussian window *)

Lemma set_nth_same {A} (l : list A) k d : set_nth l k (nth k l d) = l.
Proof.
  revert k; induction l as [|a l IH]; intros [|k]; cbn [set_nth nth]; try reflexivity.
  now rewrite IH.
Qed.

Lemma for_each_fixed {A S} (l : list A) (body : S -> A -> outcome S) s :
  (forall a, In a l -> body s a = Ok s) -> for_each l body s = Ok s.
Proof.
  induction l as [|a l IH]; intros H; cbn [for_each]; [reflexivity|].
  rewrite (H a (or_introl eq_refl)). cbn [bind]. apply IH.
  intros b Hb. apply H. now right.
Qed.

(** The unit impulse of half width [n]. *)
Definition impulse (n : nat) : list R := repeat 0%R n ++ 1%R :: repeat 0%R n.

Lemma impulse_length n : length (impulse n) = (2 * n + 1)%nat.
Proof. unfold impulse. rewrite length_app. cbn [length]. rewrite !repeat_length. lia. Qed.

Lemma impulse_start n :
  py_setitem (py_repeat F0 (2 * Z.of_nat n + 1)) (Z.of_nat n) F1 = Ok (map Fin (impulse n)).
Proof.
  unfold py_repeat. replace (Z.to_nat (2 * Z.of_nat n + 1)) with (n + S n)%nat by lia.
  rewrite py_setitem_nat by (rewrite repeat_length; lia).
  f_equal. rewrite repeat_app. cbn [repeat].
  replace n with (length (repeat F0 n) + 0)%nat at 3 by (rewrite repeat_length; lia).
  rewrite set_nth_app_r. cbn [set_nth]. unfold impulse.
  rewrite map_app. cbn [map]. unfold F0, F1. now rewrite !map_repeat.
Qed.

Lemma impulse_off_centre n k :
  (k < 2 * n + 1)%nat -> k <> n -> nth k (map Fin (impulse n)) F0 = Fin 0.
Proof.
  intros Hk Hne. change F0 with (Fin 0). rewrite map_nth. f_equal. unfold impulse.
  destruct (Nat.lt_ge_cases k n) as [Hlt|Hge].
  - rewrite app_nth1 by now rewrite repeat_length.
    apply nth_repeat.
  - rewrite app_nth2 by now rewrite repeat_length.
    rewrite repeat_length. destruct (k - n)%nat as [|j] eqn:E; [lia|].
    cbn [nth]. apply nth_repeat.
Qed.

(** The first loop with [sigma = 0], in the default error state: every weight
    off the centre is written with [exp(-inf) = 0], and the sum stays 1. *)
Lemma zero_sigma_round n ii :
  0 < ii <= Z.of_nat n ->
  (e <- np_div false (fmul (Fin (-0.5)) (of_Z (ii * ii))) (fmul F0 F0) ;;
   let tmp := fexp e in
   weights <- py_setitem (map Fin (impulse n)) (Z.of_nat n + ii) tmp ;;
   weights <- py_setitem weights (Z.of_nat n - ii) tmp ;;
   Ok (weights, fadd F1 (fmul (Fin 2) tmp)))
  = Ok (map Fin (impulse n), F1).
Proof.
  intros Hii. unfold np_div. rewrite andb_false_r. cbn [bind].
  assert (E : fexp (fdiv (fmul (Fin (-0.5)) (of_Z (ii * ii))) (fmul F0 F0)) = Fin 0).
  { cbn [fmul of_Z F0 fdiv]. destruct (Req_dec_T (0 * 0) 0) as [_|Hn]; [|lra].
    unfold scale_inf.
    assert (Hneg : (-0.5 * IZR (ii * ii) < 0)%R).
    { assert (0 < IZR (ii * ii))%R by (apply IZR_lt; nia). lra. }
    destruct (total_order_T 0 (-0.5 * IZR (ii * ii))) as [[Hlt|Heq]|Hgt]; try lra.
    reflexivity. }
  rewrite E. cbv zeta.
  replace (Z.of_nat n + ii) with (Z.of_nat (n + Z.to_nat ii)) by lia.
  replace (Z.of_nat n - ii) with (Z.of_nat (n - Z.to_nat ii)) by lia.
  rewrite py_setitem_nat by (rewrite length_map, impulse_length; lia).
  cbn [bind].
  rewrite <- (impulse_off_centre n (n + Z.to_nat ii)) at 1 by lia.
  rewrite set_nth_same.
  rewrite py_setitem_nat by (rewrite length_map, impulse_length; lia).
  cbn [bind].
  rewrite <- (impulse_off_centre n (n - Z.to_nat ii)) at 1 by lia.
  rewrite set_nth_same. cbn [F1 fmul fadd].
  replace (1 + 2 * 0)%R with 1%R by lra. reflexivity.
Qed.

Lemma fmul_fneg_fneg x : fmul (fneg x) (fneg x) = fmul x x.
Proof. destruct x; cbn [fneg fmul]; try reflexivity. f_equal. ring. Qed.

Lemma feq_zero_square : feq (fmul F0 F0) F0 = true.
Proof. cbn [fmul F0 feq]. destruct (Req_dec_T (0 * 0) 0) as [_|H]; [reflexivity|lra]. Qed.

(** Property X5.  The edge cases of [gen_gauss_window].  A negative half width
    raises [IndexError]: the list of weights is empty and the centre cannot be
    set.  Half width 0 gives the single weight 1 for every [sigma].  With
    [sigma = 0] and a positive half width the exponent is [-x / 0]: NumPy
    raises when divisions are set to raise, and otherwise the window is the
    unit impulse.  The sign of [sigma] plays no role. *)
Theorem gauss_window_edge_cases (strict : bool) (lw : Z) (sigma : float) :
  (lw < 0 -> gen_gauss_window strict lw sigma = Raise IndexError) /\
  (lw = 0 -> gen_gauss_window strict lw sigma = Ok [F1]) /\
  (0 < lw -> gen_gauss_window true lw F0 = Raise FloatingPointError) /\
  (0 < lw -> gen_gauss_window false lw F0 = Ok (map Fin (impulse (Z.to_nat lw)))) /\
  gen_gauss_window strict lw (fneg sigma) = gen_gauss_window strict lw sigma.
Proof.
  split; [|split; [|split; [|split]]].
  - intros Hneg. unfold gen_gauss_window, py_repeat. cbv zeta.
    replace (Z.to_nat (2 * lw + 1)) with 0%nat by lia. cbn [repeat].
    unfold py_setitem, norm_index. cbn [length Z.of_nat].
    replace ((0 <=? lw) && (lw <? 0)) with false
      by (symmetry; apply andb_false_iff; left; lia).
    replace ((- 0 <=? lw) && (lw <? 0)) with false
      by (symmetry; apply andb_false_iff; left; lia).
    reflexivity.
  - intros ->. unfold gen_gauss_window. cbv zeta.
    change (py_repeat F0 (2 * 0 + 1)) with [F0].
    change (py_setitem [F0] 0 F1) with (Ok [F1]). cbn [bind].
    change (py_range2 1 (0 + 1)) with (@nil Z). cbn [for_each bind].
    change (py_range (2 * 0 + 1)) with [0]. cbn [for_each bind].
    change (py_getitem F0 [F1] 0) with (Ok F1). cbn [bind].
    rewrite np_div_ok by (apply feq_fin_false; lra). cbn [bind].
    change (py_setitem [F1] 0 (fdiv F1 F1)) with (Ok [fdiv F1 F1]).
    unfold F1. rewrite fdiv_fin by lra.
    replace (1 / 1)%R with 1%R by field. reflexivity.
  - intros Hpos. unfold gen_gauss_window. cbv zeta.
    replace lw with (Z.of_nat (Z.to_nat lw)) by lia.
    rewrite impulse_start. cbn [bind]. unfold py_range2.
    replace (Z.to_nat (Z.of_nat (Z.to_nat lw) + 1 - 1)) with (Z.to_nat lw) by lia.
    destruct (Z.to_nat lw) as [|n] eqn:E; [lia|].
    cbn [seq map for_each]. unfold np_div at 1.
    rewrite feq_zero_square. reflexivity.
  - intros Hpos. unfold gen_gauss_window. cbv zeta.
    set (n := Z.to_nat lw). replace lw with (Z.of_nat n) by lia.
    rewrite impulse_start. cbn [bind].
    rewrite (for_each_fixed _ _ (map Fin (impulse n), F1)).
    + cbn [bind]. unfold py_range, py_range2.
      replace (Z.to_nat (2 * Z.of_nat n + 1 - 0)) with (length (map Fin (impulse n)))
        by (rewrite length_map, impulse_length; lia).
      pose proof (inplace_map_from F0 (fun w => np_div false w F1)
                    (fun w => fdiv w F1) (map Fin (impulse n))) as Hloop.
      specialize (Hloop (fun x _ => np_div_ok false x _ (feq_fin_false 1 R1_neq_R0)) []).
      cbn [length app] in Hloop. rewrite Hloop. f_equal.
      rewrite map_map. apply map_ext. intros x. unfold F1.
      rewrite fdiv_fin by lra. f_equal. field.
    + intros ii Hin. unfold py_range2 in Hin. apply in_map_iff in Hin as [k [<- Hk]].
      apply in_seq in Hk. apply zero_sigma_round. lia.
  - unfold gen_gauss_window. cbv zeta. now rewrite fmul_fneg_fneg.
Qed.

(** ** The shape of the window *)

Lemma gauss_tap_zero sigma : gauss_tap sigma 0 = 1%R.
Proof.
  unfold gauss_tap. cbn [Z.of_nat Z.mul].
  replace (-0.5 * 0 / (sigma * sigma))%R with 0%R by (unfold Rdiv; ring).
  apply exp_0.
Qed.

Lemma gauss_tap_decreasing sigma j :
  (0 < sigma)%R -> (gauss_tap sigma (S j) < gauss_tap sigma j)%R.
Proof.
  intros Hs. unfold gauss_tap. apply exp_increasing.
  assert (Hq : (0 < sigma * sigma)%R) by nra.
  assert (Hj : (IZR (Z.of_nat j * Z.of_nat j) < IZR (Z.of_nat (S j) * Z.of_nat (S j)))%R)
    by (apply IZR_lt; nia).
  unfold Rdiv. apply Rmult_lt_compat_r; [now apply Rinv_0_lt_compat|lra].
Qed.

Lemma nth_gauss_window_right sigma n j :
  (j <= n)%nat ->
  nth (n + j) (gauss_window sigma n) 0%R = (gauss_tap sigma j / sum_after sigma n)%R.
Proof.
  intros Hj. unfold gauss_window.
  rewrite (nth_indep _ 0%R (0 / sum_after sigma n)%R)
    by (rewrite length_map, length_app, length_rev; cbn [length];
        rewrite gauss_taps_length; lia).
  rewrite (map_nth (fun x => (x / sum_after sigma n)%R)). f_equal.
  rewrite app_nth2 by (rewrite length_rev, gauss_taps_length; lia).
  rewrite length_rev, gauss_taps_length.
  replace (n + j - n)%nat with j by lia.
  destruct j as [|k]; cbn [nth]; [now rewrite gauss_tap_zero|].
  unfold gauss_taps.
  rewrite (nth_indep _ 0%R (gauss_tap sigma (S 0)))
    by (rewrite length_map, length_seq; lia).
  rewrite (map_nth (fun k => gauss_tap sigma (S k))). now rewrite seq_nth by lia.
Qed.

Lemma nth_gauss_window_left sigma n j :
  (j <= n)%nat ->
  nth (n - j) (gauss_window sigma n) 0%R = (gauss_tap sigma j / sum_after sigma n)%R.
Proof.
  intros Hj. rewrite <- (nth_gauss_window_right sigma n j Hj).
  rewrite <- (gauss_window_symmetric sigma n) at 1.
  rewrite rev_nth by (rewrite gauss_window_length; lia).
  rewrite gauss_window_length. f_equal. lia.
Qed.

(** In exact arithmetic every weight is positive and strictly smaller than
    the one before it on the way from the centre. *)
Lemma gauss_window_taps_decrease (strict : bool) (lw : Z) (sigma : R) :
  0 <= lw -> (0 < sigma)%R ->
  exists weights,
    gen_gauss_window strict lw (Fin sigma) = Ok weights /\
    forall i, 0 <= i < lw ->
      exists x y,
        py_getitem F0 weights (lw + i) = Ok (Fin x) /\
        py_getitem F0 weights (lw - i) = Ok (Fin x) /\
        py_getitem F0 weights (lw + i + 1) = Ok (Fin y) /\
        py_getitem F0 weights (lw - i - 1) = Ok (Fin y) /\
        (0 < y < x)%R.
Proof.
  intros Hlw Hs. set (n := Z.to_nat lw).
  assert (Elw : lw = Z.of_nat n) by lia. rewrite Elw.
  rewrite (gen_gauss_window_eq strict sigma Hs n).
  eexists. split; [reflexivity|]. intros i Hi.
  set (k := Z.to_nat i). assert (Ei : i = Z.of_nat k) by lia. rewrite Ei.
  pose proof (sum_after_pos sigma n) as Hsum.
  exists (gauss_tap sigma k / sum_after sigma n)%R,
         (gauss_tap sigma (S k) / sum_after sigma n)%R.
  assert (Hget : forall a, (a < 2 * n + 1)%nat ->
            py_getitem F0 (map Fin (gauss_window sigma n)) (Z.of_nat a)
            = Ok (Fin (nth a (gauss_window sigma n) 0%R))).
  { intros a Ha. rewrite py_getitem_nat by (rewrite length_map, gauss_window_length; lia).
    change F0 with (Fin 0). now rewrite map_nth. }
  replace (Z.of_nat n + Z.of_nat k) with (Z.of_nat (n + k)) by lia.
  replace (Z.of_nat n - Z.of_nat k) with (Z.of_nat (n - k)) by lia.
  replace (Z.of_nat (n + k) + 1) with (Z.of_nat (n + S k)) by lia.
  replace (Z.of_nat (n - k) - 1) with (Z.of_nat (n - S k)) by lia.
  rewrite !Hget by lia.
  rewrite !nth_gauss_window_right, !nth_gauss_window_left by lia.
  repeat (split; [reflexivity|]).
  pose proof (gauss_tap_decreasing sigma k Hs) as Hdec.
  assert (Hpos : (0 < gauss_tap sigma (S k))%R) by apply exp_pos.
  split.
  - apply Rdiv_lt_0_compat; lra.
  - unfold Rdiv. apply Rmult_lt_compat_r; [apply Rinv_0_lt_compat; lra|assumption].
Qed.

(** Property X6.  In the default error state the window peaks at its centre
    for every positive [sigma]: going away from the centre, on either side, no
    weight is negative and none is larger than the one before.  (The exact
    weights are positive and strictly decreasing; in 32-bit floats the far
    weights of a narrow window underflow to 0.) *)
Theorem gauss_window_peaks_at_centre (lw : Z) (sigma : R) :
  0 <= lw -> (0 < sigma)%R ->
  exists weights,
    gen_gauss_window false lw (Fin sigma) = Ok weights /\
    forall i, 0 <= i < lw ->
      exists x y,
        py_getitem F0 weights (lw + i) = Ok (Fin x) /\
        py_getitem F0 weights (lw - i) = Ok (Fin x) /\
        py_getitem F0 weights (lw + i + 1) = Ok (Fin y) /\
        py_getitem F0 weights (lw - i - 1) = Ok (Fin y) /\
        (0 <= y <= x)%R.
Proof.
  intros Hlw Hs.
  destruct (gauss_window_taps_decrease false lw sigma Hlw Hs) as (weights & E & Hw).
  exists weights. split; [exact E|]. intros i Hi.
  destruct (Hw i Hi) as (x & y & E1 & E2 & E3 & E4 & Hxy).
  exists x, y. repeat (split; [assumption|]). lra.
Qed.

Lemma gauss_window_peak_witness :
  exists weights,
    gen_gauss_window false 3 (Fin (7 / 6)) = Ok weights /\
    forall i, 0 <= i < 3 ->
      exists x y,
        py_getitem F0 weights (3 + i) = Ok (Fin x) /\
        py_getitem F0 weights (3 - i) = Ok (Fin x) /\
        py_getitem F0 weights (3 + i + 1) = Ok (Fin y) /\
        py_getitem F0 weights (3 - i - 1) = Ok (Fin y) /\
        (0 <= y <= x)%R.
Proof. apply (gauss_window_peaks_at_centre 3 (7 / 6)); [lia|lra]. Defined.

(** * Further properties of the paired products and of the MSCN transform *)

(** ** Entries of rolled and combined arrays *)

Lemma np_roll_length {A} shift (l : list A) : length (np_roll shift l) = length l.
Proof.
  unfold np_roll. destruct l as [|a t]; [reflexivity|].
  set (l := a :: t). set (k := Z.to_nat (- shift mod Z.of_nat (length l))).
  rewrite length_app, length_skipn, length_firstn.
  assert (k < length l)%nat.
  { unfold k. pose proof (Z.mod_pos_bound (- shift) (Z.of_nat (length l))).
    assert (0 < Z.of_nat (length l)) by (unfold l; cbn [length]; lia). lia. }
  lia.
Qed.

(** [np.roll(l, shift)[i] = l[(i - shift) mod len(l)]] *)
Lemma nth_np_roll {A} (d : A) shift l i :
  (i < length l)%nat ->
  nth i (np_roll shift l) d
  = nth (Z.to_nat ((Z.of_nat i - shift) mod Z.of_nat (length l))) l d.
Proof.
  intros Hi. unfold np_roll. destruct l as [|a t]; [cbn [length] in Hi; lia|].
  set (l := a :: t) in *. set (n := Z.of_nat (length l)).
  assert (Hn : 0 < n) by (unfold n; lia).
  pose proof (Z.mod_pos_bound (- shift) n Hn) as Hk.
  set (k := Z.to_nat (- shift mod n)).
  assert (Ek : Z.of_nat k = - shift mod n) by (unfold k; lia).
  assert (Emod : (Z.of_nat i - shift) mod n = (Z.of_nat i + Z.of_nat k) mod n).
  { rewrite Ek, Zplus_mod_idemp_r. f_equal; lia. }
  rewrite Emod.
  destruct (Nat.lt_ge_cases (i + k) (length l)) as [Hlt|Hge].
  - rewrite app_nth1 by (rewrite length_skipn; lia).
    rewrite nth_skipn. rewrite Z.mod_small by (unfold n; lia). f_equal. lia.
  - rewrite app_nth2 by (rewrite length_skipn; lia).
    rewrite length_skipn, nth_firstn.
    replace (i - (length l - k) <? k)%nat with true
      by (symmetry; apply Nat.ltb_lt; unfold n in *; lia).
    f_equal.
    assert (E : (Z.of_nat i + Z.of_nat k) mod n = Z.of_nat i + Z.of_nat k - n).
    { symmetry. apply (Z.mod_unique _ _ 1); unfold n in *; lia. }
    rewrite E. unfold n. lia.
Qed.

Lemma nth_map2 {A B C} (f : A -> B -> C) l l' i da db dc :
  (i < length l)%nat -> (i < length l')%nat ->
  nth i (map2 f l l') dc = f (nth i l da) (nth i l' db).
Proof.
  revert l' i; induction l as [|a l IH]; intros [|b l'] [|i] H1 H2;
    cbn [length] in *; try lia; cbn [map2 nth]; [reflexivity|].
  apply IH; lia.
Qed.

Lemma at0_nat m i j :
  at0 m (Z.of_nat i) (Z.of_nat j) = nth j (nth i m []) F0.
Proof.
  unfold at0.
  replace ((0 <=? Z.of_nat i) && (0 <=? Z.of_nat j)) with true
    by (symmetry; apply andb_true_intro; split; apply Z.leb_le; lia).
  now rewrite !Nat2Z.id.
Qed.

Lemma has_shape_nth m h w i : has_shape m h w -> (i < h)%nat -> length (nth i m []) = w.
Proof. intros [Hl Hrows] Hi. apply Hrows, nth_In. lia. Qed.

Lemma at0_map2 f a b h w i j :
  has_shape a h w -> has_shape b h w -> (i < h)%nat -> (j < w)%nat ->
  at0 (mat_map2 f a b) (Z.of_nat i) (Z.of_nat j)
  = f (at0 a (Z.of_nat i) (Z.of_nat j)) (at0 b (Z.of_nat i) (Z.of_nat j)).
Proof.
  intros Ha Hb Hi Hj. rewrite !at0_nat. unfold mat_map2.
  rewrite (nth_map2 (map2 f) a b i [] [] [])
    by (destruct Ha as [Ha1 _]; destruct Hb as [Hb1 _]; lia).
  apply nth_map2; [rewrite (has_shape_nth a h w)|rewrite (has_shape_nth b h w)];
    assumption.
Qed.

Lemma at0_map f m h w i j :
  has_shape m h w -> (i < h)%nat -> (j < w)%nat ->
  at0 (mat_map f m) (Z.of_nat i) (Z.of_nat j) = f (at0 m (Z.of_nat i) (Z.of_nat j)).
Proof.
  intros Hm Hi Hj. rewrite !at0_nat. unfold mat_map.
  change (@nil float) with (map f []) at 1. rewrite map_nth.
  rewrite (nth_indep _ F0 (f F0)) by (rewrite length_map, (has_shape_nth m h w); assumption).
  apply map_nth.
Qed.

Lemma at0_roll_axis1 shift m h w i j :
  has_shape m h w -> (i < h)%nat -> (j < w)%nat ->
  at0 (roll_axis1 shift m) (Z.of_nat i) (Z.of_nat j)
  = at0 m (Z.of_nat i) ((Z.of_nat j - shift) mod Z.of_nat w).
Proof.
  intros Hm Hi Hj. rewrite at0_nat. unfold roll_axis1.
  change (@nil float) with (np_roll shift (@nil float)). rewrite map_nth.
  rewrite nth_np_roll by (rewrite (has_shape_nth m h w); assumption).
  rewrite (has_shape_nth m h w) by assumption.
  pose proof (Z.mod_pos_bound (Z.of_nat j - shift) (Z.of_nat w) ltac:(lia)).
  rewrite <- (Z2Nat.id ((Z.of_nat j - shift) mod Z.of_nat w)) at 2 by lia.
  now rewrite at0_nat.
Qed.

Lemma at0_roll_axis0 shift m h w i j :
  has_shape m h w -> (i < h)%nat -> (j < w)%nat ->
  at0 (roll_axis0 shift m) (Z.of_nat i) (Z.of_nat j)
  = at0 m ((Z.of_nat i - shift) mod Z.of_nat h) (Z.of_nat j).
Proof.
  intros Hm Hi Hj. rewrite at0_nat. unfold roll_axis0.
  destruct Hm as [Hl Hrows].
  rewrite nth_np_roll by lia. rewrite Hl.
  pose proof (Z.mod_pos_bound (Z.of_nat i - shift) (Z.of_nat h) ltac:(lia)).
  rewrite <- (Z2Nat.id ((Z.of_nat i - shift) mod Z.of_nat h)) at 2 by lia.
  now rewrite at0_nat.
Qed.

Lemma has_shape_roll_axis0 shift m h w : has_shape m h w -> has_shape (roll_axis0 shift m) h w.
Proof.
  intros [Hl Hrows]. split; [unfold roll_axis0; now rewrite np_roll_length|].
  intros row Hin. apply Hrows. exact (np_roll_In _ _ _ Hin).
Qed.

Lemma has_shape_roll_axis1 shift m h w : has_shape m h w -> has_shape (roll_axis1 shift m) h w.
Proof.
  intros [Hl Hrows]. unfold roll_axis1. split; [now rewrite length_map|].
  intros row Hin. apply in_map_iff in Hin as [r [<- Hr]].
  rewrite np_roll_length. now apply Hrows.
Qed.

(** Property X4.  The four paired products keep the shape of the field, and
    multiply each coefficient by a neighbour taken with wrap-around: the one
    to the left, the one above, the one above to the left, and the one above
    to the right. *)
Theorem paired_product_neighbours (new_im : matrix) (H W : Z) :
  rect new_im -> shape new_im = (H, W) -> 0 < H ->
  exists H_img V_img D1_img D2_img,
    paired_product new_im = (H_img, V_img, D1_img, D2_img) /\
    (rect H_img /\ shape H_img = (H, W)) /\
    (rect V_img /\ shape V_img = (H, W)) /\
    (rect D1_img /\ shape D1_img = (H, W)) /\
    (rect D2_img /\ shape D2_img = (H, W)) /\
    forall i j, 0 <= i < H -> 0 <= j < W ->
      at0 H_img i j = fmul (at0 new_im i ((j - 1) mod W)) (at0 new_im i j) /\
      at0 V_img i j = fmul (at0 new_im ((i - 1) mod H) j) (at0 new_im i j) /\
      at0 D1_img i j
        = fmul (at0 new_im ((i - 1) mod H) ((j - 1) mod W)) (at0 new_im i j) /\
      at0 D2_img i j
        = fmul (at0 new_im ((i - 1) mod H) ((j + 1) mod W)) (at0 new_im i j).
Proof.
  intros Hr Hs HH. pose proof (rect_has_shape _ _ _ Hr Hs) as Hsh.
  destruct (shape_nonneg _ _ _ Hs) as [_ HW].
  set (h := Z.to_nat H) in *. set (w := Z.to_nat W) in *.
  assert (EH : H = Z.of_nat h) by lia. assert (EW : W = Z.of_nat w) by lia.
  assert (Hh : (0 < h)%nat) by lia.
  pose proof (has_shape_roll_axis0 1 _ _ _ Hsh) as S0.
  do 4 eexists. split; [reflexivity|].
  assert (Shape : forall m, has_shape m h w -> rect m /\ shape m = (H, W)).
  { intros m Hm. rewrite EH, EW. now apply has_shape_rect. }
  split; [apply Shape, has_shape_map2; [now apply has_shape_roll_axis1|assumption]|].
  split; [apply Shape, has_shape_map2; assumption|].
  split; [apply Shape, has_shape_map2; [now apply has_shape_roll_axis1|assumption]|].
  split; [apply Shape, has_shape_map2; [now apply has_shape_roll_axis1|assumption]|].
  intros i j Hi Hj.
  set (a := Z.to_nat i). set (b := Z.to_nat j).
  assert (Ei : i = Z.of_nat a) by lia. assert (Ej : j = Z.of_nat b) by lia.
  rewrite Ei, Ej, EH, EW.
  assert (Ha : (a < h)%nat) by lia. assert (Hb : (b < w)%nat) by lia.
  pose proof (Z.mod_pos_bound (Z.of_nat a - 1) (Z.of_nat h) ltac:(lia)) as Hm.
  assert (Hup : (Z.to_nat ((Z.of_nat a - 1) mod Z.of_nat h) < h)%nat) by lia.
  assert (Eup : (Z.of_nat a - 1) mod Z.of_nat h
                = Z.of_nat (Z.to_nat ((Z.of_nat a - 1) mod Z.of_nat h))) by lia.
  repeat split.
  - rewrite (at0_map2 _ _ _ h w) by (try apply has_shape_roll_axis1; assumption).
    now rewrite (at0_roll_axis1 _ _ h w).
  - rewrite (at0_map2 _ _ _ h w) by assumption.
    now rewrite (at0_roll_axis0 _ _ h w).
  - rewrite (at0_map2 _ _ _ h w) by (try apply has_shape_roll_axis1; assumption).
    rewrite (at0_roll_axis1 _ _ h w) by assumption.
    pose proof (Z.mod_pos_bound (Z.of_nat b - 1) (Z.of_nat w) ltac:(lia)) as Hmw.
    rewrite <- (Z2Nat.id ((Z.of_nat b - 1) mod Z.of_nat w)) at 1 by lia.
    rewrite (at0_roll_axis0 _ _ h w) by (try assumption; lia).
    rewrite Z2Nat.id by lia. reflexivity.
  - rewrite (at0_map2 _ _ _ h w) by (try apply has_shape_roll_axis1; assumption).
    rewrite (at0_roll_axis1 _ _ h w) by assumption.
    replace (Z.of_nat b - -1) with (Z.of_nat b + 1) by lia.
    pose proof (Z.mod_pos_bound (Z.of_nat b + 1) (Z.of_nat w) ltac:(lia)) as Hmw.
    rewrite <- (Z2Nat.id ((Z.of_nat b + 1) mod Z.of_nat w)) at 1 by lia.
    rewrite (at0_roll_axis0 _ _ h w) by (try assumption; lia).
    rewrite Z2Nat.id by lia. reflexivity.
Qed.

Lemma paired_product_witness :
  exists H_img V_img D1_img D2_img,
    paired_product (Fixture.zeros 2 3) = (H_img, V_img, D1_img, D2_img) /\
    shape H_img = (2, 3) /\ shape D2_img = (2, 3).
Proof.
  destruct (paired_product_neighbours (Fixture.zeros 2 3) 2 3 (rect_zeros 2 3) eq_refl)
    as (Hi & Vi & D1 & D2 & E & [_ SH] & _ & _ & [_ SD] & _); [lia|].
  exists Hi, Vi, D1, D2. repeat split; assumption.
Defined.

(** ** The MSCN transform *)

Lemma correlate1d_nonempty input weights axis :
  weights <> [] ->
  correlate1d input weights axis
  = Ok (build (length input) (length (hd [] input)) (fun i c =>
          fsum (map (fun j =>
                  let o := Z.of_nat j - Z.of_nat (Nat.div (length weights) 2) in
                  fmul (nth j weights F0)
                       (match axis with
                        | O => at0 input (Z.of_nat i + o) (Z.of_nat c)
                        | _ => at0 input (Z.of_nat i) (Z.of_nat c + o)
                        end))
                (seq 0 (length weights))))).
Proof. destruct weights; [congruence|reflexivity]. Qed.

Lemma nonneg_sqrt_abs x :
  is_finite x -> exists r, fsqrt (fabs x) = Fin r /\ (0 <= r)%R.
Proof.
  intros [y ->]. cbn [fabs fsqrt]. pose proof (Rabs_pos y).
  destruct (Rlt_dec (Rabs y) 0); [lra|]. eexists. split; [reflexivity|apply sqrt_pos].
Qed.

Section MscnTransform.

Variable strict : bool.

(** The transform returns three arrays of the shape of the image; computed
    exactly, they are finite when the image is. *)
Lemma mscn_transform_exact (img : matrix) (H W : Z) :
  rect img -> shape img = (H, W) -> 0 < H -> 0 < W ->
  exists mscn var_image mu_image,
    compute_image_mscn_transform strict img F1 None = Ok (mscn, var_image, mu_image) /\
    (rect mscn /\ shape mscn = (H, W)) /\
    (rect var_image /\ shape var_image = (H, W)) /\
    (rect mu_image /\ shape mu_image = (H, W)) /\
    (fin_mat img ->
     fin_mat mscn /\ fin_mat mu_image /\
     forall row x, In row var_image -> In x row -> exists r, x = Fin r /\ (0 <= r)%R).
Proof.
  intros Hr Hsh HH HWpos. pose proof (rect_has_shape _ _ _ Hr Hsh) as Hs.
  destruct (shape_nonneg _ _ _ Hsh) as [_ HW].
  set (h := Z.to_nat H) in *. set (w := Z.to_nat W) in *.
  assert (Hh : (0 < h)%nat) by lia.
  assert (Shape : forall m, has_shape m h w -> rect m /\ shape m = (H, W)).
  { intros m Hm. replace H with (Z.of_nat h) by lia. replace W with (Z.of_nat w) by lia.
    now apply has_shape_rect. }
  unfold compute_image_mscn_transform.
  destruct (default_window strict) as [win [-> [Hwin Fwin]]]. cbn [bind].
  destruct (correlate1d_ok img win 0 h w Hwin Hs Hh) as [mu0 [-> [Hmu0 Fmu0]]]. cbn [bind].
  destruct (correlate1d_ok mu0 win 1 h w Hwin Hmu0 Hh) as [mu [-> [Hmu Fmu]]]. cbn [bind].
  destruct (correlate1d_ok (mat_map (fun x => math_pow x 2) img) win 0 h w Hwin
              (has_shape_map _ _ _ _ Hs) Hh) as [v0 [-> [Hv0 Fv0]]]. cbn [bind].
  destruct (correlate1d_ok v0 win 1 h w Hwin Hv0 Hh) as [v [-> [Hv Fv]]]. cbn [bind].
  cbv zeta.
  set (pre := mat_map2 fsub v (mat_map (fun x => math_pow x 2) mu)).
  set (var := mat_map (fun x => fsqrt (fabs x)) pre).
  assert (Hvar : has_shape var h w).
  { apply has_shape_map, has_shape_map2; [assumption|now apply has_shape_map]. }
  destruct (divide_rows strict (mat_map2 fsub img mu) (mat_map (fun v => fadd v F1) var) h w)
    as [mscn [E [Hm Fm]]].
  - now apply has_shape_map2.
  - now apply has_shape_map.
  - intros drow d Hdrow Hd. unfold mat_map in Hdrow.
    apply in_map_iff in Hdrow as [vrow [<- Hvrow]].
    apply in_map_iff in Hd as [x [<- Hx]].
    unfold var, mat_map in Hvrow. apply in_map_iff in Hvrow as [yrow [<- Hyrow]].
    apply in_map_iff in Hx as [y [<- Hy]]. apply mscn_divisor_nonzero.
  - rewrite E. cbn [bind]. do 3 eexists. split; [reflexivity|].
    split; [now apply Shape|]. split; [now apply Shape|]. split; [now apply Shape|].
    intros Hfin.
    assert (Fmu' : fin_mat mu) by (apply Fmu; [assumption|now apply Fmu0]).
    assert (Fv' : fin_mat v).
    { apply Fv; [assumption|]. apply Fv0; [assumption|].
      apply fin_mat_map; [exact finite_square|assumption]. }
    assert (Fpre : fin_mat pre).
    { apply fin_mat_map2; [exact finite_fsub|assumption|].
      apply fin_mat_map; [exact finite_square|assumption]. }
    split; [|split; [assumption|]].
    + apply Fm.
      * apply fin_mat_map2; [exact finite_fsub|assumption|assumption].
      * intros drow d Hdrow Hd. unfold mat_map in Hdrow.
        apply in_map_iff in Hdrow as [vrow [<- Hvrow]].
        apply in_map_iff in Hd as [x [<- Hx]].
        unfold var, mat_map in Hvrow. apply in_map_iff in Hvrow as [yrow [<- Hyrow]].
        apply in_map_iff in Hx as [y [<- Hy]].
        apply mscn_divisor_finite. exact (Fpre yrow Hyrow y Hy).
    + intros row x Hrow Hx. unfold var, mat_map in Hrow.
      apply in_map_iff in Hrow as [yrow [<- Hyrow]].
      apply in_map_iff in Hx as [y [<- Hy]].
      apply nonneg_sqrt_abs. exact (Fpre yrow Hyrow y Hy).
Qed.

(** Property X7.  The MSCN transform with its default window and [C = 1]
    returns for every non-empty rectangular image, whatever its values and
    whatever the division error state: the divisor [var_image + 1] is never 0.
    The three arrays it returns have the shape of the image.  For an image
    with pixels from 0 to 255 they hold finite values, and the local deviation
    is not negative. *)
Theorem mscn_transform_is_total (img : matrix) (H W : Z) :
  rect img -> shape img = (H, W) -> 0 < H -> 0 < W ->
  exists mscn var_image mu_image,
    compute_image_mscn_transform strict img F1 None = Ok (mscn, var_image, mu_image) /\
    (rect mscn /\ shape mscn = (H, W)) /\
    (rect var_image /\ shape var_image = (H, W)) /\
    (rect mu_image /\ shape mu_image = (H, W)) /\
    (in_pixel_range img ->
     fin_mat mscn /\ fin_mat mu_image /\
     forall row x, In row var_image -> In x row -> exists r, x = Fin r /\ (0 <= r)%R).
Proof.
  intros Hr Hsh HH HW.
  destruct (mscn_transform_exact img H W Hr Hsh HH HW)
    as (mscn & var & mu & E & S1 & S2 & S3 & Hfin).
  exists mscn, var, mu. repeat (split; [assumption|]).
  intros Hpix. apply Hfin. now apply pixel_range_finite.
Qed.

End MscnTransform.

Lemma mscn_transform_witness :
  exists mscn var_image mu_image,
    compute_image_mscn_transform false (Fixture.zeros 4 5) F1 None
    = Ok (mscn, var_image, mu_image) /\
    shape mscn = (4, 5).
Proof.
  destruct (mscn_transform_is_total false (Fixture.zeros 4 5) 4 5 (rect_zeros 4 5) eq_refl)
    as (mscn & var & mu & E & [_ S] & _); [lia|lia|].
  exists mscn, var, mu. split; assumption.
Defined.

(** ** Flat neighbourhoods *)

Lemma mapM_nth {A B} (f : A -> outcome B) l r (da : A) (db : B) i :
  mapM f l = Ok r -> (i < length l)%nat -> f (nth i l da) = Ok (nth i r db).
Proof.
  intros E. apply mapM_ok_inv in E. revert i.
  induction E as [|a b l r Hab _ IH]; intros [|i] Hi; cbn [length] in Hi; try lia;
    cbn [nth]; [assumption|]. apply IH. lia.
Qed.

Lemma divide_rows_entry strict num den h w r i j :
  has_shape num h w -> has_shape den h w ->
  mapM (fun '(nrow, drow) =>
          mapM (fun '(n, d) => np_div strict n d) (combine nrow drow))
       (combine num den) = Ok r ->
  (i < h)%nat -> (j < w)%nat ->
  np_div strict (at0 num (Z.of_nat i) (Z.of_nat j)) (at0 den (Z.of_nat i) (Z.of_nat j))
  = Ok (at0 r (Z.of_nat i) (Z.of_nat j)).
Proof.
  intros Hn Hd E Hi Hj. rewrite !at0_nat.
  pose proof (mapM_nth _ _ _ ([], []) [] i E) as Erow.
  rewrite length_combine in Erow.
  destruct Hn as [Ln Rn], Hd as [Ld Rd].
  specialize (Erow ltac:(lia)). rewrite combine_nth in Erow by lia.
  pose proof (mapM_nth _ _ _ (F0, F0) F0 j Erow) as Eentry.
  rewrite length_combine in Eentry.
  assert (L1 : length (nth i num []) = w) by (apply Rn, nth_In; lia).
  assert (L2 : length (nth i den []) = w) by (apply Rd, nth_In; lia).
  specialize (Eentry ltac:(lia)). rewrite combine_nth in Eentry by lia.
  exact Eentry.
Qed.

Lemma at0_outside m h w i j :
  has_shape m h w -> j < 0 \/ Z.of_nat w <= j -> at0 m i j = F0.
Proof.
  intros [Hl Hrows] Hj. unfold at0.
  destruct ((0 <=? i) && (0 <=? j)) eqn:E; [|reflexivity].
  apply andb_prop in E as [_ E]. apply Z.leb_le in E.
  apply nth_overflow.
  destruct (nth_in_or_default (Z.to_nat i) m []) as [Hin| ->]; [|cbn [length]; lia].
  rewrite (Hrows _ Hin). lia.
Qed.

Lemma at0_square m x y q :
  at0 m x y = Fin q -> at0 (mat_map (fun v => math_pow v 2) m) x y = Fin (q * q).
Proof.
  unfold at0. destruct ((0 <=? x) && (0 <=? y)).
  - intros E. unfold mat_map.
    change (@nil float) with (map (fun v => math_pow v 2) []). rewrite map_nth.
    set (row := nth (Z.to_nat x) m []) in *.
    destruct (Nat.lt_ge_cases (Z.to_nat y) (length row)) as [Hlt|Hge].
    + rewrite (nth_indep _ F0 (math_pow F0 2)) by now rewrite length_map.
      rewrite (map_nth (fun v => math_pow v 2)), E. reflexivity.
    + rewrite nth_overflow in E by assumption.
      rewrite nth_overflow by (rewrite length_map; assumption).
      inversion E. unfold F0. f_equal. ring.
  - intros E. inversion E. unfold F0. f_equal. ring.
Qed.

Lemma weighted_sum_flat gw q (f : nat -> float) :
  rsum gw = 1%R -> (forall j, (j < length gw)%nat -> f j = Fin q) ->
  fsum (map (fun j => fmul (nth j (map Fin gw) F0) (f j)) (seq 0 (length gw))) = Fin q.
Proof.
  intros Hsum Hf.
  rewrite (map_ext_in _ (fun j => Fin (nth j gw 0 * q)%R)).
  - rewrite <- (map_map (fun j => (nth j gw 0 * q)%R) Fin), fsum_fin. f_equal.
    change (sumn (length gw) (fun j => (nth j gw 0 * q)%R) = q).
    rewrite sumn_scal_r.
    rewrite <- (rsum_map_sumn (fun x => x) gw 0%R), map_id, Hsum. lra.
  - intros j Hj. apply in_seq in Hj. rewrite Hf by lia.
    change F0 with (Fin 0). now rewrite map_nth.
Qed.

(** One pass of the filter at a place where every input it reads has the
    same value. *)
Lemma correlate1d_flat input gw axis h w i c q out :
  gw <> [] -> rsum gw = 1%R -> has_shape input h w -> (i < h)%nat -> (c < w)%nat ->
  (forall j, (j < length gw)%nat ->
     match axis with
     | O => at0 input (Z.of_nat i + (Z.of_nat j - Z.of_nat (length gw / 2))) (Z.of_nat c)
     | _ => at0 input (Z.of_nat i) (Z.of_nat c + (Z.of_nat j - Z.of_nat (length gw / 2)))
     end = Fin q) ->
  correlate1d input (map Fin gw) axis = Ok out ->
  at0 out (Z.of_nat i) (Z.of_nat c) = Fin q.
Proof.
  intros Hgw Hsum Hs Hi Hc Hflat E.
  rewrite correlate1d_nonempty in E by (destruct gw; [congruence|discriminate]).
  inversion E as [Eout]. clear E Eout.
  rewrite at0_nat, nth_build
    by (rewrite ?(has_shape_hd _ _ _ Hs) by lia; destruct Hs as [Hl _]; lia).
  cbv zeta. rewrite !length_map.
  apply (weighted_sum_flat gw q
           (fun j => match axis with
                     | O => at0 input (Z.of_nat i + (Z.of_nat j - Z.of_nat (length gw / 2)))
                                (Z.of_nat c)
                     | _ => at0 input (Z.of_nat i)
                                (Z.of_nat c + (Z.of_nat j - Z.of_nat (length gw / 2)))
                     end)); assumption.
Qed.

(** The two passes, along the columns and then along the rows, at a place
    whose whole neighbourhood has the same value. *)
Lemma smooth_flat input gw h w i c q m0 m1 :
  gw <> [] -> rsum gw = 1%R -> has_shape input h w -> (i < h)%nat -> (c < w)%nat ->
  (forall a b,
     - Z.of_nat (length gw / 2) <= a < Z.of_nat (length gw) - Z.of_nat (length gw / 2) ->
     - Z.of_nat (length gw / 2) <= b < Z.of_nat (length gw) - Z.of_nat (length gw / 2) ->
     at0 input (Z.of_nat i + a) (Z.of_nat c + b) = Fin q) ->
  correlate1d input (map Fin gw) 0 = Ok m0 ->
  correlate1d m0 (map Fin gw) 1 = Ok m1 ->
  at0 m1 (Z.of_nat i) (Z.of_nat c) = Fin q.
Proof.
  intros Hgw Hsum Hs Hi Hc Hflat E0 E1.
  assert (Hlen : (length gw / 2 < length gw)%nat).
  { apply Nat.div_lt; [|lia]. destruct gw; [congruence|cbn [length]; lia]. }
  assert (Hm0 : has_shape m0 h w).
  { destruct (correlate1d_ok input (map Fin gw) 0 h w) as [out [E [Hout _]]];
      [destruct gw; [congruence|discriminate]|assumption|lia|].
    rewrite E0 in E. now inversion E. }
  apply (correlate1d_flat m0 gw 1 h w i c q m1); try assumption.
  intros j Hj. set (b := Z.of_nat j - Z.of_nat (length gw / 2)).
  destruct (Z_lt_ge_dec (Z.of_nat c + b) 0) as [Hneg|Hnn].
  - rewrite (at0_outside m0 h w) by (try assumption; lia).
    specialize (Hflat 0 b ltac:(lia) ltac:(unfold b; lia)).
    rewrite Z.add_0_r, (at0_outside input h w) in Hflat by (try assumption; lia).
    exact Hflat.
  - destruct (Z_lt_ge_dec (Z.of_nat c + b) (Z.of_nat w)) as [Hin|Hout].
    + replace (Z.of_nat c + b) with (Z.of_nat (Z.to_nat (Z.of_nat c + b))) by lia.
      apply (correlate1d_flat input gw 0 h w i _ q m0); try assumption; [lia|].
      intros j' Hj'. rewrite Z2Nat.id by lia.
      apply Hflat; unfold b; lia.
    + rewrite (at0_outside m0 h w) by (try assumption; lia).
      specialize (Hflat 0 b ltac:(lia) ltac:(unfold b; lia)).
      rewrite Z.add_0_r, (at0_outside input h w) in Hflat by (try assumption; lia).
      exact Hflat.
Qed.

Section FlatNeighbourhood.

Variable strict : bool.

(** The three arrays at a pixel whose 7 x 7 neighbourhood is flat. *)
Lemma mscn_flat_entry (img : matrix) (H W i j : Z) (q : R) :
  rect img -> shape img = (H, W) -> 0 <= i < H -> 0 <= j < W ->
  (forall a b, -3 <= a <= 3 -> -3 <= b <= 3 -> at0 img (i + a) (j + b) = Fin q) ->
  exists mscn var_image mu_image,
    compute_image_mscn_transform strict img F1 None = Ok (mscn, var_image, mu_image) /\
    at0 mu_image i j = Fin q /\ at0 var_image i j = F0 /\ at0 mscn i j = F0.
Proof.
  intros Hr Hsh Hi Hj Hflat. pose proof (rect_has_shape _ _ _ Hr Hsh) as Hs.
  set (h := Z.to_nat H) in *. set (w := Z.to_nat W) in *.
  assert (Hh : (0 < h)%nat) by lia.
  set (a := Z.to_nat i). set (b := Z.to_nat j).
  assert (Ha : (a < h)%nat) by lia. assert (Hb : (b < w)%nat) by lia.
  replace i with (Z.of_nat a) in * by lia. replace j with (Z.of_nat b) in * by lia.
  unfold compute_image_mscn_transform.
  change 3 with (Z.of_nat 3) at 1.
  rewrite (gen_gauss_window_eq strict (7 / 6) ltac:(lra) 3). cbn [bind].
  set (gw := gauss_window (7 / 6) 3).
  assert (Hlen : length gw = 7%nat) by apply gauss_window_length.
  assert (Hgw : gw <> []) by (intros E; rewrite E in Hlen; discriminate).
  assert (Hwin : map Fin gw <> []) by (destruct gw; [congruence|discriminate]).
  assert (Hsum : rsum gw = 1%R) by apply gauss_window_sum.
  destruct (correlate1d_ok img (map Fin gw) 0 h w Hwin Hs Hh) as [mu0 [E0 [Hmu0 _]]].
  rewrite E0. cbn [bind].
  destruct (correlate1d_ok mu0 (map Fin gw) 1 h w Hwin Hmu0 Hh) as [mu [E1 [Hmu _]]].
  rewrite E1. cbn [bind].
  pose proof (has_shape_map _ _ _ (fun x => math_pow x 2) Hs) as Hsq.
  destruct (correlate1d_ok _ (map Fin gw) 0 h w Hwin Hsq Hh) as [v0 [E2 [Hv0 _]]].
  rewrite E2. cbn [bind].
  destruct (correlate1d_ok v0 (map Fin gw) 1 h w Hwin Hv0 Hh) as [v [E3 [Hv _]]].
  rewrite E3. cbn [bind]. cbv zeta.
  assert (Emu : at0 mu (Z.of_nat a) (Z.of_nat b) = Fin q).
  { apply (smooth_flat img gw h w a b q mu0 mu); try assumption.
    intros x y Hx Hy. rewrite Hlen in Hx, Hy. change (7 / 2)%nat with 3%nat in Hx, Hy.
    apply Hflat; lia. }
  assert (Ev : at0 v (Z.of_nat a) (Z.of_nat b) = Fin (q * q)).
  { apply (smooth_flat _ gw h w a b (q * q) v0 v Hgw Hsum Hsq); try assumption.
    intros x y Hx Hy. rewrite Hlen in Hx, Hy. change (7 / 2)%nat with 3%nat in Hx, Hy.
    apply at0_square, Hflat; lia. }
  set (pre := mat_map2 fsub v (mat_map (fun x => math_pow x 2) mu)).
  set (var := mat_map (fun x => fsqrt (fabs x)) pre).
  assert (Hpre : has_shape pre h w)
    by (apply has_shape_map2; [assumption|now apply has_shape_map]).
  assert (Hvar : has_shape var h w) by now apply has_shape_map.
  assert (Evar : at0 var (Z.of_nat a) (Z.of_nat b) = F0).
  { unfold var. rewrite (at0_map _ _ h w) by assumption.
    unfold pre. rewrite (at0_map2 _ _ _ h w) by (try apply has_shape_map; assumption).
    rewrite (at0_map _ _ h w) by assumption. rewrite Ev, Emu.
    cbn [math_pow fmul fsub fneg fadd fabs fsqrt].
    replace (q * q + - (q * q))%R with 0%R by ring. rewrite Rabs_R0.
    destruct (Rlt_dec 0 0); [lra|]. now rewrite sqrt_0. }
  set (num := mat_map2 fsub img mu).
  set (den := mat_map (fun v => fadd v F1) var).
  assert (Hnum : has_shape num h w) by now apply has_shape_map2.
  assert (Hden : has_shape den h w) by now apply has_shape_map.
  destruct (divide_rows strict num den h w Hnum Hden) as [mscn [E [Hm _]]].
  { intros drow d Hdrow Hd. unfold den, mat_map in Hdrow.
    apply in_map_iff in Hdrow as [vrow [<- Hvrow]].
    apply in_map_iff in Hd as [x [<- Hx]].
    unfold var, mat_map in Hvrow. apply in_map_iff in Hvrow as [yrow [<- Hyrow]].
    apply in_map_iff in Hx as [y [<- Hy]]. apply mscn_divisor_nonzero. }
  rewrite E. cbn [bind]. exists mscn, var, mu.
  split; [reflexivity|]. split; [exact Emu|]. split; [exact Evar|].
  pose proof (divide_rows_entry strict num den h w mscn a b Hnum Hden E Ha Hb) as Hentry.
  unfold num in Hentry at 1. rewrite (at0_map2 _ _ _ h w) in Hentry by assumption.
  unfold den in Hentry at 1. rewrite (at0_map _ _ h w) in Hentry by assumption.
  rewrite Emu, Evar in Hentry.
  pose proof (Hflat 0 0 ltac:(lia) ltac:(lia)) as Hc. rewrite !Z.add_0_r in Hc.
  rewrite Hc in Hentry.
  cbn [fsub fneg fadd F0 F1] in Hentry. rewrite np_div_fin in Hentry by lra.
  inversion Hentry as [Hval]. unfold F0. f_equal. field.
Qed.

(** Property X8.  Where the image has one value [q] on the whole 7 x 7
    neighbourhood of a pixel (pixels outside the image count as 0, as the
    filter pads with 0), the local mean is [q], the local deviation is 0 and
    the MSCN coefficient is 0. *)
Theorem mscn_of_a_flat_neighbourhood (img : matrix) (H W i j : Z) (q : R) :
  rect img -> shape img = (H, W) -> 0 <= i < H -> 0 <= j < W ->
  (forall a b, -3 <= a <= 3 -> -3 <= b <= 3 -> at0 img (i + a) (j + b) = Fin q) ->
  exists mscn var_image mu_image,
    compute_image_mscn_transform strict img F1 None = Ok (mscn, var_image, mu_image) /\
    at0 mu_image i j = Fin q /\ at0 var_image i j = F0 /\ at0 mscn i j = F0.
Proof. exact (mscn_flat_entry img H W i j q). Qed.

End FlatNeighbourhood.

Lemma at0_zeros h w i j : at0 (Fixture.zeros h w) i j = F0.
Proof.
  unfold at0. destruct ((0 <=? i) && (0 <=? j)); [|reflexivity].
  set (row := nth (Z.to_nat i) (Fixture.zeros h w) []).
  assert (Hrow : forall x, In x row -> x = F0).
  { intros x Hx. subst row.
    destruct (nth_in_or_default (Z.to_nat i) (Fixture.zeros h w) []) as [Hin|E].
    - unfold Fixture.zeros, build in Hin, Hx. apply in_map_iff in Hin as [k [Ek _]].
      rewrite <- Ek in Hx. apply in_map_iff in Hx as [k' [Ex _]]. now symmetry.
    - rewrite E in Hx. contradiction. }
  destruct (nth_in_or_default (Z.to_nat j) row F0) as [Hin|E]; [now apply Hrow|exact E].
Qed.

Lemma mscn_flat_witness :
  exists mscn var_image mu_image,
    compute_image_mscn_transform false (Fixture.zeros 4 5) F1 None
    = Ok (mscn, var_image, mu_image) /\
    at0 mscn 1 2 = F0.
Proof.
  destruct (mscn_of_a_flat_neighbourhood false (Fixture.zeros 4 5) 4 5 1 2 0
              (rect_zeros 4 5) eq_refl)
    as (mscn & var & mu & E & _ & _ & Hm); [lia|lia|intros; apply at0_zeros|].
  exists mscn, var, mu. split; assumption.
Defined.

(** * Further properties of the patch extraction *)

Lemma py_range3_empty stop step :
  step < 0 /\ 0 <= stop \/ 0 < step /\ stop <= 0 -> py_range3 0 stop step = Ok [].
Proof.
  intros H. unfold py_range3, range_len.
  destruct H as [[Hs Hstop]|[Hs Hstop]].
  - replace (step =? 0) with false by (symmetry; apply Z.eqb_neq; lia).
    replace (0 <? step) with false by (symmetry; apply Z.ltb_ge; lia).
    replace (stop <? 0) with false by (symmetry; apply Z.ltb_ge; lia). reflexivity.
  - replace (step =? 0) with false by (symmetry; apply Z.eqb_neq; lia).
    replace (0 <? step) with true by (symmetry; apply Z.ltb_lt; lia).
    replace (0 <? stop) with false by (symmetry; apply Z.ltb_ge; lia). reflexivity.
Qed.

(** Property X9.  The edge cases of [extract_on_patches].  Patch size 0 raises
    [ValueError], from [range] with a zero step.  A negative patch size, or an
    image with a side shorter than the patch, gives no patch at all: the
    result is an empty feature array, not an error. *)
Theorem extract_on_patches_edge_cases
    (strict : bool) (Gamma : float -> float) (img : matrix) (p : Z) :
  (p = 0 -> extract_on_patches strict Gamma img p = Raise ValueError) /\
  (p < 0 \/ 0 < p /\ (fst (shape img) < p \/ snd (shape img) < p) ->
   extract_on_patches strict Gamma img p = Ok []).
Proof.
  split.
  - intros ->. apply extract_on_patches_zero.
  - intros Hp. unfold extract_on_patches, collect_patches.
    destruct (shape img) as [h w] eqn:Hs. cbn [fst snd] in Hp.
    destruct (shape_nonneg _ _ _ Hs) as [Hh Hw].
    assert (Hcollect :
      (js <- py_range3 0 (h - p + 1) p ;;
       for_each js
         (fun patches j =>
            ks <- py_range3 0 (w - p + 1) p ;;
            for_each ks (fun patches i => Ok (patches ++ [patch_at img p j i])) patches)
         []) = Ok []).
    { destruct (Z_lt_ge_dec p 0) as [Hneg|Hnn].
      - rewrite py_range3_empty by lia. reflexivity.
      - destruct Hp as [Hp|[Hpos [Hp|Hp]]]; [lia| |].
        + rewrite py_range3_empty by lia. reflexivity.
        + destruct (py_range3 0 (h - p + 1) p) as [js|e|c] eqn:Ejs; cbn [bind].
          * apply for_each_fixed. intros j _.
            rewrite py_range3_empty by lia. reflexivity.
          * unfold py_range3 in Ejs.
            replace (p =? 0) with false in Ejs by (symmetry; apply Z.eqb_neq; lia).
            discriminate.
          * now destruct (no_exit_range3 0 (h - p + 1) p c). }
    rewrite Hcollect. reflexivity.
Qed.

Section PatchExtraction.

Variable strict : bool.
Variable Gamma : float -> float.
Variable resize_half : matrix -> lib_result matrix.

Hypothesis Gamma_pos : gamma_positive Gamma.
Hypothesis resize_shape : resize_halves_shape resize_half.

Lemma crop_to_multiple_idem img p H W :
  rect img -> shape img = (H, W) -> 0 < p -> p <= H -> p <= W ->
  exists cropped,
    crop_to_multiple img p = Ok cropped /\
    rect cropped /\ shape cropped = (p * (H / p), p * (W / p)) /\
    crop_to_multiple cropped p = Ok cropped.
Proof.
  intros Hr Hs Hp HpH HpW.
  pose proof (rect_has_shape _ _ _ Hr Hs) as Hsh.
  assert (Hkh : 1 <= H / p) by (apply Z.div_le_lower_bound; lia).
  assert (Hkw : 1 <= W / p) by (apply Z.div_le_lower_bound; lia).
  assert (EH : H - H mod p = p * (H / p)) by (pose proof (Z.div_mod H p); lia).
  assert (EW : W - W mod p = p * (W / p)) by (pose proof (Z.div_mod W p); lia).
  rewrite (crop_to_multiple_ok img p _ _ Hsh) by lia.
  rewrite !Z2Nat.id, EH, EW by lia.
  set (h' := Z.to_nat (p * (H / p))). set (w' := Z.to_nat (p * (W / p))).
  set (cropped := map (firstn w') (firstn h' img)).
  assert (Hc : has_shape cropped h' w').
  { apply (has_shape_firstn img (Z.to_nat H) (Z.to_nat W)); [assumption|unfold h'|unfold w'];
      pose proof (Z.mod_pos_bound H p); pose proof (Z.mod_pos_bound W p); lia. }
  assert (Hh'pos : (0 < h')%nat) by (unfold h'; nia).
  destruct (has_shape_rect _ _ _ Hc Hh'pos) as [Hcr Hcs].
  assert (Eh : Z.of_nat h' = p * (H / p)) by (unfold h'; nia).
  assert (Ew : Z.of_nat w' = p * (W / p)) by (unfold w'; nia).
  exists cropped. split; [reflexivity|]. split; [assumption|].
  split; [now rewrite Hcs, Eh, Ew|].
  rewrite (crop_to_multiple_ok cropped p _ _ Hc) by nia.
  rewrite Eh, Ew.
  replace (p * (H / p) mod p) with 0 by (rewrite Z.mul_comm; symmetry; apply Z.mod_mul; lia).
  replace (p * (W / p) mod p) with 0 by (rewrite Z.mul_comm; symmetry; apply Z.mod_mul; lia).
  rewrite !Z.sub_0_r. fold h' w'. f_equal.
  destruct Hc as [Hl Hrows]. rewrite (firstn_all_length cropped h' Hl).
  rewrite <- (map_id cropped) at 2. apply f_equal. apply map_ext_in.
  intros row Hin. apply firstn_all_length. now apply Hrows.
Qed.

(** Property X10.  The rows and columns beyond the last whole patch play no
    role: the features of an image are the features of the image cropped to
    multiples of the patch size, and cropping a second time changes nothing. *)
Theorem trailing_pixels_are_ignored (img : matrix) (p H W is_train stride : Z) :
  rect img -> shape img = (H, W) -> 0 < p -> p <= H -> p <= W ->
  exists cropped,
    crop_to_multiple img p = Ok cropped /\
    shape cropped = (p * (H / p), p * (W / p)) /\
    crop_to_multiple cropped p = Ok cropped /\
    _get_patches_generic strict Gamma resize_half cropped p is_train stride
    = _get_patches_generic strict Gamma resize_half img p is_train stride.
Proof.
  intros Hr Hs Hp HpH HpW.
  destruct (crop_to_multiple_idem img p H W Hr Hs Hp HpH HpW)
    as (cropped & Ec & Hcr & Hcs & Eidem).
  exists cropped. split; [assumption|]. split; [assumption|]. split; [assumption|].
  assert (Hkh : 1 <= H / p) by (apply Z.div_le_lower_bound; lia).
  assert (Hkw : 1 <= W / p) by (apply Z.div_le_lower_bound; lia).
  unfold _get_patches_generic, feats_two_scales. rewrite Hs, Hcs.
  replace ((H <? p) || (W <? p)) with false
    by (symmetry; apply orb_false_iff; split; apply Z.ltb_ge; lia).
  replace ((p * (H / p) <? p) || (p * (W / p) <? p)) with false
    by (symmetry; apply orb_false_iff; split; apply Z.ltb_ge; nia).
  now rewrite Ec, Eidem.
Qed.

Hypothesis resize_finite : resize_keeps_finite resize_half.

(** Property X11.  The features of an image with pixels from 0 to 255 are
    finite: with an even patch size that fits the image, the extraction
    returns one row of 36 finite values for each patch. *)
Theorem features_of_a_finite_image_are_finite (img : matrix) (p H W : Z) :
  rect img -> shape img = (H, W) -> in_pixel_range img ->
  0 < p -> Z.even p = true -> p <= H -> p <= W ->
  exists feats,
    get_patches_test_features strict Gamma resize_half img p = Ok feats /\
    Z.of_nat (length feats) = (H / p) * (W / p) /\
    forall row, In row feats ->
      length row = 36%nat /\ forall x, In x row -> is_finite x.
Proof.
  intros Hr Hs Hpix Hp He HpH HpW.
  pose proof (pixel_range_finite img Hpix) as Hf.
  assert (Hp2 : 2 <= p) by (apply Z.even_spec in He as [q Hq]; lia).
  unfold get_patches_test_features.
  destruct (get_patches_generic_even strict Gamma resize_half Gamma_pos resize_shape
              img p H W 0 8 Hr Hs Hp He HpH HpW) as [feats E].
  destruct (get_patches_generic_inv strict Gamma resize_half Gamma_pos resize_shape
              img p H W 0 8 feats Hr Hs Hp2 HpH HpW E) as (n & [Hl Hrows] & Hn & Hfin).
  exists feats. split; [assumption|]. split; [now rewrite Hl|].
  intros row Hrow. split; [now apply Hrows|].
  intros x Hx. exact (Hfin Hf resize_finite row Hrow x Hx).
Qed.

(** Property X22.  Each row of the feature matrix belongs to one patch, in
    row-major order of the patches: with an even patch size [p] that fits
    the image, the row of patch (a, b) is the 18 features of the tile at
    (a * p, b * p) of the full-resolution MSCN field, followed by the 18
    features of the tile at (a * (p / 2), b * (p / 2)) of the MSCN field of
    the half-scaled image. *)
Theorem feature_rows_follow_the_patches (img : matrix) (p H W is_train stride : Z) :
  rect img -> shape img = (H, W) -> 0 < p -> Z.even p = true -> p <= H -> p <= W ->
  exists cropped img2 mscn1 var1 mu1 mscn2 var2 mu2 feats,
    crop_to_multiple img p = Ok cropped /\
    resize_half cropped = Returns img2 /\
    compute_image_mscn_transform strict cropped F1 None = Ok (mscn1, var1, mu1) /\
    compute_image_mscn_transform strict img2 F1 None = Ok (mscn2, var2, mu2) /\
    _get_patches_generic strict Gamma resize_half img p is_train stride = Ok feats /\
    forall a b, 0 <= a < H / p -> 0 <= b < W / p ->
      exists row1 row2,
        _niqe_extract_subband_feats strict Gamma (patch_at mscn1 p (a * p) (b * p))
        = Ok row1 /\
        _niqe_extract_subband_feats strict Gamma
          (patch_at mscn2 (Z.quot p 2) (a * Z.quot p 2) (b * Z.quot p 2))
        = Ok row2 /\
        nth (Z.to_nat (a * (W / p) + b)) feats [] = row1 ++ row2.
Proof.
  intros Hr Hs Hp He HpH HpW.
  assert (Hp2 : 2 <= p) by (apply Z.even_spec in He as [q Hq]; lia).
  pose proof (rect_has_shape _ _ _ Hr Hs) as Hsh.
  assert (Hq : 0 < Z.quot p 2).
  { rewrite Z.quot_div_nonneg by lia. apply Z.div_str_pos. lia. }
  assert (Hkh : 1 <= H / p) by (apply Z.div_le_lower_bound; lia).
  assert (Hkw : 1 <= W / p) by (apply Z.div_le_lower_bound; lia).
  assert (EH : H - H mod p = p * (H / p)) by (pose proof (Z.div_mod H p); lia).
  assert (EW : W - W mod p = p * (W / p)) by (pose proof (Z.div_mod W p); lia).
  unfold _get_patches_generic, feats_two_scales. rewrite Hs.
  replace ((H <? p) || (W <? p)) with false
    by (symmetry; apply orb_false_iff; split; apply Z.ltb_ge; lia).
  rewrite (crop_to_multiple_ok img p _ _ Hsh) by lia. cbn [bind].
  rewrite !Z2Nat.id, EH, EW by lia.
  set (h' := Z.to_nat (p * (H / p))). set (w' := Z.to_nat (p * (W / p))).
  set (cropped := map (firstn w') (firstn h' img)).
  assert (Hh' : Z.of_nat h' = p * (H / p)) by (unfold h'; nia).
  assert (Hw' : Z.of_nat w' = p * (W / p)) by (unfold w'; nia).
  assert (Hc : has_shape cropped h' w').
  { apply (has_shape_firstn img (Z.to_nat H) (Z.to_nat W)); [assumption|unfold h'|unfold w'];
      pose proof (Z.mod_pos_bound H p); pose proof (Z.mod_pos_bound W p); lia. }
  assert (Hh'pos : (0 < h')%nat) by nia.
  destruct (has_shape_rect _ _ _ Hc Hh'pos) as [Hcr Hcs].
  destruct (resize_shape cropped _ _ Hcr Hcs) as [img2 [Eresize [Hr2 Hs2]]];
    [apply cv_round_half_pos; nia..|].
  rewrite Eresize. cbn [lift bind].
  destruct (mscn_ok strict cropped h' w' Hc Hh'pos) as (mscn1 & v1 & m1 & E1 & Hm1 & _).
  rewrite E1. cbn [bind].
  pose proof (rect_has_shape _ _ _ Hr2 Hs2) as Hsh2.
  assert (Hh2 : 0 < cv_round_half (Z.of_nat h')) by (apply cv_round_half_pos; nia).
  assert (Hw2 : 0 < cv_round_half (Z.of_nat w')) by (apply cv_round_half_pos; nia).
  destruct (mscn_ok strict img2 _ _ Hsh2 ltac:(lia)) as (mscn2 & v2 & m2 & E2 & Hm2 & _).
  rewrite E2. cbn [bind].
  unfold extract_on_patches.
  rewrite (collect_patches_tiles mscn1 p h' w' Hp Hm1 Hh'pos). cbn [bind].
  rewrite (collect_patches_tiles mscn2 (Z.quot p 2) _ _ Hq Hm2 ltac:(lia)). cbn [bind].
  rewrite !Z2Nat.id by lia. rewrite Hh', Hw', !even_patch_rows_agree by assumption.
  replace (p * (H / p) / p) with (H / p) by (rewrite Z.mul_comm; symmetry; apply Z.div_mul; lia).
  replace (p * (W / p) / p) with (W / p) by (rewrite Z.mul_comm; symmetry; apply Z.div_mul; lia).
  set (nh := Z.to_nat (H / p)). set (nw := Z.to_nat (W / p)).
  destruct (features_of_patches_ok strict Gamma Gamma_pos (tiles mscn1 p nh nw))
    as (f1 & Ef1 & L1 & R1 & _).
  destruct (features_of_patches_ok strict Gamma Gamma_pos (tiles mscn2 (Z.quot p 2) nh nw))
    as (f2 & Ef2 & L2 & R2 & _).
  rewrite Ef1, Ef2. cbn [bind].
  rewrite tiles_length in L1, L2.
  unfold np_hstack. rewrite L1, L2, Nat.eqb_refl.
  exists cropped, img2, mscn1, v1, m1, mscn2, v2, m2, (map2 (@app float) f1 f2).
  repeat (split; [first [reflexivity|assumption]|]).
  intros a b Ha Hb. set (ka := Z.to_nat a). set (kb := Z.to_nat b).
  assert (Hka : (ka < nh)%nat) by (unfold ka, nh; lia).
  assert (Hkb : (kb < nw)%nat) by (unfold kb, nw; lia).
  replace (Z.to_nat (a * (W / p) + b)) with (ka * nw + kb)%nat by (unfold ka, kb, nw; nia).
  assert (Hk : (ka * nw + kb < nh * nw)%nat) by nia.
  exists (nth (ka * nw + kb) f1 []), (nth (ka * nw + kb) f2 []).
  pose proof (mapM_nth _ _ _ [] [] (ka * nw + kb)%nat Ef1) as N1.
  pose proof (mapM_nth _ _ _ [] [] (ka * nw + kb)%nat Ef2) as N2.
  rewrite tiles_length, tiles_nth in N1, N2 by assumption.
  replace (Z.of_nat ka) with a in N1, N2 by (unfold ka; lia).
  replace (Z.of_nat kb) with b in N1, N2 by (unfold kb; lia).
  split; [apply N1; assumption|]. split; [apply N2; assumption|].
  apply nth_map2; lia.
Qed.

End PatchExtraction.

Lemma trailing_pixels_witness :
  exists cropped,
    crop_to_multiple (Fixture.zeros 5 7) 2 = Ok cropped /\
    shape cropped = (2 * (5 / 2), 2 * (7 / 2)) /\
    crop_to_multiple cropped 2 = Ok cropped /\
    _get_patches_generic false Fixture.gamma Fixture.resize_half cropped 2 0 8
    = _get_patches_generic false Fixture.gamma Fixture.resize_half (Fixture.zeros 5 7) 2 0 8.
Proof.
  apply (trailing_pixels_are_ignored false Fixture.gamma Fixture.resize_half
           (Fixture.zeros 5 7) 2 5 7 0 8 (rect_zeros 5 7) eq_refl); lia.
Defined.

Lemma finite_features_witness :
  exists feats,
    get_patches_test_features false Fixture.gamma Fixture.resize_half
      (Fixture.zeros 4 6) 2 = Ok feats /\
    Z.of_nat (length feats) = (4 / 2) * (6 / 2) /\
    forall row, In row feats ->
      length row = 36%nat /\ forall x, In x row -> is_finite x.
Proof.
  apply (features_of_a_finite_image_are_finite false Fixture.gamma Fixture.resize_half
           gamma_positive_fixture resize_halves_shape_fixture resize_keeps_finite_fixture
           (Fixture.zeros 4 6) 2 4 6 (rect_zeros 4 6) eq_refl (pixel_range_zeros 4 6));
    try lia; reflexivity.
Defined.

Lemma feature_rows_witness :
  exists feats,
    _get_patches_generic false Fixture.gamma Fixture.resize_half (Fixture.zeros 4 6) 2 0 8
    = Ok feats.
Proof.
  destruct (feature_rows_follow_the_patches false Fixture.gamma Fixture.resize_half
              gamma_positive_fixture resize_halves_shape_fixture
              (Fixture.zeros 4 6) 2 4 6 0 8 (rect_zeros 4 6) eq_refl)
    as (c & i2 & m1 & v1 & u1 & m2 & v2 & u2 & feats & _ & _ & _ & _ & E & _);
    try lia; [reflexivity|].
  now exists feats.
Defined.

(** * Further properties of the AGGD fitter *)

(** ** The grid search *)

(** [np.argmin] on finite values returns the first index of the least
    value. *)
Lemma argmin_loop_first (t pre : list R) (mi : nat) :
  (mi < length pre)%nat ->
  (forall j, (j < length pre)%nat -> (nth mi pre 0 <= nth j pre 0)%R) ->
  (forall j, (j < mi)%nat -> (nth mi pre 0 < nth j pre 0)%R) ->
  let pos := argmin_loop (map Fin t) (length pre) (Fin (nth mi pre 0%R)) mi in
  (pos < length (pre ++ t))%nat /\
  (forall j, (j < length (pre ++ t))%nat ->
     (nth pos (pre ++ t) 0 <= nth j (pre ++ t) 0)%R) /\
  (forall j, (j < pos)%nat -> (nth pos (pre ++ t) 0 < nth j (pre ++ t) 0)%R).
Proof.
  revert pre mi. induction t as [|x t IH]; intros pre mi Hmi Hmin Hfirst.
  - cbn [map argmin_loop]. rewrite app_nil_r. repeat split; assumption.
  - cbn [map argmin_loop fge is_nan].
    replace (pre ++ x :: t) with ((pre ++ [x]) ++ t) by now rewrite <- app_assoc.
    assert (Hlen : length (pre ++ [x]) = S (length pre))
      by (rewrite length_app; cbn [length]; lia).
    destruct (Rle_dec (nth mi pre 0%R) x) as [Hle|Hgt]; cbn [negb].
    + specialize (IH (pre ++ [x]) mi).
      rewrite Hlen, (app_nth1 pre [x]) in IH by assumption.
      apply IH; [lia| |].
      * intros j Hj. destruct (Nat.eq_dec j (length pre)) as [->|Hne].
        -- rewrite app_nth2, Nat.sub_diag by lia. exact Hle.
        -- rewrite app_nth1 by lia. apply Hmin. lia.
      * intros j Hj. rewrite app_nth1 by lia. now apply Hfirst.
    + specialize (IH (pre ++ [x]) (length pre)).
      rewrite Hlen in IH.
      assert (Ex : nth (length pre) (pre ++ [x]) 0%R = x)
        by (rewrite app_nth2, Nat.sub_diag by lia; reflexivity).
      rewrite Ex in IH. apply IH; [lia| |].
      * intros j Hj. destruct (Nat.eq_dec j (length pre)) as [->|Hne].
        -- rewrite Ex. lra.
        -- rewrite app_nth1 by lia. specialize (Hmin j ltac:(lia)). lra.
      * intros j Hj. rewrite app_nth1 by lia. specialize (Hmin j ltac:(lia)). lra.
Qed.

Lemma np_argmin_first (l : list R) :
  l <> [] ->
  exists pos,
    np_argmin (map Fin l) = Ok pos /\ (pos < length l)%nat /\
    (forall j, (j < length l)%nat -> (nth pos l 0 <= nth j l 0)%R) /\
    (forall j, (j < pos)%nat -> (nth pos l 0 < nth j l 0)%R).
Proof.
  destruct l as [|x t]; [congruence|]. intros _.
  cbn [map np_argmin is_nan]. eexists. split; [reflexivity|].
  apply (argmin_loop_first t [x] 0).
  - cbn [length]. lia.
  - intros j Hj. cbn [length] in Hj. replace j with 0%nat by lia. cbn [nth]. lra.
  - intros j Hj. lia.
Qed.

Section GridSearch.

Variable strict : bool.
Variable Gamma : float -> float.
Hypothesis Gamma_pos : gamma_positive Gamma.

(** The table of [__init__]: one finite positive ratio for each shape of the
    grid; no division by zero happens while it is built. *)
Lemma prec_gammas_finite :
  exists precs : list R,
    prec_gammas strict Gamma = Ok (map Fin precs) /\
    length precs = gamma_range_len /\
    forall x, In x precs -> (0 < x)%R.
Proof.
  unfold prec_gammas.
  match goal with |- context [mapM ?f _] =>
    destruct (mapM_ok f gamma_range) as [r [Hr Hall]] end.
  { intros g Hin. apply gamma_range_In in Hin as [a [-> Ha]].
    destruct (gamma_at strict Gamma Gamma_pos a 2) as [g2 [E2 [G2 P2]]]; [lra..|].
    destruct (gamma_at strict Gamma Gamma_pos a 1) as [g1 [E1 [G1 P1]]]; [lra..|].
    destruct (gamma_at strict Gamma Gamma_pos a 3) as [g3 [E3 [G3 P3]]]; [lra..|].
    rewrite E2, E1, E3. cbn [bind]. rewrite G2, G1, G3. cbn [fmul].
    rewrite np_div_fin by nra. eexists; reflexivity. }
  assert (Hpos : forall b, In b r -> exists x, b = Fin x /\ (0 < x)%R).
  { intros b Hb. destruct (Forall2_In_r _ _ _ _ Hall Hb) as [g [Hin Eg]].
    apply gamma_range_In in Hin as [a [-> Ha]].
    destruct (gamma_at strict Gamma Gamma_pos a 2) as [g2 [E2 [G2 P2]]]; [lra..|].
    destruct (gamma_at strict Gamma Gamma_pos a 1) as [g1 [E1 [G1 P1]]]; [lra..|].
    destruct (gamma_at strict Gamma Gamma_pos a 3) as [g3 [E3 [G3 P3]]]; [lra..|].
    rewrite E2, E1, E3 in Eg. cbn [bind] in Eg. rewrite G2, G1, G3 in Eg.
    cbn [fmul] in Eg. rewrite np_div_fin in Eg by nra. inversion Eg.
    eexists. split; [reflexivity|].
    apply Rdiv_lt_0_compat; nra. }
  destruct (fin_list_lift r) as [precs ->].
  { intros b Hb. destruct (Hpos b Hb) as [x [-> _]]. now exists x. }
  exists precs. rewrite Hr. split; [reflexivity|]. split.
  - rewrite <- (length_map Fin precs), (Forall2_length_eq _ _ _ Hall).
    apply gamma_range_length.
  - intros x Hx. destruct (Hpos (Fin x)) as [y [E Hy]]; [now apply in_map|].
    inversion E. lra.
Qed.

(** Property X1.  The grid search does what its comment says: among the 9800
    shapes of the grid it returns the one whose precomputed ratio is nearest
    to [rhat_norm], and of several equally near ones the smallest shape. *)
Theorem grid_search_picks_the_nearest_ratio (rhat_norm : R) :
  exists (precs : list R) (pos : nat),
    prec_gammas strict Gamma = Ok (map Fin precs) /\
    length precs = gamma_range_len /\ (pos < gamma_range_len)%nat /\
    aggd_alpha strict Gamma (Fin rhat_norm)
      = Ok (Fin (2 / 10 + INR pos * (1 / 1000))) /\
    (forall j, (j < gamma_range_len)%nat ->
       (Rsqr (nth pos precs 0 - rhat_norm) <= Rsqr (nth j precs 0 - rhat_norm))%R) /\
    (forall j, (j < pos)%nat ->
       (Rsqr (nth pos precs 0 - rhat_norm) < Rsqr (nth j precs 0 - rhat_norm))%R).
Proof.
  destruct prec_gammas_finite as (precs & Eprecs & Hlen & _).
  set (dist := fun p : R => ((p + - rhat_norm) * (p + - rhat_norm))%R).
  assert (Hne : map dist precs <> []).
  { pose proof (gamma_range_len_pos) as Hpos. rewrite <- Hlen in Hpos.
    destruct precs; [cbn [length] in Hpos; lia|discriminate]. }
  destruct (np_argmin_first (map dist precs) Hne) as (pos & Epos & Hlt & Hmin & Hfirst).
  rewrite length_map in Hlt, Hmin.
  assert (Hnth : forall j, (j < length precs)%nat ->
            nth j (map dist precs) 0%R = Rsqr (nth j precs 0%R - rhat_norm)).
  { intros j Hj. rewrite (nth_indep _ 0%R (dist 0%R)) by now rewrite length_map.
    now rewrite (map_nth dist). }
  exists precs, pos. split; [assumption|]. split; [assumption|].
  split; [now rewrite <- Hlen|]. split.
  - unfold aggd_alpha. rewrite Eprecs. cbn [bind].
    rewrite map_map.
    rewrite (map_ext (fun x => math_pow (fsub (Fin x) (Fin rhat_norm)) 2)
                     (fun x => Fin (dist x))) by reflexivity.
    rewrite <- (map_map dist Fin), Epos. cbn [bind].
    rewrite py_getitem_nat by (rewrite gamma_range_length, <- Hlen; assumption).
    now rewrite gamma_range_nth by (rewrite <- Hlen; assumption).
  - split.
    + intros j Hj. rewrite <- Hlen in Hj. rewrite <- !Hnth by assumption. now apply Hmin.
    + intros j Hj. rewrite <- !Hnth by lia. now apply Hfirst.
Qed.

End GridSearch.

Lemma grid_search_witness :
  exists (precs : list R) (pos : nat),
    prec_gammas false Fixture.gamma = Ok (map Fin precs) /\
    length precs = gamma_range_len /\ (pos < gamma_range_len)%nat /\
    aggd_alpha false Fixture.gamma (Fin 1) = Ok (Fin (2 / 10 + INR pos * (1 / 1000))) /\
    (forall j, (j < gamma_range_len)%nat ->
       (Rsqr (nth pos precs 0 - 1) <= Rsqr (nth j precs 0 - 1))%R) /\
    (forall j, (j < pos)%nat ->
       (Rsqr (nth pos precs 0 - 1) < Rsqr (nth j precs 0 - 1))%R).
Proof.
  exact (grid_search_picks_the_nearest_ratio false Fixture.gamma gamma_positive_fixture 1).
Defined.

(** ** The fit in real numbers *)

Open Scope R_scope.

Definition is_neg (x : R) : bool := if Rlt_dec x 0 then true else false.
Definition is_nonneg (x : R) : bool := if Rle_dec 0 x then true else false.

(** The squares of the samples on one side of 0. *)
Definition squares_where (keep : R -> bool) (l : list R) : list R :=
  map (fun x => x * x) (filter keep l).

(** The square root of the mean, 0 for no sample. *)
Definition rms (l : list R) : R :=
  match l with
  | [] => 0
  | _ => sqrt (rsum l / IZR (Z.of_nat (length l)))
  end.

Lemma np_select_fin (f : float -> bool) (keep : R -> bool) pl :
  (forall x, f (Fin x) = keep x) ->
  np_select (map f (map Fin pl)) (map2 fmul (map Fin pl) (map Fin pl))
  = map Fin (squares_where keep pl).
Proof.
  intros Hf. unfold squares_where.
  induction pl as [|x pl IH]; [reflexivity|].
  cbn [map map2 np_select filter]. rewrite Hf, IH.
  destruct (keep x); reflexivity.
Qed.

Lemma squares_where_nonneg keep l x : In x (squares_where keep l) -> 0 <= x.
Proof.
  unfold squares_where. rewrite in_map_iff. intros [y [<- _]]. nra.
Qed.

Lemma rms_nonneg l : 0 <= rms l.
Proof. destruct l; [cbn [rms]; lra|apply sqrt_pos]. Qed.

Lemma scale_fin l :
  (forall x, In x l -> 0 <= x) ->
  (if (0 <? Z.of_nat (length (map Fin l)))%Z then fsqrt (np_mean (map Fin l)) else F0)
  = Fin (rms l).
Proof.
  intros Hl. destruct l as [|x l]; [reflexivity|].
  replace (0 <? Z.of_nat (length (map Fin (x :: l))))%Z with true
    by (symmetry; apply Z.ltb_lt; cbn [map length]; lia).
  rewrite np_mean_fin by discriminate. apply fsqrt_nonneg.
  apply Rmult_le_pos; [now apply rsum_nonneg_le|].
  apply Rlt_le, Rinv_0_lt_compat, IZR_lt. cbn [length]. lia.
Qed.

Lemma aggd_scales_fin pl :
  aggd_scales (map Fin pl)
  = (Fin (rms (squares_where is_neg pl)), Fin (rms (squares_where is_nonneg pl))).
Proof.
  unfold aggd_scales. cbv zeta.
  rewrite (np_select_fin (fun x => flt x F0) is_neg) by reflexivity.
  rewrite (np_select_fin (fun x => fge x F0) is_nonneg) by reflexivity.
  rewrite !scale_fin by apply squares_where_nonneg. reflexivity.
Qed.

Lemma rsum_scale_l c l : rsum (map (Rmult c) l) = c * rsum l.
Proof. induction l as [|x l IH]; cbn [map rsum fold_right]; [ring|]. fold (rsum (map (Rmult c) l)). fold (rsum l). rewrite IH. ring. Qed.

Lemma squares_where_scale keep c pl :
  (forall x, keep (c * x) = keep x) ->
  squares_where keep (map (Rmult c) pl) = map (Rmult (c * c)) (squares_where keep pl).
Proof.
  intros Hk. unfold squares_where.
  induction pl as [|x pl IH]; [reflexivity|].
  cbn [map filter]. rewrite Hk. destruct (keep x); cbn [map]; rewrite IH; [|reflexivity].
  f_equal. ring.
Qed.

Lemma rms_scale c l :
  0 < c -> (forall x, In x l -> 0 <= x) -> rms (map (Rmult (c * c)) l) = c * rms l.
Proof.
  intros Hc Hl. destruct l as [|x l]; [cbn [map rms]; ring|].
  unfold rms. cbn [map].
  change (c * c * x :: map (Rmult (c * c)) l) with (map (Rmult (c * c)) (x :: l)).
  rewrite length_map, rsum_scale_l.
  replace (c * c * rsum (x :: l) / IZR (Z.of_nat (length (x :: l))))
    with (c * c * (rsum (x :: l) / IZR (Z.of_nat (length (x :: l)))))
    by (unfold Rdiv; ring).
  rewrite sqrt_mult.
  - rewrite sqrt_square by lra. reflexivity.
  - nra.
  - apply Rmult_le_pos; [now apply rsum_nonneg_le|].
    apply Rlt_le, Rinv_0_lt_compat, IZR_lt. cbn [length]. lia.
Qed.

Lemma is_neg_scale c x : 0 < c -> is_neg (c * x) = is_neg x.
Proof.
  intros Hc. unfold is_neg. destruct (Rlt_dec (c * x) 0), (Rlt_dec x 0); try reflexivity; nra.
Qed.

Lemma is_nonneg_scale c x : 0 < c -> is_nonneg (c * x) = is_nonneg x.
Proof.
  intros Hc. unfold is_nonneg.
  destruct (Rle_dec 0 (c * x)), (Rle_dec 0 x); try reflexivity; nra.
Qed.

Lemma aggd_scales_scale c pl l r :
  0 < c -> aggd_scales (map Fin pl) = (Fin l, Fin r) ->
  aggd_scales (map Fin (map (Rmult c) pl)) = (Fin (c * l), Fin (c * r)).
Proof.
  intros Hc E. rewrite aggd_scales_fin in E |- *. inversion E.
  rewrite !squares_where_scale by (intros; now apply is_neg_scale || now apply is_nonneg_scale).
  rewrite !rms_scale by (try assumption; apply squares_where_nonneg). reflexivity.
Qed.

Lemma map2_Rmult_scale c pl :
  map2 Rmult (map (Rmult c) pl) (map (Rmult c) pl) = map (Rmult (c * c)) (map2 Rmult pl pl).
Proof.
  induction pl as [|x pl IH]; [reflexivity|]. cbn [map map2]. rewrite IH. f_equal. ring.
Qed.

Lemma map_Rabs_scale c pl :
  0 < c -> map Rabs (map (Rmult c) pl) = map (Rmult c) (map Rabs pl).
Proof.
  intros Hc. rewrite !map_map. apply map_ext. intros x.
  rewrite Rabs_mult, (Rabs_pos_eq c) by lra. reflexivity.
Qed.

Lemma map2_length_same {A B} (f : A -> A -> B) l : length (map2 f l l) = length l.
Proof. induction l as [|x l IH]; [reflexivity|]. cbn [map2 length]. now rewrite IH. Qed.

Section FitInReals.

Variable strict : bool.
Variable Gamma : float -> float.
Hypothesis Gamma_pos : gamma_positive Gamma.

Lemma aggd_gamma_hat_scale c l r :
  0 < c ->
  aggd_gamma_hat strict (Fin (c * l)) (Fin (c * r)) = aggd_gamma_hat strict (Fin l) (Fin r).
Proof.
  intros Hc. unfold aggd_gamma_hat, fne, feq, F0.
  destruct (Req_dec_T (c * r) 0) as [E1|E1], (Req_dec_T r 0) as [E2|E2]; cbn [negb].
  - reflexivity.
  - exfalso. apply E2. apply Rmult_integral in E1. destruct E1; [lra|assumption].
  - exfalso. apply E1. rewrite E2. ring.
  - rewrite !np_div_fin by assumption. do 2 f_equal. field. lra.
Qed.

(** [r_hat] of a non-empty field of finite values. *)
Lemma aggd_r_hat_fin pl :
  pl <> [] ->
  aggd_r_hat strict (map Fin pl)
  = Ok (if Req_dec_T (rsum (map2 Rmult pl pl) / IZR (Z.of_nat (length pl))) 0
        then PInf
        else Fin (rsum (map Rabs pl) / IZR (Z.of_nat (length pl))
                  * (rsum (map Rabs pl) / IZR (Z.of_nat (length pl)))
                  / (rsum (map2 Rmult pl pl) / IZR (Z.of_nat (length pl))))).
Proof.
  intros Hne. unfold aggd_r_hat. cbv zeta.
  rewrite map2_fmul_fin.
  assert (Hsq : map2 Rmult pl pl <> []) by (destruct pl; [congruence|discriminate]).
  rewrite np_mean_fin by assumption. rewrite map2_length_same.
  rewrite (map_map Fin fabs), <- (map_map Rabs Fin) by reflexivity.
  assert (Habs : map Rabs pl <> []) by (destruct pl; [congruence|discriminate]).
  rewrite np_mean_fin by assumption. rewrite length_map.
  unfold fne, feq, F0.
  destruct (Req_dec_T (rsum (map2 Rmult pl pl) / IZR (Z.of_nat (length pl))) 0) as [E|E];
    cbn [negb]; [reflexivity|].
  cbn [math_pow fmul]. now rewrite np_div_fin.
Qed.

Lemma aggd_r_hat_scale c pl :
  0 < c -> aggd_r_hat strict (map Fin (map (Rmult c) pl)) = aggd_r_hat strict (map Fin pl).
Proof.
  intros Hc. destruct pl as [|x pl]; [reflexivity|].
  rewrite !aggd_r_hat_fin by discriminate.
  rewrite map2_Rmult_scale, map_Rabs_scale, !rsum_scale_l, !length_map by assumption.
  set (n := IZR (Z.of_nat (length (x :: pl)))).
  assert (Hn : n <> 0) by (apply not_0_IZR; cbn [length]; lia).
  set (s2 := rsum (map2 Rmult (x :: pl) (x :: pl))).
  set (s1 := rsum (map Rabs (x :: pl))).
  destruct (Req_dec_T (c * c * s2 / n) 0) as [E1|E1], (Req_dec_T (s2 / n) 0) as [E2|E2].
  - reflexivity.
  - exfalso. apply E2.
    replace (c * c * s2 / n) with (c * c * (s2 / n)) in E1 by (unfold Rdiv; ring).
    apply Rmult_integral in E1. destruct E1 as [E1|E1]; [nra|assumption].
  - exfalso. apply E1.
    replace (c * c * s2 / n) with (c * c * (s2 / n)) by (unfold Rdiv; ring).
    rewrite E2. ring.
  - do 2 f_equal. field. repeat split; try assumption; try lra.
    intros Hs2. apply E2. rewrite Hs2. unfold Rdiv. ring.
Qed.

(** What follows [r_hat] in [aggd_features] depends on the field through
    the two scales only. *)
Lemma aggd_features_tail gamma_hat r_hat :
  exists a rho g,
    In (Fin a) gamma_range /\ 0 < rho /\ 0 < g /\
    forall patch l r,
      aggd_scales (concat patch) = (Fin l, Fin r) ->
      aggd_gamma_hat strict (Fin l) (Fin r) = Ok gamma_hat ->
      aggd_r_hat strict (concat patch) = Ok r_hat ->
      aggd_features strict Gamma patch
      = Ok (Fin a, Fin ((rho * r + - (rho * l)) * g), Fin (rho * l), Fin (rho * r),
            Fin l, Fin r).
Proof.
  destruct (aggd_alpha_ok strict Gamma Gamma_pos
              (fmul r_hat (fdiv (fmul (fadd (math_pow gamma_hat 3) F1) (fadd gamma_hat F1))
                                (math_pow (fadd (math_pow gamma_hat 2) F1) 2))))
    as [a [Ea [Hin Ha]]].
  destruct (gamma_at strict Gamma Gamma_pos a 1) as [g1 [E1 [G1 P1]]]; [lra..|].
  destruct (gamma_at strict Gamma Gamma_pos a 2) as [g2 [E2 [G2 P2]]]; [lra..|].
  destruct (gamma_at strict Gamma Gamma_pos a 3) as [g3 [E3 [G3 P3]]]; [lra..|].
  destruct (fsqrt_fin_pos g1 P1) as [S1 Q1].
  destruct (fsqrt_fin_pos g3 P3) as [S3 Q3].
  exists a, (sqrt g1 / sqrt g3), (g2 / g1).
  split; [assumption|]. split; [now apply Rdiv_lt_0_compat|].
  split; [now apply Rdiv_lt_0_compat|].
  intros patch l r Hsc Hgh Hrh.
  unfold aggd_features. cbv zeta. rewrite Hsc, Hgh, Hrh. cbn [bind].
  rewrite aggd_rhat_norm_ok. cbn [bind]. rewrite Ea. cbn [bind].
  rewrite E1, E2, E3. cbn [bind]. rewrite G1, G2, G3, S1, S3.
  rewrite np_div_fin by lra. cbn [bind].
  rewrite np_div_fin by lra. cbn [bind fmul fsub fadd fneg]. reflexivity.
Qed.

(** The shape of the result of the exact fit on a field of finite values. *)
Lemma aggd_features_exact_structure (patch : matrix) :
  fin_list (concat patch) ->
  exists a N bl br l r rho g,
    aggd_features strict Gamma patch = Ok (Fin a, Fin N, Fin bl, Fin br, Fin l, Fin r) /\
    0 <= l /\ 0 <= r /\ 0 < rho /\ 0 < g /\
    bl = rho * l /\ br = rho * r /\ N = (br - bl) * g /\
    ((forall x, In x (concat patch) -> flt x F0 = false) -> l = 0) /\
    ((forall x, In x (concat patch) -> fge x F0 = false) -> r = 0).
Proof.
  intros Hfin. destruct (fin_list_lift _ Hfin) as [pl Epl].
  pose proof (aggd_scales_fin pl) as Hsc. rewrite <- Epl in Hsc.
  set (l := rms (squares_where is_neg pl)) in *.
  set (r := rms (squares_where is_nonneg pl)) in *.
  destruct (aggd_gamma_hat_ok strict (Fin l) (Fin r)) as [gh Hgh].
  destruct (aggd_r_hat_ok strict (concat patch)) as [rh Hrh].
  destruct (aggd_features_tail gh rh) as (a & rho & g & _ & Hrho & Hg & Htail).
  exists a, ((rho * r + - (rho * l)) * g), (rho * l), (rho * r), l, r, rho, g.
  split; [now apply Htail|].
  split; [apply rms_nonneg|]. split; [apply rms_nonneg|].
  split; [assumption|]. split; [assumption|].
  split; [reflexivity|]. split; [reflexivity|]. split; [reflexivity|].
  assert (Hnone : forall keep, (forall x, In x pl -> keep x = false) ->
            rms (squares_where keep pl) = 0).
  { intros keep Hk. unfold squares_where.
    replace (filter keep pl) with (@nil R); [reflexivity|].
    symmetry. clear -Hk. induction pl as [|x pl IH]; [reflexivity|].
    cbn [filter]. rewrite (Hk x (or_introl eq_refl)). apply IH.
    intros y Hy. apply Hk. now right. }
  split; intros Hside; apply Hnone; intros x Hx.
  - apply (Hside (Fin x)). rewrite Epl. now apply in_map.
  - apply (Hside (Fin x)). rewrite Epl. now apply in_map.
Qed.

(** Property X2.  The shape of the result for a field of finite values of
    moderate size (at most 10^6 in absolute value, so that no square
    overflows) whose scale ratio is in the range of [math.pow].  Both scales
    are non-negative; [bl] and [br] are the two scales times one positive
    factor, and [N] is their difference times another, so that its sign tells
    which side is the heavier.  A field without negative values has left
    scale 0, and one with negative values only has right scale 0. *)
Theorem aggd_features_structure (patch : matrix) :
  (forall x, In x (concat patch) -> exists v, x = Fin v /\ Rabs v <= IZR (10 ^ 6)) ->
  (forall g, aggd_gamma_hat strict (fst (aggd_scales (concat patch)))
                                   (snd (aggd_scales (concat patch))) = Ok g ->
             in_pow_range g) ->
  exists a N bl br l r rho g,
    Checked.aggd_features strict Gamma true patch
    = Ok (Fin a, Fin N, Fin bl, Fin br, Fin l, Fin r) /\
    0 <= l /\ 0 <= r /\ 0 < rho /\ 0 < g /\
    bl = rho * l /\ br = rho * r /\ N = (br - bl) * g /\
    ((forall x, In x (concat patch) -> flt x F0 = false) -> l = 0) /\
    ((forall x, In x (concat patch) -> fge x F0 = false) -> r = 0).
Proof.
  intros Hsize Hrange. rewrite (checked_features_agree strict Gamma patch Hrange).
  apply aggd_features_exact_structure.
  intros x Hx. destruct (Hsize x Hx) as [v [-> _]]. now exists v.
Qed.

(** Property X3.  The fit is scale invariant: multiplying a field of finite
    values by [c > 0] leaves the shape [alpha] unchanged and multiplies every
    other entry of the result by [c]. *)
Theorem aggd_features_scale_invariance (c : R) (patch : matrix) :
  0 < c -> fin_list (concat patch) ->
  exists a N bl br l r,
    aggd_features strict Gamma patch = Ok (Fin a, Fin N, Fin bl, Fin br, Fin l, Fin r) /\
    aggd_features strict Gamma (mat_map (fmul (Fin c)) patch)
    = Ok (Fin a, Fin (c * N), Fin (c * bl), Fin (c * br), Fin (c * l), Fin (c * r)).
Proof.
  intros Hc Hfin. destruct (fin_list_lift _ Hfin) as [pl Epl].
  assert (Epl' : concat (mat_map (fmul (Fin c)) patch) = map Fin (map (Rmult c) pl)).
  { unfold mat_map. rewrite <- concat_map, Epl, !map_map. reflexivity. }
  pose proof (aggd_scales_fin pl) as Hsc.
  set (l := rms (squares_where is_neg pl)) in *.
  set (r := rms (squares_where is_nonneg pl)) in *.
  pose proof (aggd_scales_scale c pl l r Hc Hsc) as Hsc'.
  destruct (aggd_gamma_hat_ok strict (Fin l) (Fin r)) as [gh Hgh].
  destruct (aggd_r_hat_ok strict (map Fin pl)) as [rh Hrh].
  destruct (aggd_features_tail gh rh) as (a & rho & g & _ & Hrho & Hg & Htail).
  exists a, ((rho * r + - (rho * l)) * g), (rho * l), (rho * r), l, r.
  split.
  - apply Htail; rewrite ?Epl; assumption.
  - rewrite (Htail (mat_map (fmul (Fin c)) patch) (c * l) (c * r)).
    + do 2 f_equal. repeat (f_equal; try ring).
    + now rewrite Epl'.
    + now rewrite aggd_gamma_hat_scale.
    + rewrite Epl'. now rewrite aggd_r_hat_scale.
Qed.

End FitInReals.

Close Scope R_scope.

Lemma two_samples_finite : fin_list (concat [[Fin 1; Fin (-2)]]).
Proof. intros x [<-|[<-|[]]]; eexists; reflexivity. Qed.

(** The scales of a field of one negative and one non-negative sample. *)
Lemma two_sample_scales (b c : R) :
  (0 < b)%R -> (0 <= c)%R ->
  aggd_scales (concat [[Fin (- b); Fin c]]) = (Fin b, Fin c).
Proof.
  intros Hb Hc. change (concat [[Fin (- b); Fin c]]) with (map Fin [(- b)%R; c]).
  rewrite aggd_scales_fin. unfold squares_where. cbn [filter].
  unfold is_neg, is_nonneg.
  destruct (Rlt_dec (- b) 0) as [_|n]; [|exfalso; apply n; lra].
  destruct (Rlt_dec c 0) as [n|_]; [exfalso; lra|].
  destruct (Rle_dec 0 (- b)) as [n|_]; [exfalso; lra|].
  destruct (Rle_dec 0 c) as [_|n]; [|exfalso; apply n; lra].
  cbn [map rms length]. unfold rsum. cbn [fold_right Z.of_nat Pos.of_succ_nat].
  f_equal; f_equal.
  - replace ((- b * - b + 0) / 1)%R with (b * b)%R by field. apply sqrt_square; lra.
  - replace ((c * c + 0) / 1)%R with (c * c)%R by field. now apply sqrt_square.
Qed.

Lemma two_sample_ratio strict (b c : R) :
  (0 < b)%R -> (0 < c)%R ->
  aggd_gamma_hat strict (Fin b) (Fin c) = Ok (Fin (b / c)).
Proof.
  intros Hb Hc. unfold aggd_gamma_hat, fne. rewrite feq_fin_false by lra.
  cbn [negb]. apply np_div_fin. lra.
Qed.

Lemma aggd_structure_witness :
  exists a N bl br l r,
    Checked.aggd_features false Fixture.gamma true [[Fin (- (2)); Fin 1]]
    = Ok (Fin a, Fin N, Fin bl, Fin br, Fin l, Fin r) /\
    (0 <= l)%R /\ (0 <= r)%R.
Proof.
  destruct (aggd_features_structure false Fixture.gamma gamma_positive_fixture
              [[Fin (- (2)); Fin 1]])
    as (a & N & bl & br & l & r & rho & g & E & Hl & Hr & _).
  - intros x [<-|[<-|[]]]; eexists; (split; [reflexivity|]).
    + rewrite Rabs_Ropp, Rabs_pos_eq by lra. apply (IZR_le 2). vm_compute. discriminate.
    + rewrite Rabs_pos_eq by lra. apply (IZR_le 1). vm_compute. discriminate.
  - intros g. rewrite two_sample_scales by lra. cbn [fst snd].
    rewrite two_sample_ratio by lra. intros E. injection E as <-.
    cbn [in_pow_range]. replace (2 / 1)%R with 2%R by field.
    rewrite Rabs_pos_eq by lra. apply (IZR_le 2). vm_compute. discriminate.
  - exists a, N, bl, br, l, r. repeat split; assumption.
Defined.

(** A field of doubles with scale ratio 10^103: [math.pow(gamma_hat, 3)]
    leaves the range. *)
Lemma extreme_ratio_overflows :
  (Checked.DBL_MAX
     < Rabs (IZR (10 ^ 103) / 1 * (IZR (10 ^ 103) / 1 * (IZR (10 ^ 103) / 1))))%R.
Proof.
  replace (IZR (10 ^ 103) / 1)%R with (IZR (10 ^ 103)) by field.
  rewrite <- !mult_IZR. unfold Checked.DBL_MAX.
  rewrite Rabs_pos_eq by (apply IZR_le; vm_compute; discriminate).
  apply IZR_lt. vm_compute. reflexivity.
Qed.

Lemma aggd_features_overflow_on_extreme_ratio :
  Checked.aggd_features false Fixture.gamma true [[Fin (- IZR (10 ^ 103)); Fin 1]]
    = Raise (OtherError "OverflowError") /\
  Checked.aggd_features false Fixture.gamma false [[Fin (- IZR (10 ^ 103)); Fin 1]]
    = Raise (OtherError "AttributeError").
Proof.
  split; [|reflexivity].
  assert (HB : (0 < IZR (10 ^ 103))%R) by (apply (IZR_lt 0); vm_compute; reflexivity).
  unfold Checked.aggd_features. cbv zeta.
  rewrite two_sample_scales by lra.
  rewrite two_sample_ratio by lra. cbn [bind].
  destruct (aggd_r_hat_ok false (concat [[Fin (- IZR (10 ^ 103)); Fin 1]])) as [rh ->].
  cbn [bind]. unfold Checked.aggd_rhat_norm.
  rewrite (checked_pow_overflow (Fin (IZR (10 ^ 103) / 1)) 3 _ eq_refl extreme_ratio_overflows).
  reflexivity.
Qed.

Lemma aggd_scale_witness :
  exists a N bl br l r,
    aggd_features false Fixture.gamma [[Fin 1; Fin (-2)]]
    = Ok (Fin a, Fin N, Fin bl, Fin br, Fin l, Fin r) /\
    aggd_features false Fixture.gamma (mat_map (fmul (Fin 3)) [[Fin 1; Fin (-2)]])
    = Ok (Fin a, Fin (3 * N), Fin (3 * bl), Fin (3 * br), Fin (3 * l), Fin (3 * r)).
Proof.
  apply (aggd_features_scale_invariance false Fixture.gamma gamma_positive_fixture 3
           [[Fin 1; Fin (-2)]]); [lra|exact two_samples_finite].
Defined.

(** ** Degenerate fields *)





Lemma roll_entries shift0 shift1 m row x :
  In row (roll_axis1 shift1 (roll_axis0 shift0 m)) -> In x row ->
  exists r, In r m /\ In x r.
Proof.
  unfold roll_axis1, roll_axis0. intros Hrow Hx.
  apply in_map_iff in Hrow as [r [<- Hr]].
  exists r. split; [exact (np_roll_In _ _ _ Hr)|exact (np_roll_In _ _ _ Hx)].
Qed.

Lemma roll_axis1_entries shift m row x :
  In row (roll_axis1 shift m) -> In x row -> exists r, In r m /\ In x r.
Proof.
  unfold roll_axis1. intros Hrow Hx. apply in_map_iff in Hrow as [r [<- Hr]].
  exists r. split; [assumption|exact (np_roll_In _ _ _ Hx)].
Qed.

Lemma roll_axis0_entries shift m row x :
  In row (roll_axis0 shift m) -> In x row -> exists r, In r m /\ In x r.
Proof.
  unfold roll_axis0. intros Hrow Hx. exists row. split; [exact (np_roll_In _ _ _ Hrow)|assumption].
Qed.

Lemma product_of_zeros a b :
  (forall row x, In row a -> In x row -> x = F0) ->
  (forall row x, In row b -> In x row -> x = F0) ->
  forall x, In x (concat (mat_map2 fmul a b)) -> x = F0.
Proof.
  intros Ha Hb x Hx. apply in_concat in Hx as [row [Hrow Hx]].
  unfold mat_map2 in Hrow. apply map2_In in Hrow as (ra & rb & Hra & Hrb & ->).
  apply map2_In in Hx as (u & v & Hu & Hv & ->).
  rewrite (Ha ra u Hra Hu), (Hb rb v Hrb Hv). unfold F0. cbn [fmul]. f_equal. lra.
Qed.

Section DegenerateFields.

Variable strict : bool.
Variable Gamma : float -> float.
Hypothesis Gamma_pos : gamma_positive Gamma.

(** The fit of an all-zero field. *)
Lemma aggd_features_zero_field patch :
  (forall x, In x (concat patch) -> x = F0) ->
  aggd_features strict Gamma patch = Ok (Fin (2 / 10), F0, F0, F0, F0, F0).
Proof.
  intros Hz. unfold aggd_features. cbv zeta.
  rewrite (aggd_scales_zeros _ Hz).
  unfold aggd_gamma_hat, fne. rewrite feq_fin_zero. cbn [negb bind].
  destruct (aggd_r_hat_ok strict (concat patch)) as [rh ->]. cbn [bind].
  rewrite aggd_rhat_norm_inf. cbn [bind].
  rewrite (aggd_alpha_nan strict Gamma Gamma_pos). cbn [bind].
  destruct (gamma_at strict Gamma Gamma_pos (2 / 10) 1) as [g1 [E1 [G1 P1]]]; [lra..|].
  destruct (gamma_at strict Gamma Gamma_pos (2 / 10) 2) as [g2 [E2 [G2 P2]]]; [lra..|].
  destruct (gamma_at strict Gamma Gamma_pos (2 / 10) 3) as [g3 [E3 [G3 P3]]]; [lra..|].
  rewrite E1, E2, E3. cbn [bind]. rewrite G1, G2, G3.
  destruct (fsqrt_fin_pos g1 P1) as [S1 Q1].
  destruct (fsqrt_fin_pos g3 P3) as [S3 Q3].
  rewrite S1, S3. rewrite np_div_fin by lra. cbn [bind].
  rewrite np_div_fin by lra. cbn [bind fmul fsub fadd fneg F0].
  replace (sqrt g1 / sqrt g3 * 0)%R with 0%R by ring.
  replace ((0 + - 0) * (g2 / g1))%R with 0%R by ring. reflexivity.
Qed.

(** Property X21.  An all-zero patch, of any size, gets one fixed feature
    vector and raises nothing: every shape is the first grid entry 0.2 and
    every other feature is 0. *)
Theorem features_of_a_zero_patch (mscncoefs : matrix) :
  (forall row x, In row mscncoefs -> In x row -> x = F0) ->
  _niqe_extract_subband_feats strict Gamma mscncoefs
  = Ok [Fin (2 / 10); F0;
        Fin (2 / 10); F0; F0; F0;
        Fin (2 / 10); F0; F0; F0;
        Fin (2 / 10); F0; F0; F0;
        Fin (2 / 10); F0; F0; F0].
Proof.
  intros Hz. unfold _niqe_extract_subband_feats, paired_product. cbv zeta.
  assert (H0 : forall x, In x (concat mscncoefs) -> x = F0).
  { intros x Hx. apply in_concat in Hx as [row [Hrow Hx]]. exact (Hz row x Hrow Hx). }
  assert (H1 : forall s row x, In row (roll_axis1 s mscncoefs) -> In x row -> x = F0).
  { intros s row x Hrow Hx.
    destruct (roll_axis1_entries _ _ _ _ Hrow Hx) as (r & Hr & Hxr). exact (Hz r x Hr Hxr). }
  assert (H2 : forall s row x, In row (roll_axis0 s mscncoefs) -> In x row -> x = F0).
  { intros s row x Hrow Hx.
    destruct (roll_axis0_entries _ _ _ _ Hrow Hx) as (r & Hr & Hxr). exact (Hz r x Hr Hxr). }
  assert (H3 : forall s0 s1 row x,
            In row (roll_axis1 s1 (roll_axis0 s0 mscncoefs)) -> In x row -> x = F0).
  { intros s0 s1 row x Hrow Hx.
    destruct (roll_entries _ _ _ _ _ Hrow Hx) as (r & Hr & Hxr). exact (Hz r x Hr Hxr). }
  rewrite (aggd_features_zero_field mscncoefs H0). cbn [bind].
  rewrite !aggd_features_zero_field
    by (apply product_of_zeros; [apply H1 || apply H2 || apply H3|exact Hz]).
  cbn [bind fadd F0]. rewrite fdiv_fin by lra.
  replace ((0 + 0) / 2)%R with 0%R by lra. reflexivity.
Qed.



End DegenerateFields.

Lemma zero_patch_witness :
  _niqe_extract_subband_feats false Fixture.gamma (Fixture.zeros 2 2)
  = Ok [Fin (2 / 10); F0;
        Fin (2 / 10); F0; F0; F0;
        Fin (2 / 10); F0; F0; F0;
        Fin (2 / 10); F0; F0; F0;
        Fin (2 / 10); F0; F0; F0].
Proof.
  apply (features_of_a_zero_patch false Fixture.gamma gamma_positive_fixture).
  intros row x Hrow Hx. unfold Fixture.zeros, build in Hrow.
  apply in_map_iff in Hrow as [i [<- _]]. apply in_map_iff in Hx as [j [<- _]].
  reflexivity.
Defined.


(** * A pseudo-inverse that is not exact *)

(** ** The features of an all-zero image *)







(** ** Statistics of equal rows *)

Open Scope R_scope.






Close Scope R_scope.


(** ** The stand-in *)





